(** * motionsim: a Monte Carlo random walk of particles on a square grid

  A shallow embedding of [src/motionsim/motionsim.cpp]: the device kernel
  [Simulation], the host driver [motion_device] (random table, kernel
  launch, reduction of the per-particle counters), the set-up done by
  [main] and the printing of the grid by [print_matrix].

  - C++ [float] is IEEE binary32, modelled by the Standard Library's
    [spec_float] with precision 24 and [emax] 128; the one [double]
    subtraction of the kernel is binary64 (precision 53, [emax] 1024).
  - [size_t] is a 64-bit unsigned, [int] a 32-bit signed and
    [unsigned int] a 32-bit unsigned integer, all modelled in [Z] with
    the wrap-around written out.
  - device arrays are lists; every access of the kernel is recorded in a
    trace so that what a thread reads and writes can be stated;
  - what is written to [std::cout] is a list of characters. *)

From Stdlib Require Import ZArith QArith Qround Bool List Lia Ascii.
From Stdlib Require Import Floats.SpecFloat.
From stdpp Require Import base tactics option list.

Open Scope Z_scope.

(** ** Machine integers *)

Definition SIZE_MAX : Z := 2 ^ 64 - 1.
Definition INT_MAX : Z := 2 ^ 31 - 1.
Definition INT_MIN : Z := - 2 ^ 31.
Definition UINT_MAX : Z := 2 ^ 32 - 1.

(** Conversion of an integer value to [size_t]: reduction modulo 2^64. *)
Definition to_size_t (z : Z) : Z := z mod 2 ^ 64.

(** Conversion of an integer value to [int]: two's complement on 32 bits. *)
Definition to_int (z : Z) : Z := (z + 2 ^ 31) mod 2 ^ 32 - 2 ^ 31.

Definition is_size_t (z : Z) : Prop := 0 <= z <= SIZE_MAX.
Definition is_int (z : Z) : Prop := INT_MIN <= z <= INT_MAX.
Definition is_uint (z : Z) : Prop := 0 <= z <= UINT_MAX.

Definition clamp (lo hi z : Z) : Z := Z.max lo (Z.min hi z).

(** ** Floating point *)

Abbreviation float := spec_float.

Global Instance float_inhabited : Inhabited float := populate (S754_zero false).

(** Binary32, the C++ [float]. *)
Module F32.

Definition prec : Z := 24.
Definition emax : Z := 128.

Definition add : float -> float -> float := SFadd prec emax.
Definition sub : float -> float -> float := SFsub prec emax.
Definition mul : float -> float -> float := SFmul prec emax.
Definition div : float -> float -> float := SFdiv prec emax.

(** Integer to [float], rounding to nearest even. *)
Definition of_Z (z : Z) : float := binary_normalize prec emax z 0 false.

Definition zero : float := S754_zero false.
Definition one : float := of_Z 1.

(** The rational number a finite float stands for (0 for the others). *)
Definition to_Q (x : float) : Q :=
  match x with
  | S754_finite s m (Zneg k) => Qmake (cond_Zopp s (Zpos m)) (2 ^ k)
  | S754_finite s m e => inject_Z (cond_Zopp s (Zpos m) * 2 ^ e)
  | _ => 0%Q
  end.

(** IEEE comparison: unordered when a NaN is involved, infinities at the
    two ends, and finite numbers (both zeros are 0) by their value. *)
Definition compare (x y : float) : option comparison :=
  match x, y with
  | S754_nan, _ | _, S754_nan => None
  | S754_infinity sx, S754_infinity sy =>
      Some (match sx, sy with
            | true, true | false, false => Eq
            | true, false => Lt
            | false, true => Gt
            end)
  | S754_infinity s, _ => Some (if s then Lt else Gt)
  | _, S754_infinity s => Some (if s then Gt else Lt)
  | _, _ => Some (Qcompare (to_Q x) (to_Q y))
  end.

(** [x < y] *)
Definition ltb (x y : float) : bool :=
  match compare x y with Some Lt => true | _ => false end.

(** [x <= y] *)
Definition leb (x y : float) : bool :=
  match compare x y with Some (Lt | Eq) => true | _ => false end.

(** [x >= y] *)
Definition geb (x y : float) : bool := leb y x.

(** [trunc]: the fraction bits of the mantissa are cleared, the sign is
    kept (so [trunc (-0.5)] is [-0.0]). The result is a float as it is,
    there is nothing to round. *)
Definition trunc (x : float) : float :=
  match x with
  | S754_finite s m (Zneg k) =>
      match Z.shiftr (Zpos m) (Zpos k) with
      | Zpos q => S754_finite s (Pos.shiftl q (Npos k)) (Zneg k)
      | _ => S754_zero s
      end
  | _ => x
  end.

(** Does a finite float have a non-zero fraction? *)
Definition has_fraction (x : float) : bool :=
  match x with
  | S754_finite _ m (Zneg k) => negb (Z.land (Zpos m) (Z.ones (Zpos k)) =? 0)
  | _ => false
  end.

(** [floor]: [trunc] for a non-negative or integral argument, one below
    it otherwise. *)
Definition floor (x : float) : float :=
  match x with
  | S754_finite true _ _ => if has_fraction x then sub (trunc x) one else x
  | _ => trunc x
  end.

(** The integer part of a finite float, toward zero. *)
Definition int_part (x : float) : Z :=
  match x with
  | S754_finite s m e => cond_Zopp s (Z.shiftl (Zpos m) e)
  | _ => 0
  end.

(** Conversion of a [float] to [int]. C++ leaves the conversion undefined
    when the truncated value does not fit (and for infinities and NaN);
    the model saturates there and maps NaN to 0, as GPU conversion
    instructions do. *)
Definition to_int (x : float) : Z :=
  match x with
  | S754_nan => 0
  | S754_infinity s => if s then INT_MIN else INT_MAX
  | _ => clamp INT_MIN INT_MAX (int_part x)
  end.

(** Conversion of a [float] to [size_t], with the same convention. *)
Definition to_size_t (x : float) : Z :=
  match x with
  | S754_nan => 0
  | S754_infinity s => if s then 0 else SIZE_MAX
  | _ => clamp 0 SIZE_MAX (int_part x)
  end.

End F32.

(** Binary64, the C++ [double]. *)
Module F64.

Definition prec : Z := 53.
Definition emax : Z := 1024.

Definition sub : float -> float -> float := SFsub prec emax.
Definition div : float -> float -> float := SFdiv prec emax.
Definition of_Z (z : Z) : float := binary_normalize prec emax z 0 false.

(** Every binary32 number is a binary64 number: the promotion of a
    [float] operand to [double] changes nothing. *)
Definition of_f32 (x : float) : float := x.

(** [double] to [float], rounding to nearest even. *)
Definition to_f32 (x : float) : float :=
  match x with
  | S754_finite s m e =>
      binary_normalize F32.prec F32.emax (cond_Zopp s (Zpos m)) e s
  | _ => x
  end.

(** A decimal literal with [num]/[den] as its value: the division of two
    exactly represented integers is correctly rounded, as the literal is. *)
Definition literal (num den : Z) : float := div (of_Z num) (of_Z den).

End F64.

(** ** Device memory and the kernel monad *)

(** The five buffers the kernel receives: four arrays of [float] and the
    array of [size_t] counters. *)
Inductive fbuffer := ParticleX | ParticleY | RandomX | RandomY.

Record memory := Memory {
  d_particleX : list float;
  d_particleY : list float;
  d_randomX : list float;
  d_randomY : list float;
  d_map : list Z
}.

Inductive address :=
| Float (b : fbuffer) (i : nat)
| Counter (i : nat).

Inductive access :=
| Rd (l : address)
| Wr (l : address).

Definition fget (b : fbuffer) (m : memory) : list float :=
  match b with
  | ParticleX => d_particleX m
  | ParticleY => d_particleY m
  | RandomX => d_randomX m
  | RandomY => d_randomY m
  end.

Definition fset (b : fbuffer) (l : list float) (m : memory) : memory :=
  match b with
  | ParticleX => Memory l (d_particleY m) (d_randomX m) (d_randomY m) (d_map m)
  | ParticleY => Memory (d_particleX m) l (d_randomX m) (d_randomY m) (d_map m)
  | RandomX => Memory (d_particleX m) (d_particleY m) l (d_randomY m) (d_map m)
  | RandomY => Memory (d_particleX m) (d_particleY m) (d_randomX m) l (d_map m)
  end.

Definition set_map (l : list Z) (m : memory) : memory :=
  Memory (d_particleX m) (d_particleY m) (d_randomX m) (d_randomY m) l.

(** A kernel computation threads the device memory and the trace of the
    accesses made so far (oldest first), each with the buffer and the
    position in it. An access outside a buffer is
    undefined in C++; here a read outside yields the default element, a
    write outside changes nothing, and both are still recorded. *)
Definition kernel (A : Type) : Type :=
  memory * list access -> A * (memory * list access).

Global Instance kernel_ret : MRet kernel := fun A a s => (a, s).
Global Instance kernel_bind : MBind kernel :=
  fun A B k c s => let '(a, s') := c s in k a s'.

Definition load (b : fbuffer) (i : Z) : kernel float :=
  fun '(m, t) => (fget b m !!! Z.to_nat i, (m, t ++ [Rd (Float b (Z.to_nat i))])).

Definition store (b : fbuffer) (i : Z) (v : float) : kernel unit :=
  fun '(m, t) =>
    (tt, (fset b (<[Z.to_nat i := v]> (fget b m)) m, t ++ [Wr (Float b (Z.to_nat i))])).

Definition load_map (i : Z) : kernel Z :=
  fun '(m, t) => (d_map m !!! Z.to_nat i, (m, t ++ [Rd (Counter (Z.to_nat i))])).

Definition store_map (i : Z) (v : Z) : kernel unit :=
  fun '(m, t) =>
    (tt, (set_map (<[Z.to_nat i := v]> (d_map m)) m, t ++ [Wr (Counter (Z.to_nat i))])).

(** ** The kernel [Simulation] *)

(** [(float)randnum / 1000.0f - 0.0495], stored into a [float]: the
    division is done in binary32, the subtraction in binary64 since
    [0.0495] is a [double] literal, and the assignment rounds to binary32. *)
Definition displacement (randnum : Z) : float :=
  F64.to_f32
    (F64.sub (F64.of_f32 (F32.div (F32.of_Z randnum) (F32.of_Z 1000)))
             (F64.literal 495 10000)).

(** [size_t ii = hipBlockDim_x * hipBlockIdx_x + hipThreadIdx_x], the three
    being 32-bit unsigned. *)
Definition to_uint (z : Z) : Z := z mod 2 ^ 32.

Definition thread_index (blockDim blockIdx threadIdx : Z) : Z :=
  to_size_t (to_uint (to_uint (blockDim * blockIdx) + threadIdx)).

Section Kernel.

Variables (n_particles : Z) (nIterations : Z) (grid_size : Z) (radius : float).

(** The step "transform the scaled random numbers into small displacements"
    is kept as a parameter of the loop body, so that a trajectory can also
    be stated for displacements chosen freely; the kernel of the source is
    the instance at [displacement]. *)
Variable transform : Z -> float.

(** [(x < grid_size) && (y < grid_size) && (x >= 0) && (y >= 0)]; the
    [int] operands are converted to [float]. *)
Definition in_grid (x y : float) : bool :=
  F32.ltb x (F32.of_Z grid_size) && F32.ltb y (F32.of_Z grid_size)
  && F32.geb x (F32.of_Z 0) && F32.geb y (F32.of_Z 0).

(** [dX * dX + dY * dY <= radius * radius] with
    [dX = x - trunc(x)] and [dY = y - trunc(y)]. *)
Definition in_cell (x y : float) : bool :=
  let dX := F32.sub x (F32.trunc x) in
  let dY := F32.sub y (F32.trunc y) in
  F32.leb (F32.add (F32.mul dX dX) (F32.mul dY dY)) (F32.mul radius radius).

(** [ii * grid_size * grid_size + iY * grid_size + iX]: [ii] is a [size_t],
    so the first product and the sums are taken modulo 2^64; [iY * grid_size]
    is a product of two [int]. *)
Definition map_index (ii iY iX : Z) : Z :=
  to_size_t
    (to_size_t
       (to_size_t (to_size_t (ii * to_size_t grid_size) * to_size_t grid_size)
        + to_size_t (to_int (iY * grid_size)))
     + to_size_t iX).

(** The body of the [while] loop. After the two updates the source reads
    [a_particleX[ii]] and [a_particleY[ii]] several times with no write in
    between; the model reads each once, as [x] and [y]. *)
Definition Simulation_iteration (ii iter : Z) : kernel unit :=
  rx ← load RandomX (to_size_t (to_size_t (iter * n_particles) + ii));
  let randnumX := F32.to_size_t rx in
  ry ← load RandomY (to_size_t (to_size_t (iter * n_particles) + ii));
  let randnumY := F32.to_size_t ry in
  let displacementX := transform randnumX in
  let displacementY := transform randnumY in
  px ← load ParticleX ii;
  store ParticleX ii (F32.add px displacementX);;
  py ← load ParticleY ii;
  store ParticleY ii (F32.add py displacementY);;
  x ← load ParticleX ii;
  y ← load ParticleY ii;
  let iX := F32.to_int (F32.floor x) in
  let iY := F32.to_int (F32.floor y) in
  if in_grid x y then
    if in_cell x y then
      c ← load_map (map_index ii iY iX);
      store_map (map_index ii iY iX) (to_size_t (c + 1))
    else mret tt
  else mret tt.

(** [while (iter < nIterations) { ...; iter++; }] with [todo] iterations
    left to run. *)
Fixpoint Simulation_loop (todo : nat) (ii iter : Z) : kernel unit :=
  match todo with
  | O => mret tt
  | S todo' =>
      Simulation_iteration ii iter;; Simulation_loop todo' ii (iter + 1)
  end.

(** One thread of the kernel. *)
Definition Simulation (blockDim blockIdx threadIdx : Z) : kernel unit :=
  let ii := thread_index blockDim blockIdx threadIdx in
  if n_particles <=? ii then mret tt
  else Simulation_loop (Z.to_nat nIterations) ii 0.

End Kernel.

(** ** Launching the kernel *)

Section Launch.

Variables (n_particles : Z) (nIterations : Z) (grid_size : Z) (radius : float).
Variable transform : Z -> float.

(** [dim3((n_particles + 255) / 256)] blocks of [dim3(256)] threads. *)
Definition blockDim : Z := 256.
Definition gridDim : Z := to_uint (to_size_t (n_particles + 255) / 256).

(** The threads of the launch, numbered block after block. *)
Definition n_threads : nat := Z.to_nat (gridDim * blockDim).

Definition thread (k : nat) : kernel unit :=
  Simulation n_particles nIterations grid_size radius transform
    blockDim (Z.of_nat k / blockDim) (Z.of_nat k mod blockDim).

(** The launch with the threads run one after the other, each to its end. *)
Definition Simulation_launch : kernel unit :=
  foldr (fun k rest => thread k;; rest) (mret tt) (seq 0 n_threads).

(** The launch under a scheduler. A configuration is the device state and,
    for every thread, the value of its local [iter]. A scheduler picks a
    thread, which then runs one iteration of its loop; a thread whose index
    is not below [n_particles], or whose loop is over, has nothing to run. *)
Record config := Config {
  c_state : memory * list access;
  c_iter : list Z
}.

Definition thread_step (k : nat) (c : config) : config :=
  let ii := thread_index blockDim (Z.of_nat k / blockDim)
                         (Z.of_nat k mod blockDim) in
  let iter := c_iter c !!! k in
  if n_particles <=? ii then c
  else if iter <? nIterations then
    Config (snd (Simulation_iteration n_particles grid_size radius transform
                   ii iter (c_state c)))
           (<[k := iter + 1]> (c_iter c))
  else c.

Definition run_schedule (s : list nat) (c : config) : config :=
  foldl (fun c k => thread_step k c) c s.

Definition initial (m : memory) : config :=
  Config (m, []) (replicate n_threads 0).

(** Every thread has returned. *)
Definition finished (c : config) : Prop :=
  forall k : nat, (k < n_threads)%nat ->
    let ii := thread_index blockDim (Z.of_nat k / blockDim)
                           (Z.of_nat k mod blockDim) in
    ii < n_particles -> nIterations <= c_iter c !!! k.

End Launch.

(** ** The host: [motion_device] and [main] *)

(** [const size_t scale = 100]. *)
Definition scale : Z := 100.

(** [rand() % scale] stored into a [float]: the [int] that [rand] returns
    is converted to [size_t] for the remainder. *)
Definition draw (r : Z) : Z := to_size_t r mod scale.

(** The loop that fills [randomX] and [randomY]; [rand k] is the value of
    the [k]-th call of [rand()], [calls] the number of calls made so far. *)
Fixpoint fill_random (rand : nat -> Z) (n calls : nat)
  : list float * list float :=
  match n with
  | O => ([], [])
  | S n' =>
      let x := F32.of_Z (draw (rand calls)) in
      let y := F32.of_Z (draw (rand (S calls))) in
      let '(xs, ys) := fill_random rand n' (S (S calls)) in
      (x :: xs, y :: ys)
  end.

(** [grid[y][x] += c] with [grid] an array of rows of [int] and [c] a
    [size_t]: the sum is taken in [size_t] and converted back to [int]. *)
Definition grid_add (y x c : Z) (grid : list (list Z)) : list (list Z) :=
  let row := grid !!! Z.to_nat y in
  let old := row !!! Z.to_nat x in
  <[Z.to_nat y := <[Z.to_nat x := to_int (to_size_t (to_size_t old + c))]> row]>
    grid.

Section Reduction.

Variables (n_particles : Z) (grid_size : Z).

(** [i * grid_size * grid_size + y * grid_size + x], all in [size_t]. *)
Definition host_index (i y x : Z) : Z :=
  to_size_t
    (to_size_t
       (to_size_t (to_size_t (i * to_size_t grid_size) * to_size_t grid_size)
        + to_size_t (y * to_size_t grid_size))
     + x).

(** The body of the innermost loop, with its [> 0] test. *)
Definition reduce_cell (map : list Z) (i y x : Z) (grid : list (list Z))
  : list (list Z) :=
  let c := map !!! Z.to_nat (host_index i y x) in
  if 0 <? c then grid_add y x c grid else grid.

(** The loops over [y] and [x] for one particle; [size_t y < grid_size]
    compares in [size_t]. *)
Definition reduce_particle (map : list Z) (i : Z) (grid : list (list Z))
  : list (list Z) :=
  foldl (fun g y =>
           foldl (fun g x => reduce_cell map i y x g) g
                 (seqZ 0 (to_size_t grid_size)))
        grid (seqZ 0 (to_size_t grid_size)).

(** The outer loop, over the particles in a given order. *)
Definition reduce_in (order : list Z) (map : list Z) (grid : list (list Z))
  : list (list Z) :=
  foldl (fun g i => reduce_particle map i g) grid order.

(** The reduction of the source: particles 0, 1, ..., [n_particles - 1]. *)
Definition reduce (map : list Z) (grid : list (list Z)) : list (list Z) :=
  reduce_in (seqZ 0 n_particles) map grid.

(** The same loops without the [> 0] test. *)
Definition reduce_cell_all (map : list Z) (i y x : Z) (grid : list (list Z))
  : list (list Z) :=
  grid_add y x (map !!! Z.to_nat (host_index i y x)) grid.

Definition reduce_particle_all (map : list Z) (i : Z) (grid : list (list Z))
  : list (list Z) :=
  foldl (fun g y =>
           foldl (fun g x => reduce_cell_all map i y x g) g
                 (seqZ 0 (to_size_t grid_size)))
        grid (seqZ 0 (to_size_t grid_size)).

Definition reduce_all (map : list Z) (grid : list (list Z)) : list (list Z) :=
  foldl (fun g i => reduce_particle_all map i g) grid (seqZ 0 n_particles).

End Reduction.

Record host := Host {
  h_grid : list (list Z);
  h_map : list Z;
  h_randomX : list float;
  h_randomY : list float;
  h_trace : list access
}.

Section Host.

(** The C library: [rand_after_srand seed k] is what the [k]-th call of
    [rand()] returns once [srand(seed)] has been called. *)
Variable rand_after_srand : Z -> nat -> Z.

Variable transform : Z -> float.

(** [motion_device], with the way the launched kernel is executed as a
    parameter [exec]: from the device memory before to the device memory
    and the trace after. The arrays [randomX] and [randomY] of the caller
    are written in full before they are read, so they are results only. *)
Definition motion_device_exec
    (exec : memory -> memory * list access)
    (particleX particleY : list float) (grid : list (list Z))
    (grid_size n_particles nIterations : Z) (radius : float)
    (map : list Z) : host :=
  let rand := rand_after_srand 17 in
  let '(randomX, randomY) :=
    fill_random rand (Z.to_nat (to_size_t (n_particles * nIterations))) 0 in
  let MAP_SIZE :=
    to_size_t (to_size_t (n_particles * to_size_t grid_size)
               * to_size_t grid_size) in
  let dev :=
    Memory (take (Z.to_nat n_particles) particleX)
           (take (Z.to_nat n_particles) particleY)
           randomX randomY
           (take (Z.to_nat MAP_SIZE) map) in
  let '(dev', trace) := exec dev in
  let map' := d_map dev' ++ drop (Z.to_nat MAP_SIZE) map in
  Host (reduce n_particles grid_size map' grid) map' randomX randomY trace.

Definition motion_device
    (particleX particleY : list float) (grid : list (list Z))
    (grid_size n_particles nIterations : Z) (radius : float)
    (map : list Z) : host :=
  motion_device_exec
    (fun dev => snd (Simulation_launch n_particles nIterations grid_size
                       radius transform (dev, [])))
    particleX particleY grid grid_size n_particles nIterations radius map.

(** [motion_device] with the kernel run under the schedule [s]. *)
Definition motion_device_scheduled (s : list nat)
    (particleX particleY : list float) (grid : list (list Z))
    (grid_size n_particles nIterations : Z) (radius : float)
    (map : list Z) : host :=
  motion_device_exec
    (fun dev => c_state (run_schedule n_particles nIterations grid_size
                           radius transform s (initial n_particles dev)))
    particleX particleY grid grid_size n_particles nIterations radius map.

(** The arrays as [main] sets them up, for a grid extent, a number of
    particles and a start position; [main] has 21, 20 and (10, 10). *)
Definition initial_particles (n_particles : Z) (start : float) : list float :=
  replicate (Z.to_nat n_particles) start.

Definition initial_map (grid_size n_particles : Z) : list Z :=
  replicate (Z.to_nat (to_size_t (to_size_t (n_particles * grid_size)
                                  * grid_size))) 0.

Definition initial_grid (grid_size : Z) : list (list Z) :=
  replicate (Z.to_nat grid_size) (replicate (Z.to_nat grid_size) 0).

(** What [main] does between the parsing of its argument and the printing
    of the grid, with its constants as parameters. [grid_size] and
    [nIterations] are [size_t] in [main]; [motion_device] takes the one as
    an [int] and the other as an [unsigned int]. *)
Definition simulate (grid_size n_particles : Z) (radius : float)
    (startX startY : float) (nIterations : Z) : host :=
  motion_device
    (initial_particles n_particles startX)
    (initial_particles n_particles startY)
    (initial_grid grid_size) (to_int grid_size) n_particles
    (to_uint nIterations) radius (initial_map grid_size n_particles).

End Host.

(** [main] for an argument that [std::stoi] parses to [arg]. *)
Definition main (rand_after_srand : Z -> nat -> Z) (arg : Z) : host :=
  simulate rand_after_srand displacement 21 20
    (F32.div (F32.of_Z 1) (F32.of_Z 2)) (F32.of_Z 10) (F32.of_Z 10)
    (to_size_t arg).

(** ** Notions used in the statements *)

Definition Qtrunc (q : Q) : Z := Z.quot (Qnum q) (Zpos (Qden q)).

Definition is_finite (x : float) : bool :=
  match x with S754_zero _ | S754_finite _ _ _ => true | _ => false end.

Definition in_range (G : Z) (x : float) : Prop :=
  is_finite x = true /\ (0 <= F32.to_Q x)%Q /\ (F32.to_Q x < inject_Z G)%Q.

Definition is_nonneg (x : float) : bool :=
  match x with
  | S754_zero _ | S754_finite false _ _ | S754_infinity false => true
  | _ => false
  end.

Definition exec {A} (c : kernel A) (m : memory) : memory := fst (snd (c (m, []))).
Definition accesses {A} (c : kernel A) (m : memory) : list access :=
  snd (snd (c (m, []))).
Definition result {A} (c : kernel A) (m : memory) : A := fst (c (m, [])).

(** A computation only ever appends to the trace. *)
Definition appends {A} (c : kernel A) : Prop :=
  forall m t, c (m, t) = (result c m, (exec c m, t ++ accesses c m)).

Section KernelSpec.

Variables (n_particles : Z) (nIterations : Z) (grid_size : Z) (radius : float).
Variable transform : Z -> float.

Definition table_index (ii iter : Z) : nat :=
  Z.to_nat (to_size_t (to_size_t (iter * n_particles) + ii)).

(** The memory after the two position updates of an iteration. *)
Definition moved (ii iter : Z) (m : memory) : memory :=
  let dx := transform (F32.to_size_t (d_randomX m !!! table_index ii iter)) in
  let dy := transform (F32.to_size_t (d_randomY m !!! table_index ii iter)) in
  Memory (<[Z.to_nat ii := F32.add (d_particleX m !!! Z.to_nat ii) dx]>
            (d_particleX m))
         (<[Z.to_nat ii := F32.add (d_particleY m !!! Z.to_nat ii) dy]>
            (d_particleY m))
         (d_randomX m) (d_randomY m) (d_map m).

(** The counter that the particle at its position in [m] increments, if
    the position passes the two tests. *)
Definition hit (ii : Z) (m : memory) : option Z :=
  let x := d_particleX m !!! Z.to_nat ii in
  let y := d_particleY m !!! Z.to_nat ii in
  if in_grid grid_size x y && in_cell radius x y then
    Some (map_index grid_size ii (F32.to_int (F32.floor y))
            (F32.to_int (F32.floor x)))
  else None.

Definition count (idx : Z) (m : memory) : memory :=
  set_map (<[Z.to_nat idx := to_size_t (d_map m !!! Z.to_nat idx + 1)]> (d_map m)) m.

Definition iteration_memory (ii iter : Z) (m : memory) : memory :=
  let m1 := moved ii iter m in
  match hit ii m1 with Some idx => count idx m1 | None => m1 end.

Definition iteration_accesses (ii iter : Z) (m : memory) : list access :=
  [Rd (Float RandomX (table_index ii iter));
   Rd (Float RandomY (table_index ii iter));
   Rd (Float ParticleX (Z.to_nat ii)); Wr (Float ParticleX (Z.to_nat ii));
   Rd (Float ParticleY (Z.to_nat ii)); Wr (Float ParticleY (Z.to_nat ii));
   Rd (Float ParticleX (Z.to_nat ii)); Rd (Float ParticleY (Z.to_nat ii))]
  ++ match hit ii (moved ii iter m) with
     | Some idx => [Rd (Counter (Z.to_nat idx)); Wr (Counter (Z.to_nat idx))]
     | None => []
     end.

End KernelSpec.

(** The counters of particle [ii] are the positions
    [ii * G * G, ..., (ii + 1) * G * G - 1] of the map. *)
Definition in_slice (grid_size ii : Z) (j : nat) : Prop :=
  ii * (grid_size * grid_size) <= Z.of_nat j < (ii + 1) * (grid_size * grid_size).

(** What the thread of particle [ii] is entitled to access: the two tables
    for reading, and for reading and writing its own position and its own
    counters. *)
Definition footprint (grid_size ii : Z) (a : access) : Prop :=
  match a with
  | Rd (Float RandomX _) | Rd (Float RandomY _) => True
  | Wr (Float RandomX _) | Wr (Float RandomY _) => False
  | Rd (Float _ j) | Wr (Float _ j) => j = Z.to_nat ii
  | Rd (Counter j) | Wr (Counter j) => in_slice grid_size ii j
  end.

(** [m'] differs from [m] at most in the position and the counters of
    particle [ii]. *)
Definition frame (grid_size ii : Z) (m m' : memory) : Prop :=
  d_randomX m' = d_randomX m /\ d_randomY m' = d_randomY m /\
  length (d_particleX m') = length (d_particleX m) /\
  length (d_particleY m') = length (d_particleY m) /\
  length (d_map m') = length (d_map m) /\
  (forall q : nat, q <> Z.to_nat ii ->
     d_particleX m' !! q = d_particleX m !! q /\
     d_particleY m' !! q = d_particleY m !! q) /\
  (forall j : nat, ~ in_slice grid_size ii j -> d_map m' !! j = d_map m !! j).

(** [m1] and [m2] hold the same position and the same counters for
    particle [ii]. *)
Definition agree (grid_size ii : Z) (m1 m2 : memory) : Prop :=
  d_particleX m1 !! Z.to_nat ii = d_particleX m2 !! Z.to_nat ii /\
  d_particleY m1 !! Z.to_nat ii = d_particleY m2 !! Z.to_nat ii /\
  (forall j : nat, in_slice grid_size ii j -> d_map m1 !! j = d_map m2 !! j).

(** Sums of counters. *)
Fixpoint Zsum (f : nat -> Z) (n : nat) : Z :=
  match n with
  | O => 0
  | S k => Zsum f k + f k
  end.

(** Counter [j] of particle [p], for [j] below [G * G]. *)
Definition counter (grid_size : Z) (map : list Z) (p : Z) (j : nat) : Z :=
  map !!! (Z.to_nat (p * (grid_size * grid_size)) + j)%nat.

Section LaunchSpec.

Variables (n_particles : Z) (nIterations : Z) (grid_size : Z) (radius : float).
Variable transform : Z -> float.

(** The memory when the thread of particle [k] alone has run [n]
    iterations from [m0]. *)
Definition solo (n : nat) (k : nat) (m0 : memory) : memory :=
  exec (Simulation_loop n_particles grid_size radius transform n
          (Z.of_nat k) 0) m0.

(** [m] is what the launch must produce from [m0]: every particle is where
    its thread alone would have brought it from [m0], and nothing else has
    changed. *)
Definition completed (m0 m : memory) : Prop :=
  d_randomX m = d_randomX m0 /\ d_randomY m = d_randomY m0 /\
  length (d_particleX m) = length (d_particleX m0) /\
  length (d_particleY m) = length (d_particleY m0) /\
  length (d_map m) = length (d_map m0) /\
  (forall k : nat, Z.of_nat k < n_particles ->
     agree grid_size (Z.of_nat k) m (solo (Z.to_nat nIterations) k m0)) /\
  (forall q : nat, n_particles <= Z.of_nat q ->
     d_particleX m !! q = d_particleX m0 !! q /\
     d_particleY m !! q = d_particleY m0 !! q) /\
  (forall j : nat, n_particles * (grid_size * grid_size) <= Z.of_nat j ->
     d_map m !! j = d_map m0 !! j).

(** The invariant of the scheduled launch: each thread is where it would
    be had it run alone the iterations it has run so far. *)
Definition scheduled (m0 : memory) (c : config) : Prop :=
  let m := fst (c_state c) in
  length (c_iter c) = n_threads n_particles /\
  d_randomX m = d_randomX m0 /\ d_randomY m = d_randomY m0 /\
  length (d_particleX m) = length (d_particleX m0) /\
  length (d_particleY m) = length (d_particleY m0) /\
  length (d_map m) = length (d_map m0) /\
  (forall k : nat, Z.of_nat k < n_particles ->
     exists n : nat,
       c_iter c !!! k = Z.of_nat n /\ Z.of_nat n <= nIterations /\
       agree grid_size (Z.of_nat k) m (solo n k m0)) /\
  (forall q : nat, n_particles <= Z.of_nat q ->
     d_particleX m !! q = d_particleX m0 !! q /\
     d_particleY m !! q = d_particleY m0 !! q) /\
  (forall j : nat, n_particles * (grid_size * grid_size) <= Z.of_nat j ->
     d_map m !! j = d_map m0 !! j).

(** A schedule names launched threads only. *)
Definition schedule (s : list nat) : Prop :=
  Forall (fun k => (k < n_threads n_particles)%nat) s.

(** A schedule is fair when the thread of every particle is picked at
    least [nIterations] times. *)
Definition fair (s : list nat) : Prop :=
  forall k : nat, Z.of_nat k < n_particles ->
    nIterations <= Z.of_nat (count_occ Nat.eq_dec s k).

End LaunchSpec.

(** The sum of the counters of particle [p]. *)
Definition slice_total (grid_size : Z) (map : list Z) (p : Z) : Z :=
  Zsum (counter grid_size map p) (Z.to_nat (grid_size * grid_size)).

Definition is_zero (x : float) : bool :=
  match x with S754_zero _ => true | _ => false end.

(** The float [x] is the integer [a]. *)
Definition at_integer (a : Z) (x : float) : Prop :=
  is_finite x = true /\ F32.has_fraction x = false /\
  (F32.to_Q x == inject_Z a)%Q.

(** [grid[y][x]] *)
Definition cell (grid : list (list Z)) (y x : nat) : Z := (grid !!! y) !!! x.

(** A grid of [G] rows of [G] cells. *)
Definition square (grid_size : Z) (grid : list (list Z)) : Prop :=
  length grid = Z.to_nat grid_size /\
  Forall (fun row => length row = Z.to_nat grid_size) grid.

(** A grid whose cells are values of [int]. *)
Definition int_grid (grid : list (list Z)) : Prop :=
  Forall (Forall is_int) grid.

(** The sum of the integers of a list. *)
Definition sumZ (l : list Z) : Z := foldr Z.add 0 l.

(** What particle [i] has counted for the cell of row [y] and column [x],
    as the host reads it. *)
Definition tally (grid_size : Z) (map : list Z) (y x : nat) (i : Z) : Z :=
  map !!! Z.to_nat (i * (grid_size * grid_size)
                    + Z.of_nat y * grid_size + Z.of_nat x).

(** [value / 1000 - 0.0495] as a rational number. *)
Definition exact_displacement (v : Z) : Q := ((v # 1000) - (495 # 10000))%Q.

(** What is checked of a raw value [v]: the table entry [(float)v] is read
    back by the kernel as [v]; its displacement is a finite float within
    2^-27 of [v / 1000 - 0.0495] and between -0.0495 and +0.0495. *)
Definition displacement_ok (v : Z) : bool :=
  (F32.to_size_t (F32.of_Z v) =? v)
  && is_finite (displacement v)
  && Qle_bool (exact_displacement v - (1 # 2 ^ 27)) (F32.to_Q (displacement v))
  && Qle_bool (F32.to_Q (displacement v)) (exact_displacement v + (1 # 2 ^ 27))
  && Qle_bool (- (495 # 10000)) (F32.to_Q (displacement v))
  && Qle_bool (F32.to_Q (displacement v)) (495 # 10000).

(** ** The walk of a particle *)

Section Trajectory.

Variables (n_particles grid_size : Z) (radius : float).
Variable transform : Z -> float.
Variables (randomX randomY : list float).

(** Where particle [ii] is after [n] iterations when it starts from
    [start]: iteration [k] adds to each coordinate the displacement that
    the entry [k * P + ii] of its table stands for. *)
Fixpoint position (ii : Z) (start : float * float) (n : nat) : float * float :=
  match n with
  | O => start
  | S k =>
      let p := position ii start k in
      let t := table_index n_particles ii (Z.of_nat k) in
      (F32.add p.1 (transform (F32.to_size_t (randomX !!! t))),
       F32.add p.2 (transform (F32.to_size_t (randomY !!! t))))
  end.

(** A particle at [p] is counted for the cell of row [cy] and column [cx]:
    it passes the grid test and the occupancy test, and the floors of its
    coordinates are [cx] and [cy]. *)
Definition counted (p : float * float) (cy cx : Z) : bool :=
  in_grid grid_size p.1 p.2 && in_cell radius p.1 p.2
  && (Qfloor (F32.to_Q p.1) =? cx) && (Qfloor (F32.to_Q p.2) =? cy).

(** How many of the first [n] iterations leave particle [ii] counted for
    the cell of row [cy] and column [cx]. *)
Fixpoint visits (ii : Z) (start : float * float) (cy cx : Z) (n : nat) : Z :=
  match n with
  | O => 0
  | S k =>
      visits ii start cy cx k
      + (if counted (position ii start (S k)) cy cx then 1 else 0)
  end.

(** A particle at [p] passes the grid test and the occupancy test. *)
Definition passes (p : float * float) : bool :=
  in_grid grid_size p.1 p.2 && in_cell radius p.1 p.2.

(** How many of the first [n] iterations leave particle [ii] at a
    position that passes the two tests. *)
Fixpoint passed (ii : Z) (start : float * float) (n : nat) : Z :=
  match n with
  | O => 0
  | S k =>
      passed ii start k + (if passes (position ii start (S k)) then 1 else 0)
  end.

End Trajectory.

(** ** Extents and conflicts of accesses *)

Definition target (a : access) : address :=
  match a with Rd l | Wr l => l end.

Definition is_write (a : access) : bool :=
  match a with Wr _ => true | Rd _ => false end.

(** The access [a] falls inside the extents that [motion_device] gives
    the device buffers: [P * I] entries for each table, [P] for each array
    of coordinates and [P * G * G] counters. *)
Definition in_bounds (n_particles nIterations grid_size : Z) (a : access)
  : Prop :=
  match target a with
  | Float (RandomX | RandomY) j => Z.of_nat j < n_particles * nIterations
  | Float (ParticleX | ParticleY) j => Z.of_nat j < n_particles
  | Counter j => Z.of_nat j < n_particles * (grid_size * grid_size)
  end.

(** Two accesses conflict when they are to the same place and at least
    one of them is a write. *)
Definition conflict (a b : access) : Prop :=
  target a = target b /\ (is_write a = true \/ is_write b = true).


(** ** Printing the grid *)

(** What [std::endl] writes: a new line. *)
Definition endl : list ascii := ["010"%char].

Definition digit (d : Z) : ascii := ascii_of_nat (48 + Z.to_nat d).

(** The decimal digits of [n], for [n] not negative, in front of [acc];
    [fuel] bounds their number. *)
Fixpoint digits (fuel : nat) (n : Z) (acc : list ascii) : list ascii :=
  match fuel with
  | O => acc
  | S fuel' =>
      let acc' := digit (n mod 10) :: acc in
      if n <? 10 then acc' else digits fuel' (n / 10) acc'
  end.

(** [std::cout << v] for an [int]: a minus sign when [v] is negative, then
    the decimal digits, of which an [int] has at most ten. *)
Definition show_int (v : Z) : list ascii :=
  if v <? 0 then "-"%char :: digits 10 (- v) [] else digits 10 v [].

(** [std::setw(w)] in front of a value: spaces on the left up to the
    width [w], none when the value is wider. *)
Definition setw (w : nat) (s : list ascii) : list ascii :=
  replicate (w - length s) " "%char ++ s.

(** The inner loop of [print_matrix] and the [std::endl] after it. *)
Definition print_row (row : list Z) (size_Y : Z) : list ascii :=
  foldr (fun j rest => setw 3 (show_int (row !!! Z.to_nat j)) ++ " "%char :: rest)
        endl (seqZ 0 size_Y).

(** [print_matrix<int>(matrix, size_X, size_Y)]: what it writes to
    [std::cout]. *)
Definition print_matrix (matrix : list (list Z)) (size_X size_Y : Z)
  : list ascii :=
  endl ++ foldr (fun i rest => print_row (matrix !!! Z.to_nat i) size_Y ++ rest)
                [] (seqZ 0 size_X).

(** What [main] has [print_matrix] write for the final grid; the extent
    21 of the grid is below the 64 from which on [main] does not print
    it. *)
Definition main_grid_output (rand_after_srand : Z -> nat -> Z) (arg : Z)
  : list ascii :=
  if 21 <=? 64
  then print_matrix (h_grid (main rand_after_srand arg)) 21 21
  else [].

(** * Facts about the floating-point operations *)

Lemma digits2_pos_iter_xO (p : positive) (k : positive) :
  digits2_pos (Pos.iter xO p k) = (digits2_pos p + k)%positive.
Proof.
  revert p. induction k using Pos.peano_ind; intros p.
  - simpl. lia.
  - rewrite Pos.iter_succ. simpl. rewrite IHk. lia.
Qed.

Lemma Zpos_iter_xO (p k : positive) :
  Zpos (Pos.iter xO p k) = Zpos p * 2 ^ Zpos k.
Proof.
  induction k using Pos.peano_ind.
  - simpl. lia.
  - rewrite Pos.iter_succ, Pos2Z.inj_xO, IHk, Pos2Z.inj_succ, Z.pow_succ_r by lia. lia.
Qed.

Lemma digits2_pos_bound (p : positive) (n : Z) :
  0 <= n -> Zpos p < 2 ^ n -> Zpos (digits2_pos p) <= n.
Proof.
  revert n. induction p; intros n Hn H; simpl.
  - destruct (Z.eq_dec n 0) as [->|]; [simpl in H; lia|].
    rewrite Pos2Z.inj_succ. specialize (IHp (n - 1)).
    replace n with (Z.succ (n - 1)) in H by lia. rewrite Z.pow_succ_r in H by lia.
    lia.
  - destruct (Z.eq_dec n 0) as [->|]; [simpl in H; lia|].
    rewrite Pos2Z.inj_succ. specialize (IHp (n - 1)).
    replace n with (Z.succ (n - 1)) in H by lia. rewrite Z.pow_succ_r in H by lia.
    lia.
  - destruct (Z.eq_dec n 0) as [->|]; [simpl in H; lia|]. lia.
Qed.

Lemma of_Z_pos_exact (p : positive) :
  Zpos p < 2 ^ 24 ->
  exists m e, F32.of_Z (Zpos p) = S754_finite false m e /\ e <= 0 /\ Zpos m = Zpos p * 2 ^ (- e).
Proof.
  intros Hp.
  pose proof (digits2_pos_bound p 24 ltac:(lia) Hp) as Hd.
  unfold F32.of_Z, binary_normalize, binary_round.
  unfold shl_align, fexp, emin, F32.prec, F32.emax.
  remember (digits2_pos p) as d eqn:Ed.
  destruct (Z.eq_dec (Zpos d) 24) as [E24|N24].
  - replace (Z.max (Z.pos d + 0 - 24) (3 - 128 - 24) - 0) with 0 by lia.
    unfold binary_round_aux, shr_fexp. simpl Zdigits2. rewrite <- Ed.
    unfold fexp, emin.
    replace (Z.max (Z.pos d + 0 - 24) (3 - 128 - 24) - 0) with 0 by lia.
    simpl. rewrite <- Ed.
    replace (Z.max (Z.pos d + 0 - 24) (3 - 128 - 24) - 0) with 0 by lia.
    simpl. exists p, 0. split; [reflexivity|]. simpl. lia.
  - assert (Hneg : exists k, Z.max (Z.pos d + 0 - 24) (3 - 128 - 24) - 0 = Zneg k /\ Zpos k = 24 - Zpos d).
    { destruct (Z.max (Z.pos d + 0 - 24) (3 - 128 - 24) - 0) eqn:E; try lia.
      exists p0. split; [reflexivity| lia]. }
    destruct Hneg as (k & Ek & Hk).
    rewrite Ek.
    replace (Z.max (Z.pos d + 0 - 24) (3 - 128 - 24)) with (Zneg k) by lia.
    unfold binary_round_aux, shr_fexp. simpl Zdigits2.
    rewrite digits2_pos_iter_xO, <- Ed.
    unfold fexp, emin.
    replace (Z.max (Z.pos (d + k) + Z.neg k - 24) (3 - 128 - 24) - Z.neg k) with 0 by lia.
    simpl shr. cbv iota beta. simpl round_nearest_even. simpl Zdigits2.
    rewrite digits2_pos_iter_xO, <- Ed.
    replace (Z.max (Z.pos (d + k) + Z.neg k - 24) (3 - 128 - 24) - Z.neg k) with 0 by lia.
    simpl. 
    destruct (Z.neg k <=? 104) eqn:El; [|apply Z.leb_gt in El; lia].
    eexists _, _. split; [reflexivity|]. split; [lia|].
    rewrite Zpos_iter_xO. simpl. reflexivity.
Qed.

Lemma Zpos_pow2 (k : positive) : Zpos (2 ^ k) = 2 ^ Zpos k.
Proof. apply Pos2Z.inj_pow. Qed.

Lemma to_Q_of_Z (z : Z) :
  0 <= z < 2 ^ 24 ->
  is_finite (F32.of_Z z) = true /\ (F32.to_Q (F32.of_Z z) == inject_Z z)%Q.
Proof.
  intros Hz. destruct z as [|p|p]; [split; reflexivity| |lia].
  destruct (of_Z_pos_exact p) as (m & e & -> & He & Hm); [lia|].
  split; [reflexivity|].
  destruct e as [|e|k]; [| lia |].
  - simpl in *. unfold Qeq. simpl. lia.
  - change (- Z.neg k) with (Z.pos k) in Hm. unfold Qeq. simpl. rewrite Zpos_pow2. lia.
Qed.

Lemma to_Q_sign (s : bool) (m : positive) (e : Z) :
  if s then (F32.to_Q (S754_finite s m e) < 0)%Q
  else (0 < F32.to_Q (S754_finite s m e))%Q.
Proof.
  destruct s, e as [|e|k]; unfold Qlt; simpl; try lia.
Qed.

Lemma geb_zero_iff (x : float) :
  F32.geb x (F32.of_Z 0) = true <->
  match x with
  | S754_zero _ | S754_finite false _ _ | S754_infinity false => True
  | _ => False
  end.
Proof.
  unfold F32.geb, F32.leb. change (F32.of_Z 0) with (S754_zero false).
  destruct x as [s|[]| |[] m e]; simpl; try tauto; try (split; [discriminate|tauto]).
  - pose proof (to_Q_sign true m e) as H. simpl in H.
    rewrite (proj1 (Qgt_alt _ _) H). split; [discriminate|tauto].
  - pose proof (to_Q_sign false m e) as H. simpl in H.
    rewrite (proj1 (Qlt_alt _ _) H). tauto.
Qed.

Lemma in_range_guard (G : Z) (x : float) :
  0 < G < 2 ^ 24 ->
  F32.ltb x (F32.of_Z G) && F32.geb x (F32.of_Z 0) = true <-> in_range G x.
Proof.
  intros HG. destruct (to_Q_of_Z G) as [Hf Hq]; [lia|].
  rewrite andb_true_iff, geb_zero_iff. unfold in_range, F32.ltb.
  destruct (F32.of_Z G) as [sg|sg| |sg mg eg] eqn:EG; try discriminate.
  - (* the bound is a zero: impossible *)
    exfalso. simpl in Hq. unfold Qeq in Hq. simpl in Hq. lia.
  - destruct x as [s|[]| |[] m e]; simpl is_finite; cbn [F32.compare].
    + change (F32.to_Q (S754_zero s)) with 0%Q.
      split.
      * intros [H _]. repeat split; [apply Qle_refl|].
        unfold Qlt. simpl. lia.
      * intros _. split; [|exact I].
        assert (H : (0 < F32.to_Q (S754_finite sg mg eg))%Q).
        { rewrite Hq. unfold Qlt. simpl. lia. }
        rewrite (proj1 (Qlt_alt _ _) H). reflexivity.
    + split; [intros [H1 H2]; first [discriminate | contradiction] | intros [H _]; discriminate].
    + split; [intros [H1 H2]; first [discriminate | contradiction] | intros [H _]; discriminate].
    + split; [intros [H1 H2]; first [discriminate | contradiction] | intros [H _]; discriminate].
    + pose proof (to_Q_sign true m e) as Hs. simpl in Hs.
      split; [tauto|]. intros (_ & H0 & _). exfalso.
      eapply Qlt_irrefl, Qlt_le_trans; eauto.
    + pose proof (to_Q_sign false m e) as Hs. simpl in Hs.
      split.
      * intros [H _]. repeat split; [apply Qlt_le_weak, Hs|].
        rewrite <- Hq.
        destruct (Qcompare _ _) eqn:Ec in H; try discriminate.
        apply Qlt_alt. exact Ec.
      * intros (_ & _ & H). split; [|exact I].
        rewrite <- Hq in H. rewrite (proj1 (Qlt_alt _ _) H). reflexivity.
Qed.

Lemma in_grid_iff (G : Z) (x y : float) :
  0 < G < 2 ^ 24 ->
  in_grid G x y = true <-> in_range G x /\ in_range G y.
Proof.
  intros HG. rewrite <- !(in_range_guard G) by exact HG.
  unfold in_grid. rewrite !andb_true_iff. tauto.
Qed.

Lemma Zshiftr_pos_shiftl (m k : positive) :
  Z.shiftr (Zpos m) (Zpos k) = Zpos m / 2 ^ Zpos k.
Proof. apply Z.shiftr_div_pow2. lia. Qed.

Lemma Pos_shiftl_Zpos (q k : positive) :
  Zpos (Pos.shiftl q (Npos k)) = Zpos q * 2 ^ Zpos k.
Proof.
  change (Pos.shiftl q (Npos k)) with (Pos.iter xO q k). apply Zpos_iter_xO.
Qed.

(** The integer part of [trunc x] is the integer part of [x]. *)
Lemma int_part_trunc (x : float) : F32.int_part (F32.trunc x) = F32.int_part x.
Proof.
  destruct x as [s|s| |s m [|e|k]]; try reflexivity.
  unfold F32.trunc.
  destruct (Z.shiftr (Zpos m) (Zpos k)) as [|q|q] eqn:E.
  - simpl. change (Z.shiftl (Zpos m) (Zneg k)) with (Z.shiftr (Zpos m) (Zpos k)).
    rewrite E. destruct s; reflexivity.
  - cbn [F32.int_part]. f_equal.
    change (Z.shiftl ?a (Zneg k)) with (Z.shiftr a (Zpos k)).
    rewrite E, Z.shiftr_div_pow2, Pos_shiftl_Zpos by lia.
    rewrite Z.div_mul; [reflexivity|]. pose proof (Z.pow_pos_nonneg 2 (Zpos k)). lia.
  - exfalso. pose proof (Z.shiftr_nonneg (Zpos m) (Zpos k)). lia.
Qed.

Lemma int_part_Qtrunc (x : float) : F32.int_part x = Qtrunc (F32.to_Q x).
Proof.
  destruct x as [s|s| |s m [|e|k]]; try reflexivity.
  - unfold F32.int_part, F32.to_Q, Qtrunc. simpl Qnum. simpl Qden.
    rewrite Z.quot_1_r, Z.shiftl_0_r, Z.pow_0_r, Z.mul_1_r. reflexivity.
  - unfold F32.int_part, F32.to_Q, Qtrunc. simpl Qnum. simpl Qden.
    rewrite Z.quot_1_r, Z.shiftl_mul_pow2 by lia.
    destruct s; simpl cond_Zopp; lia.
  - unfold F32.int_part, F32.to_Q, Qtrunc. simpl Qnum. simpl Qden.
    change (Z.shiftl ?a (Zneg k)) with (Z.shiftr a (Zpos k)).
    rewrite Z.shiftr_div_pow2, Zpos_pow2 by lia.
    assert (0 < 2 ^ Zpos k) by (apply Z.pow_pos_nonneg; lia).
    destruct s; unfold cond_Zopp.
    + rewrite Z.quot_opp_l by lia. f_equal.
      symmetry. apply Z.quot_div_nonneg; lia.
    + symmetry. apply Z.quot_div_nonneg; lia.
Qed.

(** [trunc] is truncation toward zero of the value. *)
Lemma to_Q_trunc (x : float) :
  (F32.to_Q (F32.trunc x) == inject_Z (Qtrunc (F32.to_Q x)))%Q.
Proof.
  rewrite <- int_part_Qtrunc.
  destruct x as [s|s| |s m [|e|k]]; try reflexivity.
  - unfold F32.trunc, F32.to_Q, F32.int_part. rewrite Z.shiftl_0_r, Z.pow_0_r, Z.mul_1_r.
    reflexivity.
  - unfold F32.trunc, F32.to_Q, F32.int_part. rewrite Z.shiftl_mul_pow2 by lia.
    destruct s; simpl cond_Zopp; unfold Qeq; simpl; lia.
  - unfold F32.trunc, F32.int_part.
    change (Z.shiftl ?a (Zneg k)) with (Z.shiftr a (Zpos k)).
    destruct (Z.shiftr (Zpos m) (Zpos k)) as [|q|q] eqn:E.
    + destruct s; reflexivity.
    + unfold F32.to_Q, Qeq. simpl Qnum. simpl Qden.
      rewrite Zpos_pow2. destruct s; simpl cond_Zopp; rewrite ?Pos_shiftl_Zpos;
        try rewrite !Pos2Z.opp_pos; rewrite ?Pos_shiftl_Zpos; lia.
    + exfalso. pose proof (Z.shiftr_nonneg (Zpos m) (Zpos k)). lia.
Qed.

(** On a non-negative float [floor] is [trunc], and the conversion to [int]
    yields the floor of the value. *)
Lemma floor_index (G : Z) (x : float) :
  0 < G <= INT_MAX -> in_range G x ->
  F32.to_int (F32.floor x) = Qfloor (F32.to_Q x) /\
  0 <= Qfloor (F32.to_Q x) < G.
Proof.
  intros HG (Hf & H0 & HltG).
  assert (Hb : 0 <= Qfloor (F32.to_Q x) < G).
  { split.
    - change 0 with (Qfloor 0). apply Qfloor_resp_le, H0.
    - apply Qfloor_lt in HltG || idtac.
      destruct (Z_lt_le_dec (Qfloor (F32.to_Q x)) G) as [|Hge]; [assumption|].
      exfalso. apply (Qlt_irrefl (inject_Z G)).
      eapply Qle_lt_trans; [|exact HltG].
      eapply Qle_trans; [|apply Qfloor_le].
      rewrite <- Zle_Qle. exact Hge. }
  split; [|exact Hb].
  assert (Hs : F32.floor x = F32.trunc x).
  { destruct x as [s|s| |[] m e]; try reflexivity.
    pose proof (to_Q_sign true m e) as Hs. simpl in Hs.
    exfalso. eapply Qlt_irrefl, Qlt_le_trans; eauto. }
  rewrite Hs.
  assert (Hi : F32.int_part (F32.trunc x) = Qfloor (F32.to_Q x)).
  { rewrite int_part_trunc, int_part_Qtrunc. unfold Qtrunc, Qfloor.
    destruct (F32.to_Q x) as [n d] eqn:E. simpl.
    apply Z.quot_div_nonneg; [|lia].
    unfold Qle in H0. simpl in H0. lia. }
  unfold F32.to_int.
  destruct (F32.trunc x) as [s|s| |s m e] eqn:Et.
  - rewrite Hi. unfold clamp, INT_MIN, INT_MAX in *. lia.
  - destruct x as [?|?| |? ? [|?|?]]; simpl in Et; try discriminate.
    destruct (Z.shiftr _ _); discriminate.
  - destruct x as [?|?| |? ? [|?|?]]; simpl in Et; try discriminate.
    destruct (Z.shiftr _ _); discriminate.
  - rewrite Hi. unfold clamp, INT_MIN, INT_MAX in *. lia.
Qed.

Lemma iter_pos_invariant {A} (P : A -> Prop) (f : A -> A) :
  (forall a, P a -> P (f a)) -> forall n a, P a -> P (SpecFloat.iter_pos f n a).
Proof.
  intros Hf. induction n; intros a Ha; simpl; auto.
Qed.

Lemma shr_1_nonneg (mrs : shr_record) : 0 <= shr_m mrs -> 0 <= shr_m (shr_1 mrs).
Proof.
  destruct mrs as [m r s]. simpl. intros H.
  destruct m as [|[p|p|]|p]; simpl; lia.
Qed.

Lemma shr_fexp_nonneg (prec emax m e : Z) (l : location) :
  0 <= m -> 0 <= shr_m (fst (shr_fexp prec emax m e l)).
Proof.
  intros Hm. unfold shr_fexp, shr.
  assert (H0 : 0 <= shr_m (shr_record_of_loc m l)) by (destruct l as [|[]]; exact Hm).
  destruct (fexp prec emax (Zdigits2 m + e) - e); simpl; auto.
  apply iter_pos_invariant; auto using shr_1_nonneg.
Qed.

Lemma round_nearest_even_nonneg (m : Z) (l : location) :
  0 <= m -> 0 <= round_nearest_even m l.
Proof.
  intros Hm. destruct l as [|[]]; simpl; try lia. destruct (Z.even m); lia.
Qed.

Lemma binary_round_aux_nonneg (prec emax mx ex : Z) (lx : location) :
  0 <= mx -> is_nonneg (binary_round_aux prec emax false mx ex lx) = true.
Proof.
  intros Hm. unfold binary_round_aux.
  pose proof (shr_fexp_nonneg prec emax mx ex lx Hm) as H1.
  destruct (shr_fexp prec emax mx ex lx) as [mrs' e']. simpl in H1.
  pose proof (shr_fexp_nonneg prec emax _ e' loc_Exact
                (round_nearest_even_nonneg _ (loc_of_shr_record mrs') H1)) as H2.
  destruct (shr_fexp prec emax _ e' loc_Exact) as [mrs'' e'']. simpl in H2.
  destruct (shr_m mrs''); [reflexivity| |lia].
  destruct (e'' <=? emax - prec); reflexivity.
Qed.

Lemma mul_self_nonneg (r : float) :
  is_nonneg r = true -> is_nonneg (F32.mul r r) = true.
Proof.
  destruct r as [s|[]| |[] m e]; simpl; try discriminate; intros _.
  - destruct s; reflexivity.
  - reflexivity.
  - apply binary_round_aux_nonneg. lia.
Qed.

Lemma leb_zero_nonneg (s : bool) (x : float) :
  is_nonneg x = true -> F32.leb (S754_zero s) x = true.
Proof.
  unfold F32.leb. destruct x as [s'|[]| |[] m e]; simpl; try discriminate; intros _.
  - reflexivity.
  - reflexivity.
  - pose proof (to_Q_sign false m e) as H. simpl in H.
    change (F32.to_Q (S754_zero s)) with 0%Q.
    rewrite (proj1 (Qlt_alt _ _) H). reflexivity.
Qed.

(** A float without fraction is its own truncation. *)
Lemma trunc_integral (x : float) : F32.has_fraction x = false -> F32.trunc x = x.
Proof.
  destruct x as [s|s| |s m [|e|k]]; try reflexivity.
  unfold F32.has_fraction, F32.trunc. intros H.
  apply negb_false_iff, Z.eqb_eq in H.
  rewrite Z.land_ones in H by lia.
  assert (Hp : 0 < 2 ^ Zpos k) by (apply Z.pow_pos_nonneg; lia).
  pose proof (Z.div_mod (Zpos m) (2 ^ Zpos k) ltac:(lia)) as Hdm.
  rewrite H, Z.add_0_r in Hdm.
  rewrite Z.shiftr_div_pow2 by lia.
  destruct (Zpos m / 2 ^ Zpos k) as [|q|q] eqn:E; try lia.
  f_equal. apply Pos2Z.inj. rewrite Pos_shiftl_Zpos. lia.
Qed.

Lemma sub_self_zero (x : float) :
  is_finite x = true -> F32.sub x x = S754_zero false.
Proof.
  destruct x as [[]|s| |s m e]; try discriminate; try reflexivity. intros _.
  unfold F32.sub, SFsub. rewrite Z.sub_diag. reflexivity.
Qed.

(** Adding a zero to a finite non-zero float changes nothing. *)
Lemma add_zero_r (x : float) (s : bool) :
  F32.add x (S754_zero s) = x \/
  (exists sx s', x = S754_zero sx /\ F32.add x (S754_zero s) = S754_zero s').
Proof.
  destruct x as [sx|sx| |sx m e]; try (left; reflexivity).
  right. exists sx. destruct sx, s; simpl; eauto.
Qed.

Lemma add_zero_at_integer (a : Z) (x d : float) :
  at_integer a x -> is_zero d = true -> at_integer a (F32.add x d).
Proof.
  intros Hx Hd. destruct d as [s| | |]; try discriminate.
  destruct (add_zero_r x s) as [->|(sx & s' & -> & ->)]; [done|].
  destruct Hx as (_ & _ & Hq). by repeat split.
Qed.

Lemma at_integer_in_range (G a : Z) (x : float) :
  0 <= a < G -> at_integer a x ->
  in_range G x /\ Qfloor (F32.to_Q x) = a.
Proof.
  intros Ha (Hf & _ & Hq). split; [split; [done|split]|].
  - rewrite Hq. change 0%Q with (inject_Z 0). rewrite <- Zle_Qle. lia.
  - rewrite Hq. rewrite <- Zlt_Qlt. lia.
  - rewrite Hq. apply Qfloor_Z.
Qed.

Lemma at_integer_in_cell (ax ay : Z) (r x y : float) :
  at_integer ax x -> at_integer ay y -> is_nonneg r = true ->
  in_cell r x y = true.
Proof.
  intros (Fx & Ix & _) (Fy & Iy & _) Hr. unfold in_cell.
  rewrite !trunc_integral, !sub_self_zero by done.
  change (F32.add _ _) with (S754_zero false).
  by apply leb_zero_nonneg, mul_self_nonneg.
Qed.

(** * Facts about the machine integers *)

Lemma to_size_t_small z : 0 <= z <= SIZE_MAX -> to_size_t z = z.
Proof. unfold to_size_t, SIZE_MAX. intros. apply Z.mod_small. lia. Qed.

Lemma to_int_small z : INT_MIN <= z <= INT_MAX -> to_int z = z.
Proof.
  unfold to_int, INT_MIN, INT_MAX. intros.
  rewrite Z.mod_small by lia. lia.
Qed.

Lemma to_size_t_range z : 0 <= to_size_t z <= SIZE_MAX.
Proof.
  unfold to_size_t, SIZE_MAX. pose proof (Z.mod_pos_bound z (2 ^ 64)). lia.
Qed.

Lemma to_size_t_le z : 0 <= z -> 0 <= to_size_t z <= z.
Proof.
  intros Hz. unfold to_size_t. split.
  - apply Z.mod_pos_bound. lia.
  - apply Z.mod_le; lia.
Qed.

(** * Facts about sums *)

Lemma Zsum_ext (f g : nat -> Z) (n : nat) :
  (forall j, (j < n)%nat -> f j = g j) -> Zsum f n = Zsum g n.
Proof.
  induction n as [|n IH]; intros H; simpl; [done|].
  rewrite IH, H by (intros; try apply H; lia). done.
Qed.

Lemma Zsum_le (f g : nat -> Z) (n : nat) :
  (forall j, (j < n)%nat -> f j <= g j) -> Zsum f n <= Zsum g n.
Proof.
  induction n as [|n IH]; intros H; simpl; [done|].
  specialize (H n ltac:(lia)) as Hn. assert (Zsum f n <= Zsum g n); [|lia].
  apply IH. intros. apply H. lia.
Qed.

Lemma Zsum_zero (n : nat) : Zsum (fun _ => 0) n = 0.
Proof. induction n as [|n IH]; simpl; lia. Qed.

Lemma Zsum_const (c : Z) (n : nat) : Zsum (fun _ => c) n = Z.of_nat n * c.
Proof. induction n as [|n IH]; simpl; lia. Qed.

Lemma Zsum_nonneg (f : nat -> Z) (n : nat) :
  (forall j, (j < n)%nat -> 0 <= f j) -> 0 <= Zsum f n.
Proof.
  intros H. rewrite <- (Zsum_zero n). by apply Zsum_le.
Qed.

Lemma Zsum_term_le (f : nat -> Z) (n j0 : nat) :
  (forall j, (j < n)%nat -> 0 <= f j) -> (j0 < n)%nat -> f j0 <= Zsum f n.
Proof.
  induction n as [|n IH]; intros H Hj; simpl; [lia|].
  pose proof (H n ltac:(lia)).
  assert (0 <= Zsum f n) by (apply Zsum_nonneg; intros; apply H; lia).
  destruct (decide (j0 = n)) as [->|]; [lia|].
  assert (f j0 <= Zsum f n); [|lia]. apply IH; [|lia]. intros. apply H. lia.
Qed.

(** Two families that differ at [j0] only. *)
Lemma Zsum_bump (f g : nat -> Z) (n j0 : nat) :
  (forall j, (j < n)%nat -> j <> j0 -> g j = f j) -> (j0 < n)%nat ->
  Zsum g n = Zsum f n + (g j0 - f j0).
Proof.
  induction n as [|n IH]; intros H Hj; simpl; [lia|].
  destruct (decide (j0 = n)) as [->|Hne].
  - rewrite (Zsum_ext g f n) by (intros; apply H; lia). lia.
  - rewrite IH by (intros; try apply H; lia). rewrite (H n) by lia. lia.
Qed.

Lemma Zsum_add (f g : nat -> Z) (n : nat) :
  Zsum (fun j => f j + g j) n = Zsum f n + Zsum g n.
Proof. induction n as [|n IH]; simpl; lia. Qed.

Lemma Zsum_exchange (f : nat -> nat -> Z) (n m : nat) :
  Zsum (fun i => Zsum (fun j => f i j) m) n
  = Zsum (fun j => Zsum (fun i => f i j) n) m.
Proof.
  induction n as [|n IH]; simpl.
  - by rewrite Zsum_zero.
  - rewrite IH, <- Zsum_add. done.
Qed.

(** A sum over the cells of a [w] by [h] grid, row after row. *)
Lemma Zsum_rows (f : nat -> Z) (w h : nat) :
  Zsum (fun y => Zsum (fun x => f (y * w + x)%nat) w) h = Zsum f (h * w).
Proof.
  induction h as [|h IH]; simpl; [done|]. rewrite IH. clear IH.
  replace (w + h * w)%nat with (h * w + w)%nat by lia.
  generalize (h * w)%nat as b. intros b.
  induction w as [|w IH]; simpl.
  - rewrite Nat.add_0_r. lia.
  - replace (b + S w)%nat with (S (b + w)) by lia. simpl. lia.
Qed.

Lemma lookup_total_nonneg (l : list Z) (i : nat) :
  Forall (fun c => 0 <= c) l -> 0 <= l !!! i.
Proof.
  intros H. rewrite list_lookup_total_alt.
  destruct (l !! i) as [c|] eqn:E; simpl; [|done].
  by apply (Forall_lookup_1 _ _ _ _ H E).
Qed.


(** * Facts about the reduction *)

Lemma to_int_range z : is_int (to_int z).
Proof.
  unfold is_int, to_int, INT_MIN, INT_MAX.
  pose proof (Z.mod_pos_bound (z + 2 ^ 31) (2 ^ 32)). lia.
Qed.

Lemma to_int_congr a b : a mod 2 ^ 32 = b mod 2 ^ 32 -> to_int a = to_int b.
Proof.
  intros H. unfold to_int. f_equal.
  rewrite (Z.add_mod a), (Z.add_mod b), H by lia. done.
Qed.

Lemma to_size_t_mod32 z : to_size_t z mod 2 ^ 32 = z mod 2 ^ 32.
Proof.
  unfold to_size_t. change (2 ^ 64) with (2 ^ 32 * 2 ^ 32).
  rewrite Z.rem_mul_r by lia.
  rewrite Z.add_mod, Z.mul_comm, Z.mod_mul, Z.add_0_r, !Z.mod_mod by lia. done.
Qed.

Lemma to_int_mod32 z : to_int z mod 2 ^ 32 = z mod 2 ^ 32.
Proof.
  unfold to_int. rewrite Zminus_mod_idemp_l. f_equal. lia.
Qed.

(** [grid[y][x] += c] adds modulo 2^32. *)
Lemma cell_add old c : to_int (to_size_t (to_size_t old + c)) = to_int (old + c).
Proof.
  apply to_int_congr. rewrite to_size_t_mod32.
  rewrite (Z.add_mod (to_size_t old)), to_size_t_mod32, <- Z.add_mod by lia. done.
Qed.

Lemma to_int_add_l a b : to_int (to_int a + b) = to_int (a + b).
Proof.
  apply to_int_congr.
  rewrite (Z.add_mod (to_int a)), to_int_mod32, <- Z.add_mod by lia. done.
Qed.

Lemma Forall_total {A} `{Inhabited A} (P : A -> Prop) (l : list A) (i : nat) :
  Forall P l -> (i < length l)%nat -> P (l !!! i).
Proof.
  intros Hl Hi. eapply Forall_lookup_1; [exact Hl|].
  by apply list_lookup_lookup_total_lt.
Qed.

Lemma grid_add_cell (y x c : Z) (g : list (list Z)) (y' x' : nat) :
  (Z.to_nat y < length g)%nat ->
  (Z.to_nat x < length (g !!! Z.to_nat y))%nat ->
  cell (grid_add y x c g) y' x' =
  if decide (y' = Z.to_nat y /\ x' = Z.to_nat x)
  then to_int (cell g y' x' + c) else cell g y' x'.
Proof.
  intros Hy Hx. unfold cell, grid_add. rewrite cell_add.
  destruct (decide (y' = Z.to_nat y)) as [->|Hny].
  - rewrite list_lookup_total_insert_eq by done.
    destruct (decide (x' = Z.to_nat x)) as [->|Hnx].
    + rewrite list_lookup_total_insert_eq by done. by rewrite decide_True.
    + rewrite list_lookup_total_insert_ne by done. rewrite decide_False; [done|tauto].
  - rewrite list_lookup_total_insert_ne by done. rewrite decide_False; [done|tauto].
Qed.

Lemma grid_add_square G (y x c : Z) (g : list (list Z)) :
  square G g -> square G (grid_add y x c g).
Proof.
  intros [Hl Hr]. unfold grid_add.
  destruct (decide (Z.to_nat y < length g)%nat) as [Hlt|Hge].
  - unfold square. rewrite length_insert. split; [done|].
    apply Forall_insert; [done|]. rewrite length_insert.
    by apply (Forall_total (fun row => length row = Z.to_nat G)).
  - rewrite list_insert_ge by lia. done.
Qed.

Lemma grid_add_int (y x c : Z) (g : list (list Z)) :
  int_grid g -> int_grid (grid_add y x c g).
Proof.
  intros Hg. unfold grid_add.
  destruct (decide (Z.to_nat y < length g)%nat) as [Hlt|Hge].
  - apply Forall_insert; [done|]. apply Forall_insert; [|apply to_int_range].
    by apply (Forall_total (Forall is_int)).
  - rewrite list_insert_ge by lia. done.
Qed.

(** Adding 0 to a cell changes nothing. *)
Lemma grid_add_zero (y x : Z) (g : list (list Z)) :
  int_grid g -> grid_add y x 0 g = g.
Proof.
  intros Hg. unfold grid_add. apply list_insert_id'. intros Hy.
  rewrite (list_lookup_lookup_total_lt g _ Hy). f_equal. symmetry.
  apply list_insert_id'. intros Hx.
  rewrite (list_lookup_lookup_total_lt _ _ Hx). f_equal. symmetry.
  rewrite cell_add, Z.add_0_r. apply to_int_small.
  assert (Hrow : Forall is_int (g !!! Z.to_nat y)).
  { by apply (Forall_total (Forall is_int)). }
  by apply (Forall_total is_int).
Qed.

Lemma foldl_invariant {A B} (Inv : A -> Prop) (f g : A -> B -> A)
    (l : list B) (a : A) :
  Inv a -> (forall a b, Inv a -> f a b = g a b) ->
  (forall a b, Inv a -> Inv (g a b)) ->
  foldl f a l = foldl g a l /\ Inv (foldl g a l).
Proof.
  intros Ha Hfg Hg. revert a Ha.
  induction l as [|b l IH]; intros a Ha; simpl; [done|].
  rewrite Hfg by done. apply IH, Hg, Ha.
Qed.

Lemma foldl_preserves {A B} (Inv : A -> Prop) (g : A -> B -> A)
    (l : list B) (a : A) :
  Inv a -> (forall a b, Inv a -> Inv (g a b)) -> Inv (foldl g a l).
Proof.
  intros Ha Hg. by apply (foldl_invariant Inv g g l a Ha).
Qed.

Lemma foldl_agree {A B} (Inv : A -> Prop) (f g : A -> B -> A)
    (l : list B) (a : A) :
  Inv a -> (forall a b, Inv a -> f a b = g a b) ->
  (forall a b, Inv a -> Inv (g a b)) -> foldl f a l = foldl g a l.
Proof.
  intros Ha Hfg Hg. by apply (foldl_invariant Inv f g l a Ha).
Qed.

Lemma sumZ_permutation (l1 l2 : list Z) : l1 ≡ₚ l2 -> sumZ l1 = sumZ l2.
Proof.
  induction 1; simpl; unfold sumZ in *; simpl; lia.
Qed.

Lemma grid_ext (G : Z) (g1 g2 : list (list Z)) :
  square G g1 -> square G g2 ->
  (forall y x : nat, Z.of_nat y < G -> Z.of_nat x < G -> cell g1 y x = cell g2 y x) ->
  g1 = g2.
Proof.
  intros [L1 R1] [L2 R2] H.
  apply (list_eq_same_length _ _ (Z.to_nat G)); [done|done|].
  intros y r1 r2 Hy E1 E2.
  assert (length r1 = Z.to_nat G) by (eapply (Forall_lookup_1 _ _ _ _ R1), E1).
  assert (length r2 = Z.to_nat G) by (eapply (Forall_lookup_1 _ _ _ _ R2), E2).
  apply (list_eq_same_length _ _ (Z.to_nat G)); [done|done|].
  intros x c1 c2 Hx F1 F2.
  specialize (H y x ltac:(lia) ltac:(lia)). unfold cell in H.
  rewrite (list_lookup_total_correct _ _ _ E1) in H.
  rewrite (list_lookup_total_correct _ _ _ E2) in H.
  rewrite (list_lookup_total_correct _ _ _ F1) in H.
  rewrite (list_lookup_total_correct _ _ _ F2) in H. done.
Qed.

Section Reduce.

Variables (n_particles : Z) (grid_size : Z) (map : list Z).

Hypothesis grid_positive : 0 < grid_size.
Hypothesis grid_is_int : grid_size <= INT_MAX.
Hypothesis map_fits_size_t : n_particles * (grid_size * grid_size) <= SIZE_MAX.

#[local] Abbreviation tally' := (tally grid_size map).
#[local] Abbreviation cell_all := (reduce_cell_all grid_size map).
#[local] Abbreviation particle_all := (reduce_particle_all grid_size map).

Lemma grid_size_t : to_size_t grid_size = grid_size.
Proof using grid_positive grid_is_int.
  apply to_size_t_small. unfold INT_MAX, SIZE_MAX in *. lia.
Qed.

Lemma host_index_eq i y x :
  0 <= i < n_particles -> 0 <= y < grid_size -> 0 <= x < grid_size ->
  host_index grid_size i y x = i * (grid_size * grid_size) + y * grid_size + x.
Proof using grid_positive grid_is_int map_fits_size_t.
  intros Hi Hy Hx. unfold host_index. rewrite grid_size_t.
  assert (Hcell : 0 <= y * grid_size + x < grid_size * grid_size) by nia.
  assert (Hrow : 0 <= y * grid_size < grid_size * grid_size) by nia.
  assert (Hslice : (i + 1) * (grid_size * grid_size)
                   <= n_particles * (grid_size * grid_size)) by nia.
  assert (H0 : 0 <= i * (grid_size * grid_size)) by nia.
  assert (H1 : 0 <= i * grid_size <= i * (grid_size * grid_size)) by nia.
  rewrite (to_size_t_small (i * grid_size)) by lia.
  replace (i * grid_size * grid_size) with (i * (grid_size * grid_size)) by ring.
  rewrite (to_size_t_small (i * (grid_size * grid_size))) by lia.
  rewrite (to_size_t_small (y * grid_size)) by lia.
  rewrite (to_size_t_small (i * (grid_size * grid_size) + y * grid_size)) by lia.
  rewrite to_size_t_small by lia. lia.
Qed.

(** The loop over [x], from column [a] on, for [n] columns. *)
Lemma columns_cell (i y a : Z) (n : nat) (g : list (list Z)) (y' x' : nat) :
  square grid_size g -> 0 <= i < n_particles -> 0 <= y < grid_size ->
  0 <= a -> a + Z.of_nat n <= grid_size ->
  let g' := foldl (fun g x => cell_all i y x g) g (seqZ a (Z.of_nat n)) in
  square grid_size g' /\
  cell g' y' x' =
  if decide (y' = Z.to_nat y /\ a <= Z.of_nat x' < a + Z.of_nat n)
  then to_int (cell g y' x' + tally' y' x' i) else cell g y' x'.
Proof using All.
  intros Hg Hi Hy. revert a g Hg. cbv zeta.
  induction n as [|n IH]; intros a g Hg Ha Han.
  - simpl. split; [done|]. rewrite decide_False; [done|lia].
  - rewrite (seqZ_cons a) by lia. simpl foldl.
    replace (Z.pred (Z.of_nat (S n))) with (Z.of_nat n) by lia.
    set (g1 := cell_all i y a g).
    assert (Hg1 : square grid_size g1) by (by apply grid_add_square).
    destruct (IH (Z.succ a) g1 Hg1 ltac:(lia) ltac:(lia)) as [Hsq ->].
    split; [done|].
    destruct Hg as [Hl Hr].
    assert (Hrow : length (g !!! Z.to_nat y) = Z.to_nat grid_size)
      by (apply (Forall_total (fun row => length row = Z.to_nat grid_size)); [done|lia]).
    unfold g1, reduce_cell_all.
    rewrite grid_add_cell by lia.
    rewrite host_index_eq by lia.
    destruct (decide (y' = Z.to_nat y /\ x' = Z.to_nat a)) as [[-> ->]|Hne].
    + rewrite decide_False by lia. rewrite decide_True by lia.
      unfold tally. do 3 f_equal. lia.
    + destruct (decide (y' = Z.to_nat y /\ Z.succ a <= Z.of_nat x' < Z.succ a + Z.of_nat n))
        as [Hin|Hout].
      * rewrite decide_True by lia. done.
      * rewrite decide_False by lia. done.
Qed.

(** The loop over [y], from row [b] on, for [n] rows. *)
Lemma rows_cell (i b : Z) (n : nat) (g : list (list Z)) (y' x' : nat) :
  square grid_size g -> 0 <= i < n_particles ->
  0 <= b -> b + Z.of_nat n <= grid_size ->
  let g' := foldl (fun g y =>
                     foldl (fun g x => cell_all i y x g) g
                           (seqZ 0 (to_size_t grid_size)))
                  g (seqZ b (Z.of_nat n)) in
  square grid_size g' /\
  cell g' y' x' =
  if decide (b <= Z.of_nat y' < b + Z.of_nat n /\ Z.of_nat x' < grid_size)
  then to_int (cell g y' x' + tally' y' x' i) else cell g y' x'.
Proof using All.
  intros Hg Hi. revert b g Hg. cbv zeta. rewrite grid_size_t.
  induction n as [|n IH]; intros b g Hg Hb Hbn.
  - simpl. split; [done|]. rewrite decide_False; [done|lia].
  - rewrite (seqZ_cons b) by lia. simpl foldl.
    replace (Z.pred (Z.of_nat (S n))) with (Z.of_nat n) by lia.
    pose proof (columns_cell i b 0 (Z.to_nat grid_size) g y' x' Hg Hi
                  ltac:(lia) ltac:(lia) ltac:(lia)) as Hc.
    cbv zeta in Hc. rewrite Z2Nat.id in Hc by lia.
    set (g1 := foldl _ g (seqZ 0 grid_size)) in *.
    destruct Hc as [Hg1 Hc].
    destruct (IH (Z.succ b) g1 Hg1 ltac:(lia) ltac:(lia)) as [Hsq ->].
    split; [done|]. rewrite Hc.
    destruct (decide (y' = Z.to_nat b /\ 0 <= Z.of_nat x' < 0 + grid_size)) as [[-> Hx]|Hne].
    + rewrite decide_False by lia. rewrite decide_True by lia. done.
    + destruct (decide (Z.succ b <= Z.of_nat y' < Z.succ b + Z.of_nat n
                        /\ Z.of_nat x' < grid_size)) as [Hin|Hout].
      * rewrite decide_True by lia. done.
      * rewrite decide_False by lia. done.
Qed.

Lemma particle_all_cell (i : Z) (g : list (list Z)) (y' x' : nat) :
  square grid_size g -> 0 <= i < n_particles ->
  Z.of_nat y' < grid_size -> Z.of_nat x' < grid_size ->
  square grid_size (particle_all i g) /\
  cell (particle_all i g) y' x' = to_int (cell g y' x' + tally' y' x' i).
Proof using All.
  intros Hg Hi Hy Hx. unfold reduce_particle_all.
  pose proof (rows_cell i 0 (Z.to_nat grid_size) g y' x' Hg Hi
                ltac:(lia) ltac:(lia)) as Hc.
  cbv zeta in Hc. rewrite Z2Nat.id in Hc by lia. rewrite grid_size_t in *.
  destruct Hc as [Hsq ->]. split; [done|]. rewrite decide_True by lia. done.
Qed.

Lemma particle_all_square (i : Z) (g : list (list Z)) :
  square grid_size g -> 0 <= i < n_particles ->
  square grid_size (particle_all i g).
Proof using All.
  intros Hg Hi.
  apply (particle_all_cell i g O O Hg Hi); lia.
Qed.

Lemma particle_all_int (i : Z) (g : list (list Z)) :
  int_grid g -> int_grid (particle_all i g).
Proof.
  intros Hg. unfold reduce_particle_all.
  apply (foldl_preserves int_grid); [done|]. intros g1 y Hg1.
  apply (foldl_preserves int_grid); [done|]. intros g2 x Hg2.
  by apply grid_add_int.
Qed.

(** With counters that are not negative, the [> 0] test makes no
    difference. *)
Lemma particle_guard (i : Z) (g : list (list Z)) :
  Forall (fun c => 0 <= c) map -> int_grid g ->
  reduce_particle grid_size map i g = particle_all i g.
Proof.
  intros Hmap Hg. unfold reduce_particle, reduce_particle_all.
  apply (foldl_agree int_grid); [done| |].
  - intros g1 y Hg1.
    apply (foldl_agree int_grid); [done| |].
    + intros g2 x Hg2. unfold reduce_cell, reduce_cell_all.
      pose proof (lookup_total_nonneg map (Z.to_nat (host_index grid_size i y x)) Hmap).
      destruct (Z.ltb_spec 0 (map !!! Z.to_nat (host_index grid_size i y x)));
        [done|].
      replace (map !!! Z.to_nat (host_index grid_size i y x)) with 0 by lia.
      symmetry. by apply grid_add_zero.
    + intros g2 x Hg2. by apply grid_add_int.
  - intros g1 y Hg1.
    apply (foldl_preserves int_grid); [done|].
    intros g2 x Hg2. by apply grid_add_int.
Qed.

(** The outer loop over a list of particles. *)
Lemma particles_cell (order : list Z) (g : list (list Z)) (y' x' : nat) :
  square grid_size g -> int_grid g ->
  Forall (fun i => 0 <= i < n_particles) order ->
  Z.of_nat y' < grid_size -> Z.of_nat x' < grid_size ->
  let g' := foldl (fun g i => particle_all i g) g order in
  square grid_size g' /\ int_grid g' /\
  cell g' y' x' = to_int (cell g y' x' + sumZ (tally' y' x' <$> order)).
Proof using All.
  intros Hg Hint Ho Hy Hx. revert g Hg Hint. cbv zeta.
  induction Ho as [|i order Hi Ho IH]; intros g Hg Hint.
  - simpl. split; [done|]. split; [done|]. rewrite Z.add_0_r.
    symmetry. apply to_int_small.
    assert (Hrow : Forall is_int (g !!! y')).
    { destruct Hg. apply (Forall_total (Forall is_int)); [done|lia]. }
    apply (Forall_total is_int); [done|].
    destruct Hg as [Hl Hr].
    rewrite (Forall_total (fun row => length row = Z.to_nat grid_size) g y' Hr); lia.
  - simpl foldl.
    destruct (particle_all_cell i g y' x' Hg Hi Hy Hx) as [Hsq Hc].
    destruct (IH _ Hsq (particle_all_int i g Hint)) as (Hsq' & Hint' & ->).
    split; [done|]. split; [done|].
    rewrite Hc, to_int_add_l. f_equal. rewrite fmap_cons. unfold sumZ. simpl. lia.
Qed.

Lemma reduce_in_guard (order : list Z) (g : list (list Z)) :
  Forall (fun c => 0 <= c) map -> int_grid g ->
  reduce_in grid_size order map g = foldl (fun g i => particle_all i g) g order.
Proof.
  intros Hmap Hg. unfold reduce_in.
  apply (foldl_agree int_grid); [done| |].
  - intros g1 i Hg1. by apply particle_guard.
  - intros g1 i Hg1. by apply particle_all_int.
Qed.

End Reduce.

(** * Facts about the kernel *)

Lemma appends_ret {A} (a : A) : appends (mret a).
Proof. intros m t. unfold result, exec, accesses. simpl. by rewrite app_nil_r. Qed.

Lemma appends_load b i : appends (load b i).
Proof. intros m t. reflexivity. Qed.

Lemma appends_store b i v : appends (store b i v).
Proof. intros m t. reflexivity. Qed.

Lemma appends_load_map i : appends (load_map i).
Proof. intros m t. reflexivity. Qed.

Lemma appends_store_map i v : appends (store_map i v).
Proof. intros m t. reflexivity. Qed.

Lemma bind_run {A B} (c : kernel A) (k : A -> kernel B) m t :
  appends c -> (forall a, appends (k a)) ->
  (c ≫= k) (m, t) =
  (result (k (result c m)) (exec c m),
   (exec (k (result c m)) (exec c m),
    t ++ accesses c m ++ accesses (k (result c m)) (exec c m))).
Proof.
  intros Hc Hk. unfold mbind, kernel_bind. rewrite Hc, Hk.
  by rewrite app_assoc.
Qed.

Lemma appends_bind {A B} (c : kernel A) (k : A -> kernel B) :
  appends c -> (forall a, appends (k a)) -> appends (c ≫= k).
Proof.
  intros Hc Hk m t. unfold result, exec, accesses.
  rewrite !bind_run by assumption. simpl. done.
Qed.

Lemma exec_bind {A B} (c : kernel A) (k : A -> kernel B) m :
  appends c -> (forall a, appends (k a)) ->
  exec (c ≫= k) m = exec (k (result c m)) (exec c m).
Proof. intros Hc Hk. unfold exec at 1. by rewrite bind_run. Qed.

Lemma accesses_bind {A B} (c : kernel A) (k : A -> kernel B) m :
  appends c -> (forall a, appends (k a)) ->
  accesses (c ≫= k) m = accesses c m ++ accesses (k (result c m)) (exec c m).
Proof. intros Hc Hk. unfold accesses at 1. by rewrite bind_run. Qed.

Section Geometry.

Variable n_particles : Z.
Hypothesis particles_nonneg : 0 <= n_particles.
Hypothesis threads_fit : n_particles + 255 < 2 ^ 32.

Lemma n_threads_eq :
  Z.of_nat (n_threads n_particles) = (n_particles + 255) / 256 * 256.
Proof using particles_nonneg threads_fit.
  unfold n_threads, gridDim, blockDim, to_uint.
  rewrite (to_size_t_small (n_particles + 255)) by (unfold SIZE_MAX; lia).
  assert (0 <= (n_particles + 255) / 256 < 2 ^ 32).
  { split; [apply Z.div_pos; lia|]. apply Z.div_lt_upper_bound; lia. }
  rewrite Z.mod_small by lia. lia.
Qed.

Lemma n_threads_cover :
  n_particles <= Z.of_nat (n_threads n_particles) < n_particles + 256.
Proof using particles_nonneg threads_fit.
  rewrite n_threads_eq.
  pose proof (Z.div_mod (n_particles + 255) 256 ltac:(lia)).
  pose proof (Z.mod_pos_bound (n_particles + 255) 256 ltac:(lia)). lia.
Qed.

(** The threads of the launch have the indices 0, 1, 2, ... *)
Lemma thread_index_launch (k : nat) :
  (k < (n_threads n_particles))%nat ->
  thread_index blockDim (Z.of_nat k / blockDim) (Z.of_nat k mod blockDim)
  = Z.of_nat k.
Proof using particles_nonneg threads_fit.
  intros Hk. pose proof n_threads_cover as Hc.
  unfold thread_index, blockDim, to_uint.
  pose proof (Z.div_mod (Z.of_nat k) 256 ltac:(lia)) as Hdm.
  pose proof (Z.mod_pos_bound (Z.of_nat k) 256 ltac:(lia)) as Hm.
  assert (0 <= Z.of_nat k / 256) by (apply Z.div_pos; lia).
  rewrite (Z.mod_small (256 * _)) by lia.
  rewrite <- Hdm. rewrite Z.mod_small by lia.
  apply to_size_t_small. unfold SIZE_MAX. lia.
Qed.

End Geometry.

Section Thread.

Variables (n_particles : Z) (nIterations : Z) (grid_size : Z) (radius : float).
Variable transform : Z -> float.

#[local] Abbreviation iteration :=
  (Simulation_iteration n_particles grid_size radius transform).
#[local] Abbreviation loop :=
  (Simulation_loop n_particles grid_size radius transform).
#[local] Abbreviation table_index' := (table_index n_particles).
#[local] Abbreviation moved' := (moved n_particles transform).
#[local] Abbreviation hit' := (hit grid_size radius).
#[local] Abbreviation iteration_memory' :=
  (iteration_memory n_particles grid_size radius transform).
#[local] Abbreviation iteration_accesses' :=
  (iteration_accesses n_particles grid_size radius transform).

Lemma iteration_run ii iter m t :
  iteration ii iter (m, t) =
  (tt, (iteration_memory' ii iter m, t ++ iteration_accesses' ii iter m)).
Proof.
  unfold Simulation_iteration, iteration_memory, iteration_accesses, hit.
  unfold mbind, kernel_bind, load, store. cbn -[in_grid in_cell map_index table_index F32.add].
  fold (table_index' ii iter).
  set (m1 := moved' ii iter m).
  change (in_grid grid_size _ _) with
    (in_grid grid_size (d_particleX m1 !!! Z.to_nat ii) (d_particleY m1 !!! Z.to_nat ii)).
  change (in_cell radius _ _) with
    (in_cell radius (d_particleX m1 !!! Z.to_nat ii) (d_particleY m1 !!! Z.to_nat ii)).
  destruct (in_grid _ _ _); [destruct (in_cell _ _ _)|]; cbn -[map_index table_index F32.add];
    rewrite <- ?app_assoc; reflexivity.
Qed.


Hypothesis grid_positive : 0 < grid_size.
Hypothesis grid_fits_int : grid_size * grid_size <= INT_MAX.
Hypothesis map_fits_size_t : n_particles * (grid_size * grid_size) <= SIZE_MAX.

Lemma grid_small : grid_size < 2 ^ 24.
Proof using grid_positive grid_fits_int. unfold INT_MAX in *. nia. Qed.

Lemma map_index_eq ii iY iX :
  0 <= ii < n_particles -> 0 <= iY < grid_size -> 0 <= iX < grid_size ->
  map_index grid_size ii iY iX = ii * (grid_size * grid_size) + iY * grid_size + iX.
Proof using grid_positive grid_fits_int map_fits_size_t.
  intros Hii HY HX. unfold map_index.
  assert (Hcell : 0 <= iY * grid_size + iX < grid_size * grid_size) by nia.
  assert (Hrow : 0 <= iY * grid_size < grid_size * grid_size) by nia.
  assert (Hslice : (ii + 1) * (grid_size * grid_size)
                   <= n_particles * (grid_size * grid_size)) by nia.
  assert (H0 : 0 <= ii * (grid_size * grid_size)) by nia.
  assert (H1 : 0 <= ii * grid_size <= ii * (grid_size * grid_size)) by nia.
  assert (HG : grid_size <= grid_size * grid_size) by nia.
  assert (HI : INT_MAX <= SIZE_MAX) by (unfold INT_MAX, SIZE_MAX; lia).
  assert (HM : INT_MIN <= 0) by (unfold INT_MIN; lia).
  rewrite (to_size_t_small grid_size) by lia.
  rewrite (to_size_t_small (ii * grid_size)) by lia.
  replace (ii * grid_size * grid_size) with (ii * (grid_size * grid_size)) by ring.
  rewrite (to_size_t_small (ii * (grid_size * grid_size))) by lia.
  rewrite (to_int_small (iY * grid_size)) by lia.
  rewrite (to_size_t_small (iY * grid_size)) by lia.
  rewrite (to_size_t_small iX) by lia.
  rewrite (to_size_t_small (ii * (grid_size * grid_size) + iY * grid_size)) by lia.
  rewrite to_size_t_small by lia. lia.
Qed.

(** What a hit says: both coordinates are in the half-open range, and the
    counter is the one of the cell given by their floors. *)
Lemma hit_spec ii m idx :
  0 <= ii < n_particles ->
  hit' ii m = Some idx ->
  let x := d_particleX m !!! Z.to_nat ii in
  let y := d_particleY m !!! Z.to_nat ii in
  in_range grid_size x /\ in_range grid_size y /\
  in_cell radius x y = true /\
  0 <= Qfloor (F32.to_Q x) < grid_size /\
  0 <= Qfloor (F32.to_Q y) < grid_size /\
  idx = ii * (grid_size * grid_size)
        + Qfloor (F32.to_Q y) * grid_size + Qfloor (F32.to_Q x).
Proof using grid_positive grid_fits_int map_fits_size_t.
  intros Hii. unfold hit. cbv zeta.
  destruct (in_grid _ _ _) eqn:Eg; [|discriminate].
  destruct (in_cell _ _ _) eqn:Ec; [|discriminate].
  simpl. intros [= <-].
  pose proof grid_small as Hs.
  apply in_grid_iff in Eg as [Hx Hy]; [|lia].
  destruct (floor_index grid_size _ ltac:(nia) Hx) as [-> HX].
  destruct (floor_index grid_size _ ltac:(nia) Hy) as [-> HY].
  split; [exact Hx|]. split; [exact Hy|].
  split; [first [exact Ec | reflexivity]|].
  split; [exact HX|]. split; [exact HY|].
  apply map_index_eq; lia.
Qed.

(** ** One iteration *)

Lemma iteration_exec ii iter m :
  exec (iteration ii iter) m = iteration_memory' ii iter m.
Proof. unfold exec. by rewrite iteration_run. Qed.

Lemma iteration_trace ii iter m :
  accesses (iteration ii iter) m = iteration_accesses' ii iter m.
Proof. unfold accesses. by rewrite iteration_run. Qed.

Lemma iteration_appends ii iter : appends (iteration ii iter).
Proof.
  intros m t. unfold result, exec, accesses. rewrite !iteration_run. done.
Qed.

Lemma iteration_randomX ii iter m :
  d_randomX (iteration_memory' ii iter m) = d_randomX m /\
  d_randomY (iteration_memory' ii iter m) = d_randomY m.
Proof. unfold iteration_memory. destruct (hit _ _ _ _); done. Qed.

Lemma iteration_particles ii iter m :
  d_particleX (iteration_memory' ii iter m) = d_particleX (moved' ii iter m) /\
  d_particleY (iteration_memory' ii iter m) = d_particleY (moved' ii iter m).
Proof. unfold iteration_memory. destruct (hit _ _ _ _); done. Qed.

Lemma iteration_map ii iter m :
  d_map (iteration_memory' ii iter m) =
  match hit' ii (moved' ii iter m) with
  | Some idx =>
      <[Z.to_nat idx := to_size_t (d_map m !!! Z.to_nat idx + 1)]> (d_map m)
  | None => d_map m
  end.
Proof. unfold iteration_memory. destruct (hit _ _ _ _); done. Qed.

Lemma hit_in_slice ii m idx :
  0 <= ii < n_particles -> hit' ii m = Some idx ->
  0 <= idx /\ in_slice grid_size ii (Z.to_nat idx).
Proof using grid_positive grid_fits_int map_fits_size_t.
  intros Hii H. destruct (hit_spec ii m idx Hii H) as (_ & _ & _ & HX & HY & ->).
  unfold in_slice. split; [nia|]. rewrite Z2Nat.id by nia. nia.
Qed.

Lemma frame_refl ii m : frame grid_size ii m m.
Proof. unfold frame. naive_solver. Qed.

Lemma frame_trans ii m1 m2 m3 :
  frame grid_size ii m1 m2 -> frame grid_size ii m2 m3 -> frame grid_size ii m1 m3.
Proof.
  intros (A1 & A2 & A3 & A4 & A5 & A6 & A7) (B1 & B2 & B3 & B4 & B5 & B6 & B7).
  unfold frame. repeat split; try congruence.
  - rewrite (proj1 (B6 q H)). apply A6, H.
  - rewrite (proj2 (B6 q H)). apply A6, H.
  - intros j Hj. rewrite B7 by done. by apply A7.
Qed.

(** An iteration of particle [ii] leaves the rest of the memory alone. *)
Lemma iteration_frame ii iter m :
  0 <= ii < n_particles -> frame grid_size ii m (iteration_memory' ii iter m).
Proof using grid_positive grid_fits_int map_fits_size_t.
  intros Hii. unfold frame.
  destruct (iteration_randomX ii iter m) as [-> ->].
  destruct (iteration_particles ii iter m) as [-> ->].
  rewrite iteration_map. simpl.
  rewrite !length_insert.
  split; [done|]. split; [done|]. split; [done|]. split; [done|].
  split; [|split].
  - destruct (hit _ _ _ _); by rewrite ?length_insert.
  - intros q Hq. by rewrite !list_lookup_insert_ne.
  - intros j Hj. destruct (hit _ _ _ _) as [idx|] eqn:E; [|done].
    apply hit_in_slice in E as [_ E]; [|done].
    rewrite list_lookup_insert_ne; [done|]. intros <-. done.
Qed.

Lemma iteration_footprint ii iter m :
  0 <= ii < n_particles ->
  Forall (footprint grid_size ii) (iteration_accesses' ii iter m).
Proof using grid_positive grid_fits_int map_fits_size_t.
  intros Hii. unfold iteration_accesses. apply Forall_app. split.
  - repeat (constructor; [done|]). constructor.
  - destruct (hit _ _ _ _) as [idx|] eqn:E; [|constructor].
    apply hit_in_slice in E as [_ E]; [|done].
    constructor; [exact E|]. constructor; [exact E|]. constructor.
Qed.

Lemma lookup_insert_agree {A} (l1 l2 : list A) (i j : nat) (v : A) :
  l1 !! j = l2 !! j -> <[i := v]> l1 !! j = <[i := v]> l2 !! j.
Proof.
  intros H. destruct (decide (i = j)) as [->|Hne].
  - destruct (decide (j < length l1)%nat) as [Hlt|Hge].
    + assert (j < length l2)%nat.
      { apply lookup_lt_is_Some. rewrite <- H. by apply lookup_lt_is_Some. }
      by rewrite !list_lookup_insert_eq.
    + assert (~ (j < length l2)%nat).
      { intros Hlt. apply Hge, lookup_lt_is_Some. rewrite H.
        by apply lookup_lt_is_Some. }
      rewrite !list_insert_ge by lia. done.
  - by rewrite !list_lookup_insert_ne.
Qed.

Lemma lookup_total_agree {A} `{Inhabited A} (l1 l2 : list A) (j : nat) :
  l1 !! j = l2 !! j -> l1 !!! j = l2 !!! j.
Proof. intros E. by rewrite !list_lookup_total_alt, E. Qed.

Lemma hit_agree ii m1 m2 :
  d_particleX m1 !! Z.to_nat ii = d_particleX m2 !! Z.to_nat ii ->
  d_particleY m1 !! Z.to_nat ii = d_particleY m2 !! Z.to_nat ii ->
  hit' ii m1 = hit' ii m2.
Proof.
  intros HX HY. unfold hit.
  by rewrite (lookup_total_agree _ _ _ HX), (lookup_total_agree _ _ _ HY).
Qed.

(** What an iteration does to particle [ii] depends on the two tables and
    on the position and the counters of particle [ii] only. *)
Lemma iteration_agree ii iter m1 m2 :
  0 <= ii < n_particles ->
  d_randomX m1 = d_randomX m2 -> d_randomY m1 = d_randomY m2 ->
  agree grid_size ii m1 m2 ->
  agree grid_size ii (iteration_memory' ii iter m1) (iteration_memory' ii iter m2).
Proof using grid_positive grid_fits_int map_fits_size_t.
  intros Hii RX RY (AX & AY & AM).
  assert (MX : d_particleX (moved' ii iter m1) !! Z.to_nat ii
               = d_particleX (moved' ii iter m2) !! Z.to_nat ii).
  { simpl. rewrite RX, (lookup_total_agree _ _ _ AX).
    by apply lookup_insert_agree. }
  assert (MY : d_particleY (moved' ii iter m1) !! Z.to_nat ii
               = d_particleY (moved' ii iter m2) !! Z.to_nat ii).
  { simpl. rewrite RY, (lookup_total_agree _ _ _ AY).
    by apply lookup_insert_agree. }
  unfold agree.
  destruct (iteration_particles ii iter m1) as [-> ->].
  destruct (iteration_particles ii iter m2) as [-> ->].
  rewrite !iteration_map, <- (hit_agree ii _ _ MX MY).
  split; [done|]. split; [done|].
  intros j Hj. destruct (hit _ _ _ _) as [idx|] eqn:E; [|by apply AM].
  apply hit_in_slice in E as [_ E]; [|done].
  rewrite (lookup_total_agree _ _ _ (AM _ E)).
  apply lookup_insert_agree, AM, Hj.
Qed.

(** ** The loop of a thread *)

Lemma loop_appends n ii iter : appends (loop n ii iter).
Proof.
  revert iter. induction n as [|n IH]; intros iter; simpl.
  - apply appends_ret.
  - apply appends_bind; [apply iteration_appends | intros _; apply IH].
Qed.

Lemma exec_ret {A} (a : A) m : exec (mret a) m = m.
Proof. reflexivity. Qed.

Lemma loop_exec_S n ii iter m :
  exec (loop (S n) ii iter) m
  = exec (loop n ii (iter + 1)) (iteration_memory' ii iter m).
Proof.
  simpl. rewrite exec_bind, iteration_exec;
    [done | apply iteration_appends | intros _; apply loop_appends].
Qed.

Lemma loop_trace_S n ii iter m :
  accesses (loop (S n) ii iter) m
  = iteration_accesses' ii iter m
    ++ accesses (loop n ii (iter + 1)) (iteration_memory' ii iter m).
Proof.
  simpl. rewrite accesses_bind, iteration_exec, iteration_trace;
    [done | apply iteration_appends | intros _; apply loop_appends].
Qed.

Lemma loop_exec_snoc n ii iter m :
  exec (loop (S n) ii iter) m
  = iteration_memory' ii (iter + Z.of_nat n) (exec (loop n ii iter) m).
Proof.
  revert iter m. induction n as [|n IH]; intros iter m.
  - rewrite loop_exec_S. simpl loop. rewrite !exec_ret. f_equal. lia.
  - rewrite loop_exec_S, IH, <- loop_exec_S. f_equal. lia.
Qed.

Lemma loop_frame n ii iter m :
  0 <= ii < n_particles -> frame grid_size ii m (exec (loop n ii iter) m).
Proof using grid_positive grid_fits_int map_fits_size_t.
  intros Hii. revert iter m. induction n as [|n IH]; intros iter m.
  - apply frame_refl.
  - rewrite loop_exec_S. eapply frame_trans; [|apply IH].
    by apply iteration_frame.
Qed.

Lemma loop_footprint n ii iter m :
  0 <= ii < n_particles ->
  Forall (footprint grid_size ii) (accesses (loop n ii iter) m).
Proof using grid_positive grid_fits_int map_fits_size_t.
  intros Hii. revert iter m. induction n as [|n IH]; intros iter m.
  - constructor.
  - rewrite loop_trace_S. apply Forall_app. split; [|apply IH].
    by apply iteration_footprint.
Qed.

(** ** The launch *)

Hypothesis particles_nonneg : 0 <= n_particles.
Hypothesis threads_fit : n_particles + 255 < 2 ^ 32.
Hypothesis iterations_nonneg : 0 <= nIterations.

#[local] Abbreviation n_threads' := (n_threads n_particles).
#[local] Abbreviation thread' :=
  (thread n_particles nIterations grid_size radius transform).
#[local] Abbreviation launch :=
  (Simulation_launch n_particles nIterations grid_size radius transform).
#[local] Abbreviation solo' := (solo n_particles grid_size radius transform).
#[local] Abbreviation completed' :=
  (completed n_particles nIterations grid_size radius transform).
#[local] Abbreviation thread_step' :=
  (thread_step n_particles nIterations grid_size radius transform).
#[local] Abbreviation run_schedule' :=
  (run_schedule n_particles nIterations grid_size radius transform).
#[local] Abbreviation finished' := (finished n_particles nIterations).

Lemma slices_disjoint (p q : Z) (j : nat) :
  p <> q -> in_slice grid_size p j -> ~ in_slice grid_size q j.
Proof using grid_positive. unfold in_slice. intros Hne Hp Hq. nia. Qed.

Lemma slice_below (p : Z) (j : nat) :
  0 <= p < n_particles -> in_slice grid_size p j ->
  Z.of_nat j < n_particles * (grid_size * grid_size).
Proof using grid_positive. unfold in_slice. intros Hp Hj. nia. Qed.

Lemma slice_of (j : nat) :
  Z.of_nat j < n_particles * (grid_size * grid_size) ->
  exists p : nat, Z.of_nat p < n_particles /\ in_slice grid_size (Z.of_nat p) j.
Proof using grid_positive.
  intros Hj. exists (Z.to_nat (Z.of_nat j / (grid_size * grid_size))).
  assert (0 < grid_size * grid_size) by nia.
  pose proof (Z.div_mod (Z.of_nat j) (grid_size * grid_size) ltac:(lia)).
  pose proof (Z.mod_pos_bound (Z.of_nat j) (grid_size * grid_size) ltac:(lia)).
  assert (0 <= Z.of_nat j / (grid_size * grid_size)) by (apply Z.div_pos; lia).
  rewrite Z2Nat.id by lia. unfold in_slice. split; [|lia].
  apply Z.div_lt_upper_bound; lia.
Qed.

Lemma agree_refl p m : agree grid_size p m m.
Proof. unfold agree. done. Qed.

Lemma agree_sym p m1 m2 : agree grid_size p m1 m2 -> agree grid_size p m2 m1.
Proof. unfold agree. intros (? & ? & H). repeat split; try done. intros j Hj. symmetry. by apply H. Qed.

Lemma agree_trans p m1 m2 m3 :
  agree grid_size p m1 m2 -> agree grid_size p m2 m3 -> agree grid_size p m1 m3.
Proof.
  unfold agree. intros (A1 & A2 & A3) (B1 & B2 & B3).
  repeat split; try congruence. intros j Hj. by rewrite A3, B3.
Qed.

(** What is framed out for particle [p] agrees for every other particle. *)
Lemma frame_agree p q m m' :
  0 <= p -> 0 <= q -> p <> q -> frame grid_size p m m' -> agree grid_size q m' m.
Proof using grid_positive.
  intros Hp Hq Hne (_ & _ & _ & _ & _ & F1 & F2).
  unfold agree. destruct (F1 (Z.to_nat q)) as [-> ->]; [lia|].
  repeat split; try done. intros j Hj. apply F2.
  by apply (slices_disjoint q p).
Qed.

(** Two memories that both complete [m0] are equal. *)
Lemma completed_unique m0 m1 m2 :
  completed' m0 m1 -> completed' m0 m2 -> m1 = m2.
Proof using grid_positive.
  intros (A1 & A2 & A3 & A4 & A5 & A6 & A7 & A8)
         (B1 & B2 & B3 & B4 & B5 & B6 & B7 & B8).
  destruct m1 as [x1 y1 rx1 ry1 c1], m2 as [x2 y2 rx2 ry2 c2]. simpl in *.
  assert (x1 = x2 /\ y1 = y2) as [-> ->].
  { split; apply list_eq; intros q.
    - destruct (Z_lt_le_dec (Z.of_nat q) n_particles) as [Hq|Hq].
      + destruct (A6 q Hq) as (E1 & _). destruct (B6 q Hq) as (E2 & _).
        simpl in *. rewrite Nat2Z.id in *. congruence.
      + destruct (A7 q Hq) as [-> _]. by destruct (B7 q Hq) as [-> _].
    - destruct (Z_lt_le_dec (Z.of_nat q) n_particles) as [Hq|Hq].
      + destruct (A6 q Hq) as (_ & E1 & _). destruct (B6 q Hq) as (_ & E2 & _).
        simpl in *. rewrite Nat2Z.id in *. congruence.
      + destruct (A7 q Hq) as [_ ->]. by destruct (B7 q Hq) as [_ ->]. }
  assert (c1 = c2) as ->.
  { apply list_eq. intros j.
    destruct (Z_lt_le_dec (Z.of_nat j) (n_particles * (grid_size * grid_size)))
      as [Hj|Hj].
    - destruct (slice_of j Hj) as (p & Hp & Hs).
      destruct (A6 p Hp) as (_ & _ & E1). destruct (B6 p Hp) as (_ & _ & E2).
      simpl in *. by rewrite E1, E2.
    - by rewrite A8, B8. }
  congruence.
Qed.

Lemma loop_randoms n ii iter m :
  d_randomX (exec (loop n ii iter) m) = d_randomX m /\
  d_randomY (exec (loop n ii iter) m) = d_randomY m.
Proof.
  revert iter m. induction n as [|n IH]; intros iter m; [done|].
  rewrite loop_exec_S. destruct (IH (iter + 1) (iteration_memory' ii iter m)) as [-> ->].
  apply iteration_randomX.
Qed.

Lemma loop_agree n ii iter m1 m2 :
  0 <= ii < n_particles ->
  d_randomX m1 = d_randomX m2 -> d_randomY m1 = d_randomY m2 ->
  agree grid_size ii m1 m2 ->
  agree grid_size ii (exec (loop n ii iter) m1) (exec (loop n ii iter) m2).
Proof using grid_positive grid_fits_int map_fits_size_t.
  intros Hii. revert iter m1 m2.
  induction n as [|n IH]; intros iter m1 m2 RX RY A; [done|].
  rewrite !loop_exec_S. apply IH.
  - destruct (iteration_randomX ii iter m1) as [-> _].
    by destruct (iteration_randomX ii iter m2) as [-> _].
  - destruct (iteration_randomX ii iter m1) as [_ ->].
    by destruct (iteration_randomX ii iter m2) as [_ ->].
  - by apply iteration_agree.
Qed.

Lemma thread_run (k : nat) :
  (k < n_threads')%nat ->
  thread' k =
  if n_particles <=? Z.of_nat k then mret tt
  else loop (Z.to_nat nIterations) (Z.of_nat k) 0.
Proof using particles_nonneg threads_fit.
  intros Hk. unfold thread, Simulation.
  by rewrite (thread_index_launch n_particles).
Qed.

Lemma thread_appends (k : nat) : appends (thread' k).
Proof.
  unfold thread, Simulation. destruct (_ <=? _);
    [apply appends_ret | apply loop_appends].
Qed.

Lemma thread_frame (k : nat) m :
  (k < n_threads')%nat -> frame grid_size (Z.of_nat k) m (exec (thread' k) m).
Proof using All.
  intros Hk. rewrite thread_run by done.
  destruct (Z.leb_spec n_particles (Z.of_nat k)); [apply frame_refl|].
  apply loop_frame. lia.
Qed.

Lemma threads_appends (l : list nat) :
  appends (foldr (fun k rest => thread' k;; rest) (mret tt) l).
Proof.
  induction l as [|k l IH]; simpl; [apply appends_ret|].
  apply appends_bind; [apply thread_appends | intros _; apply IH].
Qed.

Lemma threads_completed (l : list nat) (m0 : memory) :
  NoDup l -> Forall (fun k => (k < n_threads')%nat) l ->
  let m := exec (foldr (fun k rest => thread' k;; rest) (mret tt) l) m0 in
  d_randomX m = d_randomX m0 /\ d_randomY m = d_randomY m0 /\
  length (d_particleX m) = length (d_particleX m0) /\
  length (d_particleY m) = length (d_particleY m0) /\
  length (d_map m) = length (d_map m0) /\
  (forall k : nat, Z.of_nat k < n_particles ->
     agree grid_size (Z.of_nat k) m
       (if decide (k ∈ l) then solo' (Z.to_nat nIterations) k m0 else m0)) /\
  (forall q : nat, n_particles <= Z.of_nat q ->
     d_particleX m !! q = d_particleX m0 !! q /\
     d_particleY m !! q = d_particleY m0 !! q) /\
  (forall j : nat, n_particles * (grid_size * grid_size) <= Z.of_nat j ->
     d_map m !! j = d_map m0 !! j).
Proof using All.
  intros Hnd Hl. revert m0.
  induction l as [|k l IH]; intros m0.
  { simpl. repeat split; try done; intros; apply agree_refl. }
  apply NoDup_cons in Hnd as [Hk Hnd]. apply Forall_cons in Hl as [Hkt Hl].
  cbn zeta. simpl foldr.
  rewrite exec_bind by (first [apply thread_appends | intros _; apply threads_appends]).
  set (m1 := exec (thread' k) m0).
  pose proof (thread_frame k m0 Hkt) as F. fold m1 in F.
  pose proof (IH Hnd Hl m1) as IHm. cbv zeta in IHm.
  destruct IHm as (I1 & I2 & I3 & I4 & I5 & I6 & I7 & I8).
  destruct F as (F1 & F2 & F3 & F4 & F5 & F6 & F7).
  split; [congruence|]. split; [congruence|]. split; [congruence|].
  split; [congruence|]. split; [congruence|].
  assert (F : frame grid_size (Z.of_nat k) m0 m1) by (unfold frame; done).
  assert (Hm1 : Z.of_nat k < n_particles \/ m1 = m0).
  { unfold m1. rewrite thread_run by done.
    destruct (Z.leb_spec n_particles (Z.of_nat k)); [by right | by left]. }
  split; [|split].
  - intros k2 Hk2. specialize (I6 k2 Hk2).
    destruct (decide (k2 = k)) as [->|Hne].
    + rewrite decide_True by (apply elem_of_cons; by left).
      rewrite decide_False in I6 by done.
      eapply agree_trans; [exact I6|]. unfold m1. rewrite thread_run by done.
      destruct (Z.leb_spec n_particles (Z.of_nat k)); [lia|]. apply agree_refl.
    + assert (A : agree grid_size (Z.of_nat k2) m1 m0)
        by (apply (frame_agree (Z.of_nat k)); [lia|lia|lia|done]).
      destruct (decide (k2 ∈ l)) as [Hin|Hin].
      * rewrite decide_True by (apply elem_of_cons; by right).
        eapply agree_trans; [exact I6|]. apply loop_agree; [lia|done|done|done].
      * rewrite decide_False by (apply not_elem_of_cons; done).
        eapply agree_trans; [exact I6|done].
  - intros q Hq. destruct (I7 q Hq) as [-> ->].
    destruct Hm1 as [Hm1| ->]; [|done]. apply F6. lia.
  - intros j Hj. rewrite I8 by done.
    destruct Hm1 as [Hm1| ->]; [|done].
    apply F7. intros Hs. apply (slice_below (Z.of_nat k)) in Hs; lia.
Qed.

(** The launch of the source, thread after thread, completes the memory. *)
Lemma launch_completed (m0 : memory) : completed' m0 (exec launch m0).
Proof using All.
  pose proof n_threads_cover n_particles particles_nonneg threads_fit as Hc.
  pose proof (threads_completed (seq 0 n_threads') m0) as Ht. cbv zeta in Ht.
  destruct Ht as (I1 & I2 & I3 & I4 & I5 & I6 & I7 & I8).
  { apply NoDup_seq. }
  { apply Forall_forall. intros k Hk. apply elem_of_seq in Hk. lia. }
  refine (conj I1 (conj I2 (conj I3 (conj I4 (conj I5 (conj _ (conj I7 I8))))))).
  intros k Hk. specialize (I6 k Hk).
  rewrite decide_True in I6 by (apply elem_of_seq; lia). exact I6.
Qed.

(** ** The launch under a scheduler *)

#[local] Abbreviation scheduled' :=
  (scheduled n_particles nIterations grid_size radius transform).
#[local] Abbreviation initial' := (initial n_particles).

Lemma scheduled_initial (m0 : memory) : scheduled' m0 (initial' m0).
Proof using All.
  pose proof n_threads_cover n_particles particles_nonneg threads_fit as Hc.
  unfold scheduled, initial. simpl.
  rewrite length_replicate. do 6 (split; [done|]). split; [|done].
  intros k Hk. exists O. rewrite lookup_total_replicate_2 by lia.
  split; [done|]. split; [lia|]. apply agree_refl.
Qed.

Lemma scheduled_step (m0 : memory) (k : nat) (c : config) :
  (k < n_threads')%nat -> scheduled' m0 c -> scheduled' m0 (thread_step' k c).
Proof using All.
  intros Hk Hc. unfold thread_step.
  rewrite (thread_index_launch n_particles) by done.
  destruct (Z.leb_spec n_particles (Z.of_nat k)) as [|Hp]; [done|].
  destruct (Z.ltb_spec (c_iter c !!! k) nIterations) as [Hi|]; [|done].
  destruct c as [[m t] its]. destruct Hc as (S0 & S1 & S2 & S3 & S4 & S5 & S6 & S7 & S8).
  simpl in *. rewrite iteration_run. simpl.
  pose proof (iteration_frame (Z.of_nat k) (its !!! k) m ltac:(lia)) as F.
  set (m' := iteration_memory' (Z.of_nat k) (its !!! k) m) in *.
  destruct F as (F1 & F2 & F3 & F4 & F5 & F6 & F7).
  unfold scheduled. simpl. rewrite length_insert.
  split; [done|]. split; [congruence|]. split; [congruence|].
  split; [congruence|]. split; [congruence|]. split; [congruence|].
  assert (F : frame grid_size (Z.of_nat k) m m') by (unfold frame; done).
  split; [|split].
  - intros k2 Hk2. destruct (S6 k2 Hk2) as (n & En & Hn & A).
    destruct (decide (k2 = k)) as [->|Hne].
    + exists (S n). rewrite list_lookup_total_insert_eq by lia.
      split; [lia|]. split; [lia|].
      unfold solo. rewrite loop_exec_snoc. rewrite Z.add_0_l.
      unfold m'. rewrite En. apply iteration_agree; [lia| | |exact A].
      * rewrite S1. symmetry. apply loop_randoms.
      * rewrite S2. symmetry. apply loop_randoms.
    + exists n. rewrite list_lookup_total_insert_ne by done.
      split; [done|]. split; [done|].
      eapply agree_trans; [|exact A].
      apply (frame_agree (Z.of_nat k)); [lia|lia|lia|done].
  - intros q Hq. destruct (F6 q ltac:(lia)) as [-> ->]. by apply S7.
  - intros j Hj. rewrite F7; [by apply S8|].
    intros Hs. apply (slice_below (Z.of_nat k)) in Hs; lia.
Qed.

Lemma scheduled_run (m0 : memory) (s : list nat) (c : config) :
  schedule n_particles s -> scheduled' m0 c -> scheduled' m0 (run_schedule' s c).
Proof using All.
  intros Hs. revert c. induction Hs as [|k s Hk Hs IH]; intros c Hc; [done|].
  simpl. apply IH. by apply scheduled_step.
Qed.

(** Once every thread has returned, the memory is completed. *)
Lemma scheduled_finished (m0 : memory) (c : config) :
  scheduled' m0 c -> finished' c -> completed' m0 (fst (c_state c)).
Proof using All.
  pose proof n_threads_cover n_particles particles_nonneg threads_fit as Hc.
  intros (S0 & S1 & S2 & S3 & S4 & S5 & S6 & S7 & S8) Hf.
  refine (conj S1 (conj S2 (conj S3 (conj S4 (conj S5 (conj _ (conj S7 S8))))))).
  intros k Hk. destruct (S6 k Hk) as (n & En & Hn & A).
  assert (Hlt : (k < n_threads')%nat) by lia.
  specialize (Hf k Hlt). cbv zeta in Hf.
  rewrite (thread_index_launch n_particles) in Hf by done.
  specialize (Hf Hk). rewrite En in Hf.
  replace (Z.to_nat nIterations) with n by lia. exact A.
Qed.

(** ** Counting the increments *)

Lemma hit_counter ii m idx :
  0 <= ii < n_particles -> hit' ii m = Some idx ->
  exists j0 : nat,
    (j0 < Z.to_nat (grid_size * grid_size))%nat /\
    Z.to_nat idx = (Z.to_nat (ii * (grid_size * grid_size)) + j0)%nat.
Proof using grid_positive grid_fits_int map_fits_size_t.
  intros Hii H. destruct (hit_spec ii m idx Hii H) as (_ & _ & _ & HX & HY & ->).
  exists (Z.to_nat (Qfloor (F32.to_Q (d_particleY m !!! Z.to_nat ii)) * grid_size
                    + Qfloor (F32.to_Q (d_particleX m !!! Z.to_nat ii)))).
  split; nia.
Qed.

Lemma iteration_count ii iter m :
  0 <= ii < n_particles -> Forall (fun c => 0 <= c) (d_map m) ->
  Forall (fun c => 0 <= c) (d_map (iteration_memory' ii iter m)) /\
  slice_total grid_size (d_map (iteration_memory' ii iter m)) ii
  <= slice_total grid_size (d_map m) ii + 1.
Proof using grid_positive grid_fits_int map_fits_size_t.
  intros Hii Hpos. rewrite iteration_map.
  destruct (hit _ _ _ _) as [idx|] eqn:E; [|split; [done|lia]].
  destruct (hit_counter _ _ _ Hii E) as (j0 & Hj0 & ->).
  set (b := Z.to_nat (ii * (grid_size * grid_size))).
  pose proof (lookup_total_nonneg (d_map m) (b + j0) Hpos) as Hold.
  assert (Hnew : 0 <= to_size_t (d_map m !!! (b + j0)%nat + 1)
                 <= d_map m !!! (b + j0)%nat + 1).
  { apply to_size_t_le. lia. }
  split; [apply Forall_insert; [done|lia]|].
  destruct (decide (b + j0 < length (d_map m))%nat) as [Hlt|Hge].
  - unfold slice_total.
    rewrite (Zsum_bump (counter grid_size (d_map m) ii) _ _ j0); [|
      intros j Hj Hne; unfold counter; fold b;
      rewrite list_lookup_total_insert_ne by lia; done | done].
    unfold counter. fold b. rewrite list_lookup_total_insert_eq by done. lia.
  - rewrite list_insert_ge by lia. lia.
Qed.

Lemma loop_count n ii iter m :
  0 <= ii < n_particles -> Forall (fun c => 0 <= c) (d_map m) ->
  Forall (fun c => 0 <= c) (d_map (exec (loop n ii iter) m)) /\
  slice_total grid_size (d_map (exec (loop n ii iter) m)) ii
  <= slice_total grid_size (d_map m) ii + Z.of_nat n.
Proof using grid_positive grid_fits_int map_fits_size_t.
  intros Hii. revert iter m. induction n as [|n IH]; intros iter m Hpos.
  - change (exec (loop 0 ii iter) m) with m. split; [done|lia].
  - rewrite loop_exec_S.
    destruct (iteration_count ii iter m Hii Hpos) as [Hpos' Hs].
    destruct (IH (iter + 1) _ Hpos') as [Hpos'' Hs'].
    split; [done|]. lia.
Qed.

(** ** A particle that does not move *)

Lemma stationary_iteration ii iter m ax ay :
  0 <= ii < n_particles ->
  (Z.to_nat ii < length (d_particleX m))%nat ->
  (Z.to_nat ii < length (d_particleY m))%nat ->
  0 <= ax < grid_size -> 0 <= ay < grid_size ->
  at_integer ax (d_particleX m !!! Z.to_nat ii) ->
  at_integer ay (d_particleY m !!! Z.to_nat ii) ->
  is_zero (transform (F32.to_size_t (d_randomX m !!! table_index' ii iter))) = true ->
  is_zero (transform (F32.to_size_t (d_randomY m !!! table_index' ii iter))) = true ->
  is_nonneg radius = true ->
  let m' := iteration_memory' ii iter m in
  let cell := Z.to_nat (ii * (grid_size * grid_size) + ay * grid_size + ax) in
  at_integer ax (d_particleX m' !!! Z.to_nat ii) /\
  at_integer ay (d_particleY m' !!! Z.to_nat ii) /\
  d_map m' = <[cell := to_size_t (d_map m !!! cell + 1)]> (d_map m).
Proof using grid_positive grid_fits_int map_fits_size_t.
  intros Hii LX LY Hax Hay AX AY ZX ZY Hr. cbv zeta.
  pose proof grid_small as Hs.
  destruct (iteration_particles ii iter m) as [-> ->].
  rewrite iteration_map.
  set (m1 := moved' ii iter m).
  assert (AX1 : at_integer ax (d_particleX m1 !!! Z.to_nat ii)).
  { simpl. rewrite list_lookup_total_insert_eq by done.
    by apply add_zero_at_integer. }
  assert (AY1 : at_integer ay (d_particleY m1 !!! Z.to_nat ii)).
  { simpl. rewrite list_lookup_total_insert_eq by done.
    by apply add_zero_at_integer. }
  split; [done|]. split; [done|].
  destruct (at_integer_in_range grid_size ax _ Hax AX1) as [RX FX].
  destruct (at_integer_in_range grid_size ay _ Hay AY1) as [RY FY].
  destruct (hit' ii m1) as [idx|] eqn:E.
  - destruct (hit_spec ii m1 idx Hii E) as (_ & _ & _ & _ & _ & ->).
    by rewrite FX, FY.
  - exfalso. unfold hit in E. cbv zeta in E.
    rewrite (proj2 (in_grid_iff grid_size _ _ ltac:(lia)) (conj RX RY)) in E.
    by rewrite (at_integer_in_cell ax ay radius _ _ AX1 AY1 Hr) in E.
Qed.

Lemma stationary_loop (n : nat) ii m ax ay :
  0 <= ii < n_particles ->
  (Z.to_nat ii < length (d_particleX m))%nat ->
  (Z.to_nat ii < length (d_particleY m))%nat ->
  0 <= ax < grid_size -> 0 <= ay < grid_size ->
  at_integer ax (d_particleX m !!! Z.to_nat ii) ->
  at_integer ay (d_particleY m !!! Z.to_nat ii) ->
  (forall iter, 0 <= iter < Z.of_nat n ->
     is_zero (transform (F32.to_size_t (d_randomX m !!! table_index' ii iter))) = true /\
     is_zero (transform (F32.to_size_t (d_randomY m !!! table_index' ii iter))) = true) ->
  is_nonneg radius = true ->
  Z.of_nat n <= SIZE_MAX ->
  let cell := Z.to_nat (ii * (grid_size * grid_size) + ay * grid_size + ax) in
  d_map m !! cell = Some 0 ->
  let m' := exec (loop n ii 0) m in
  at_integer ax (d_particleX m' !!! Z.to_nat ii) /\
  at_integer ay (d_particleY m' !!! Z.to_nat ii) /\
  d_map m' = <[cell := Z.of_nat n]> (d_map m).
Proof using grid_positive grid_fits_int map_fits_size_t.
  intros Hii LX LY Hax Hay AX AY. cbv zeta.
  induction n as [|n IH]; intros HZ Hr Hn H0.
  - change (exec (loop 0 ii 0) m) with m. split; [done|]. split; [done|].
    symmetry. by apply list_insert_id.
  - destruct IH as (AXn & AYn & Mn); [intros; apply HZ; lia|done|lia|done|].
    rewrite loop_exec_snoc, Z.add_0_l.
    set (mn := exec (loop n ii 0) m) in *.
    pose proof (loop_frame n ii 0 m Hii) as (F1 & F2 & F3 & F4 & _). fold mn in F1, F2, F3, F4.
    destruct (stationary_iteration ii (Z.of_nat n) mn ax ay) as (AX' & AY' & M');
      try done; try lia.
    { rewrite F1. apply HZ. lia. }
    { rewrite F2. apply HZ. lia. }
    split; [done|]. split; [done|].
    rewrite M', Mn, list_lookup_total_insert_eq, list_insert_insert_eq
      by (by apply lookup_lt_is_Some).
    f_equal. rewrite to_size_t_small; lia.
Qed.

End Thread.

Section Fairness.

Variables (n_particles : Z) (nIterations : Z) (grid_size : Z) (radius : float).
Variable transform : Z -> float.

Hypothesis particles_nonneg : 0 <= n_particles.
Hypothesis threads_fit : n_particles + 255 < 2 ^ 32.
Hypothesis iterations_nonneg : 0 <= nIterations.

#[local] Abbreviation step :=
  (thread_step n_particles nIterations grid_size radius transform).
#[local] Abbreviation run :=
  (run_schedule n_particles nIterations grid_size radius transform).

Lemma step_iter (j k : nat) (c : config) :
  (j < n_threads n_particles)%nat ->
  length (c_iter c) = n_threads n_particles ->
  (k < n_threads n_particles)%nat -> Z.of_nat k < n_particles ->
  c_iter c !!! k <= nIterations ->
  length (c_iter (step j c)) = n_threads n_particles /\
  c_iter (step j c) !!! k
  = Z.min nIterations (c_iter c !!! k + if decide (j = k) then 1 else 0).
Proof using particles_nonneg threads_fit.
  intros Hj Hl Hk Hp Hle. unfold thread_step.
  rewrite (thread_index_launch n_particles) by done.
  destruct (Z.leb_spec n_particles (Z.of_nat j)).
  { split; [done|]. rewrite decide_False by lia. lia. }
  destruct (Z.ltb_spec (c_iter c !!! j) nIterations).
  - simpl. rewrite length_insert. split; [done|].
    destruct (decide (j = k)) as [->|Hne].
    + rewrite list_lookup_total_insert_eq by lia. lia.
    + rewrite list_lookup_total_insert_ne by done. lia.
  - split; [done|]. destruct (decide (j = k)) as [->|Hne]; lia.
Qed.

Lemma run_iter (s : list nat) (k : nat) (c : config) :
  schedule n_particles s ->
  length (c_iter c) = n_threads n_particles ->
  (k < n_threads n_particles)%nat -> Z.of_nat k < n_particles ->
  c_iter c !!! k <= nIterations ->
  c_iter (run s c) !!! k
  = Z.min nIterations (c_iter c !!! k + Z.of_nat (count_occ Nat.eq_dec s k)).
Proof using particles_nonneg threads_fit.
  intros Hs. revert c. induction Hs as [|j s Hj Hs IH]; intros c Hl Hk Hp Hle.
  - simpl. lia.
  - destruct (step_iter j k c Hj Hl Hk Hp Hle) as [Hl' E].
    simpl run_schedule. rewrite IH by (done || lia). rewrite E.
    simpl count_occ. destruct (Nat.eq_dec j k) as [->|Hne].
    + rewrite decide_True by done. lia.
    + rewrite decide_False by done. lia.
Qed.

(** Under a fair schedule every thread returns. *)
Lemma fair_finished (s : list nat) (m : memory) :
  schedule n_particles s -> fair n_particles nIterations s ->
  finished n_particles nIterations (run s (initial n_particles m)).
Proof using All.
  intros Hs Hf k Hk. cbv zeta.
  rewrite (thread_index_launch n_particles) by done. intros Hp.
  rewrite run_iter; try done.
  - simpl. rewrite lookup_total_replicate_2 by done. specialize (Hf k Hp). lia.
  - simpl. by rewrite length_replicate.
  - simpl. rewrite lookup_total_replicate_2 by done. lia.
Qed.

End Fairness.

(** * The claims *)

(** ** Zero iterations *)

Lemma foldl_id {A B} (f : A -> B -> A) (l : list B) (a : A) :
  (forall a b, b ∈ l -> f a b = a) -> foldl f a l = a.
Proof.
  intros H. induction l as [|b l IH]; simpl; [done|].
  rewrite H by apply list_elem_of_here. apply IH.
  intros a' b' Hb. apply H. by apply list_elem_of_further.
Qed.

Lemma reduce_zero_map (n_particles grid_size : Z) (grid : list (list Z)) :
  0 <= grid_size <= INT_MAX -> 0 <= n_particles ->
  n_particles * (grid_size * grid_size) <= SIZE_MAX ->
  reduce n_particles grid_size
    (replicate (Z.to_nat (n_particles * (grid_size * grid_size))) 0) grid
  = grid.
Proof.
  intros HG HP HM. unfold reduce, reduce_in.
  assert (Hs : to_size_t grid_size = grid_size).
  { apply to_size_t_small. unfold INT_MAX, SIZE_MAX in *. lia. }
  apply foldl_id. intros g i Hi. apply elem_of_seqZ in Hi.
  unfold reduce_particle. rewrite Hs.
  apply foldl_id. intros g1 y Hy. apply elem_of_seqZ in Hy.
  apply foldl_id. intros g2 x Hx. apply elem_of_seqZ in Hx.
  unfold reduce_cell.
  rewrite (host_index_eq n_particles grid_size) by lia.
  rewrite lookup_total_replicate_2; [done|]. nia.
Qed.

Lemma launch_zero (n_particles grid_size : Z) (radius : float)
    (transform : Z -> float) (s : memory * list access) :
  Simulation_launch n_particles 0 grid_size radius transform s = (tt, s).
Proof.
  unfold Simulation_launch. generalize (seq 0 (n_threads n_particles)).
  intros l. induction l as [|k l IH]; [reflexivity|].
  simpl. unfold mbind, kernel_bind at 1. unfold thread at 1, Simulation.
  simpl Z.to_nat. simpl Simulation_loop.
  destruct (_ <=? _); simpl; exact IH.
Qed.

Lemma initial_grid_cell (grid_size : Z) (y x : nat) :
  Z.of_nat y < grid_size -> Z.of_nat x < grid_size ->
  cell (initial_grid grid_size) y x = 0.
Proof.
  intros Hy Hx. unfold cell, initial_grid.
  rewrite !lookup_total_replicate_2 by lia. done.
Qed.

Lemma initial_map_eq (grid_size n_particles : Z) :
  0 <= grid_size -> 0 <= n_particles ->
  n_particles * (grid_size * grid_size) <= SIZE_MAX ->
  initial_map grid_size n_particles
  = replicate (Z.to_nat (n_particles * (grid_size * grid_size))) 0.
Proof.
  intros HG HP HM. unfold initial_map.
  destruct (Z.eq_dec grid_size 0) as [->|Hne].
  { rewrite !Z.mul_0_r. done. }
  assert (0 <= n_particles * grid_size <= n_particles * (grid_size * grid_size)) by nia.
  rewrite (to_size_t_small (n_particles * grid_size)) by lia.
  rewrite to_size_t_small by nia. do 2 f_equal. ring.
Qed.

(** C8. With an iteration count of zero the final grid is the grid of
    zeros that [main] set up, whatever the number of particles, the grid
    extent (as far as the arrays can be allocated), the radius, the start
    position and the values [rand] returns; in particular for [main]
    itself called with the argument 0. *)
Theorem zero_iterations_zero_grid
    (rand_after_srand : Z -> nat -> Z) (transform : Z -> float)
    (grid_size n_particles : Z) (radius startX startY : float) :
  0 <= grid_size <= INT_MAX -> 0 <= n_particles ->
  n_particles * (grid_size * grid_size) <= SIZE_MAX ->
  let h := simulate rand_after_srand transform grid_size n_particles radius
             startX startY 0 in
  h_grid h = initial_grid grid_size /\
  (forall y x : nat, Z.of_nat y < grid_size -> Z.of_nat x < grid_size ->
     cell (h_grid h) y x = 0).
Proof.
  intros HG HP HM.
  assert (H : h_grid (simulate rand_after_srand transform grid_size
                        n_particles radius startX startY 0)
              = initial_grid grid_size).
  { unfold simulate, motion_device, motion_device_exec.
    change (to_uint 0) with 0. rewrite Z.mul_0_r. simpl fill_random.
    cbv beta iota zeta. rewrite launch_zero. cbv beta iota zeta. unfold snd, d_map, h_grid.
    rewrite take_drop, initial_map_eq by lia.
    rewrite to_int_small by (unfold INT_MIN; lia).
    by apply reduce_zero_map. }
  cbv zeta. split; [apply H|].
  intros y x Hy Hx. rewrite H. by apply initial_grid_cell.
Qed.

Lemma zero_iterations_zero_grid_witness :
  h_grid (main (fun _ k => Z.of_nat k * 7919 + 13) 0) = initial_grid 21.
Proof.
  apply (zero_iterations_zero_grid
           (fun _ k => Z.of_nat k * 7919 + 13) displacement 21 20
           (F32.div (F32.of_Z 1) (F32.of_Z 2)) (F32.of_Z 10) (F32.of_Z 10));
    unfold INT_MAX, SIZE_MAX; lia.
Defined.

(** ** The displacement table *)

Lemma fill_random_entries (rand : nat -> Z) (n calls : nat) (x : float) :
  x ∈ (fill_random rand n calls).1 \/ x ∈ (fill_random rand n calls).2 ->
  exists r : Z, x = F32.of_Z (draw r).
Proof.
  revert calls. induction n as [|n IH]; intros calls; simpl.
  - intros [H|H]; by apply elem_of_nil in H.
  - specialize (IH (S (S calls))).
    destruct (fill_random rand n (S (S calls))) as [xs ys]. simpl in *.
    intros [H|H]; apply elem_of_cons in H as [->|H]; eauto.
Qed.

Lemma draw_range (r : Z) : 0 <= draw r <= 99.
Proof. unfold draw, scale. pose proof (Z.mod_pos_bound (to_size_t r) 100). lia. Qed.

Lemma displacement_table (v : Z) : 0 <= v <= 99 -> displacement_ok v = true.
Proof.
  intros Hv.
  assert (H : forallb displacement_ok (seqZ 0 100) = true) by (vm_compute; reflexivity).
  rewrite forallb_forall in H. apply H, list_elem_of_In, elem_of_seqZ. lia.
Qed.

(** C2, amended. Every entry of the two tables is [(float)v] for a raw
    draw [v] in [0, 99], the remainder of [rand()] modulo 100, and the kernel
    reads it back as [v]. The displacement the kernel computes from it is a
    finite float within 2^-27 of [v / 1000 - 0.0495], so it lies in the
    symmetric range [-0.0495, +0.0495]. *)
Theorem displacement_table_range
    (rand : nat -> Z) (n calls : nat) (x : float) :
  x ∈ (fill_random rand n calls).1 \/ x ∈ (fill_random rand n calls).2 ->
  exists v : Z,
    0 <= v <= 99 /\ x = F32.of_Z v /\ F32.to_size_t x = v /\
    is_finite (displacement (F32.to_size_t x)) = true /\
    (exact_displacement v - (1 # 2 ^ 27)
       <= F32.to_Q (displacement (F32.to_size_t x))
       <= exact_displacement v + (1 # 2 ^ 27))%Q /\
    (- (495 # 10000) <= F32.to_Q (displacement (F32.to_size_t x))
       <= 495 # 10000)%Q.
Proof.
  intros Hx. destruct (fill_random_entries _ _ _ _ Hx) as [r ->].
  pose proof (draw_range r) as Hr. exists (draw r).
  pose proof (displacement_table (draw r) Hr) as Hok.
  unfold displacement_ok in Hok.
  repeat (apply andb_true_iff in Hok as [Hok ?]).
  apply Z.eqb_eq in Hok. rewrite Hok.
  split; [lia|]. split; [done|]. split; [done|]. split; [done|].
  split; (split; by apply Qle_bool_iff).
Qed.

Lemma displacement_table_range_witness :
  exists v : Z,
    0 <= v <= 99 /\ F32.of_Z 67 = F32.of_Z v /\
    F32.to_size_t (F32.of_Z 67) = v /\
    is_finite (displacement (F32.to_size_t (F32.of_Z 67))) = true /\
    (exact_displacement v - (1 # 2 ^ 27)
       <= F32.to_Q (displacement (F32.to_size_t (F32.of_Z 67)))
       <= exact_displacement v + (1 # 2 ^ 27))%Q /\
    (- (495 # 10000) <= F32.to_Q (displacement (F32.to_size_t (F32.of_Z 67)))
       <= 495 # 10000)%Q.
Proof.
  apply (displacement_table_range (fun k => 1234567 + Z.of_nat k) 2 0).
  left. vm_compute. left.
Defined.

(** The top of the range is not 0.0445: the raw value 99, which the table
    holds whenever [rand()] returns 99, gives more. *)
Lemma displacement_exceeds_0445 :
  ~ (forall (rand : nat -> Z) (n calls : nat) (x : float),
       x ∈ (fill_random rand n calls).1 \/ x ∈ (fill_random rand n calls).2 ->
       (- (495 # 10000) <= F32.to_Q (displacement (F32.to_size_t x))
          <= 445 # 10000)%Q).
Proof.
  intros H.
  specialize (H (fun _ => 99) 1%nat 0%nat (F32.of_Z 99)).
  destruct H as [_ H]; [left; vm_compute; left|].
  vm_compute in H. by apply H.
Qed.

(** ** One step of a trajectory *)

(** C1. One iteration of the loop for particle [ii]: the displacements are
    added to the two coordinates, each on its own and whatever the result;
    the offsets [dX], [dY] of the occupancy test are the new coordinates
    minus their truncations toward zero; and the counter of the cell
    (floor y, floor x) of the particle goes up by one when the new position
    passes the grid test and the occupancy test, while no counter changes
    otherwise. *)
Theorem trajectory_step
    (n_particles grid_size : Z) (radius : float) (transform : Z -> float)
    (ii iter : Z) (m : memory) :
  0 < grid_size -> grid_size * grid_size <= INT_MAX ->
  n_particles * (grid_size * grid_size) <= SIZE_MAX ->
  0 <= ii < n_particles ->
  (Z.to_nat ii < length (d_particleX m))%nat ->
  (Z.to_nat ii < length (d_particleY m))%nat ->
  Z.of_nat (length (d_map m)) = n_particles * (grid_size * grid_size) ->
  let m' := exec (Simulation_iteration n_particles grid_size radius transform
                    ii iter) m in
  let k := table_index n_particles ii iter in
  let x' := F32.add (d_particleX m !!! Z.to_nat ii)
              (transform (F32.to_size_t (d_randomX m !!! k))) in
  let y' := F32.add (d_particleY m !!! Z.to_nat ii)
              (transform (F32.to_size_t (d_randomY m !!! k))) in
  let dX := F32.sub x' (F32.trunc x') in
  let dY := F32.sub y' (F32.trunc y') in
  let passes :=
    in_grid grid_size x' y'
    && F32.leb (F32.add (F32.mul dX dX) (F32.mul dY dY))
               (F32.mul radius radius) in
  let c := Z.to_nat (ii * (grid_size * grid_size)
                     + Qfloor (F32.to_Q y') * grid_size
                     + Qfloor (F32.to_Q x')) in
  d_particleX m' !!! Z.to_nat ii = x' /\
  d_particleY m' !!! Z.to_nat ii = y' /\
  (F32.to_Q (F32.trunc x') == inject_Z (Qtrunc (F32.to_Q x')))%Q /\
  (F32.to_Q (F32.trunc y') == inject_Z (Qtrunc (F32.to_Q y')))%Q /\
  (passes = true ->
     F32.to_int (F32.floor x') = Qfloor (F32.to_Q x') /\
     F32.to_int (F32.floor y') = Qfloor (F32.to_Q y') /\
     (c < length (d_map m))%nat /\
     d_map m' = <[c := to_size_t (d_map m !!! c + 1)]> (d_map m) /\
     (0 <= d_map m !!! c < SIZE_MAX -> d_map m' !!! c = d_map m !!! c + 1) /\
     (forall j : nat, j <> c -> d_map m' !!! j = d_map m !!! j)) /\
  (passes = false -> d_map m' = d_map m).
Proof.
  intros HG HG2 HM Hii LX LY LM. cbv zeta.
  rewrite iteration_exec.
  destruct (iteration_particles n_particles grid_size radius transform ii iter m)
    as [-> ->].
  rewrite iteration_map.
  set (m1 := moved n_particles transform ii iter m).
  set (x' := F32.add _ _). set (y' := F32.add _ _).
  assert (EX : d_particleX m1 !!! Z.to_nat ii = x')
    by (simpl; by rewrite list_lookup_total_insert_eq).
  assert (EY : d_particleY m1 !!! Z.to_nat ii = y')
    by (simpl; by rewrite list_lookup_total_insert_eq).
  split; [done|]. split; [done|].
  split; [apply to_Q_trunc|]. split; [apply to_Q_trunc|].
  fold (in_cell radius x' y').
  assert (Hhit : hit grid_size radius ii m1
                 = if in_grid grid_size x' y' && in_cell radius x' y'
                   then Some (map_index grid_size ii (F32.to_int (F32.floor y'))
                                (F32.to_int (F32.floor x')))
                   else None).
  { unfold hit. by rewrite EX, EY. }
  split.
  - intros Hp. rewrite Hp in Hhit.
    destruct (hit_spec n_particles grid_size radius HG HG2 HM ii m1 _ Hii Hhit)
      as (RX & RY & _ & HX & HY & E).
    rewrite EX, EY in *.
    assert (HG3 : grid_size <= INT_MAX) by nia.
    destruct (floor_index grid_size x' ltac:(lia) RX) as [FX _].
    destruct (floor_index grid_size y' ltac:(lia) RY) as [FY _].
    split; [done|]. split; [done|].
    rewrite Hhit, E.
    set (c := Z.to_nat _).
    assert (Hc : (c < length (d_map m))%nat) by (unfold c; nia).
    split; [done|]. split; [done|]. split.
    + intros Hold. rewrite list_lookup_total_insert_eq by done.
      apply to_size_t_small. lia.
    + intros j Hj. by rewrite list_lookup_total_insert_ne.
  - intros Hp. rewrite Hp in Hhit. by rewrite Hhit.
Qed.

Lemma trajectory_step_witness :
  let m := Memory [F32.of_Z 10] [F32.of_Z 10] [F32.of_Z 50] [F32.of_Z 60]
             (replicate 441 0) in
  let m' := exec (Simulation_iteration 1 21 (F32.div (F32.of_Z 1) (F32.of_Z 2))
                    displacement 0 0) m in
  d_particleX m' !!! 0%nat = F32.add (F32.of_Z 10) (displacement 50) /\
  d_map m' !!! 220%nat = 1.
Proof.
  cbv zeta.
  pose proof (trajectory_step 1 21 (F32.div (F32.of_Z 1) (F32.of_Z 2))
                displacement 0 0
                (Memory [F32.of_Z 10] [F32.of_Z 10] [F32.of_Z 50] [F32.of_Z 60]
                   (replicate 441 0))) as H.
  cbv zeta in H.
  destruct H as (HX & _ & _ & _ & Hpass & _);
    [lia | unfold INT_MAX; lia | unfold SIZE_MAX; lia | lia
     | simpl; lia | simpl; lia | reflexivity |].
  split; [exact HX|].
  destruct Hpass as (_ & _ & _ & _ & H1 & _); [vm_compute; reflexivity|].
  apply H1. vm_compute. split; [intros E; discriminate E | reflexivity].
Defined.

(** C3. The grid test is half-open on both axes. When an iteration
    changes a counter, the position [(x, y)] it has just stored has finite
    coordinates with [0 <= x < G] and [0 <= y < G]; when the position is
    outside that range on either axis no counter changes; in particular
    none changes when [x] is exactly [G]. *)
Theorem grid_membership_half_open
    (n_particles grid_size : Z) (radius : float) (transform : Z -> float)
    (ii iter : Z) (m : memory) :
  0 < grid_size < 2 ^ 24 ->
  let m' := exec (Simulation_iteration n_particles grid_size radius transform
                    ii iter) m in
  let x := d_particleX m' !!! Z.to_nat ii in
  let y := d_particleY m' !!! Z.to_nat ii in
  (d_map m' <> d_map m -> in_range grid_size x /\ in_range grid_size y) /\
  (~ (in_range grid_size x /\ in_range grid_size y) -> d_map m' = d_map m) /\
  ((F32.to_Q x == inject_Z grid_size)%Q -> d_map m' = d_map m).
Proof.
  intros HG. cbv zeta. rewrite iteration_exec.
  destruct (iteration_particles n_particles grid_size radius transform ii iter m)
    as [-> ->].
  rewrite iteration_map.
  set (m1 := moved n_particles transform ii iter m).
  assert (Hout : ~ (in_range grid_size (d_particleX m1 !!! Z.to_nat ii) /\
                    in_range grid_size (d_particleY m1 !!! Z.to_nat ii)) ->
                 hit grid_size radius ii m1 = None).
  { intros Hn. unfold hit. cbv zeta.
    destruct (in_grid _ _ _) eqn:E; [|done].
    apply in_grid_iff in E; [|done]. contradiction. }
  split; [|split].
  - intros Hne.
    destruct (in_grid grid_size (d_particleX m1 !!! Z.to_nat ii)
                (d_particleY m1 !!! Z.to_nat ii)) eqn:E.
    + by apply in_grid_iff in E.
    + exfalso. apply Hne. unfold hit. cbv zeta. by rewrite E.
  - intros Hn. by rewrite Hout.
  - intros Hq. rewrite Hout; [done|]. intros [(_ & _ & Hlt) _].
    rewrite Hq in Hlt. by apply Qlt_irrefl in Hlt.
Qed.

(** A particle at x = 20.9895... that draws 60 lands on 21.0 exactly, and
    nothing is counted. *)
Lemma grid_membership_half_open_witness :
  let m := Memory [S754_finite false 11004543 (-19)] [F32.of_Z 10]
             [F32.of_Z 60] [F32.of_Z 50] (replicate 441 0) in
  let m' := exec (Simulation_iteration 1 21 (F32.div (F32.of_Z 1) (F32.of_Z 2))
                    displacement 0 0) m in
  d_particleX m' !!! 0%nat = F32.of_Z 21 /\ d_map m' = d_map m.
Proof.
  cbv zeta. split; [vm_compute; reflexivity|].
  pose proof (grid_membership_half_open 1 21
                (F32.div (F32.of_Z 1) (F32.of_Z 2)) displacement 0 0
                (Memory [S754_finite false 11004543 (-19)] [F32.of_Z 10]
                   [F32.of_Z 60] [F32.of_Z 50] (replicate 441 0))) as H.
  cbv zeta in H. destruct H as (_ & _ & H); [lia|].
  apply H. vm_compute. reflexivity.
Defined.

(** ** One thread *)

Lemma thread_index_nonneg (bd bi ti : Z) : 0 <= thread_index bd bi ti.
Proof. unfold thread_index. apply to_size_t_range. Qed.

Lemma slice_cell (grid_size ii : Z) (j : nat) :
  0 < grid_size -> in_slice grid_size ii j ->
  exists iY iX : Z,
    0 <= iX < grid_size /\ 0 <= iY < grid_size /\
    Z.of_nat j = ii * (grid_size * grid_size) + iY * grid_size + iX.
Proof.
  intros HG [H1 H2].
  set (off := Z.of_nat j - ii * (grid_size * grid_size)).
  exists (off / grid_size), (off mod grid_size).
  pose proof (Z.div_mod off grid_size ltac:(lia)) as Hdm.
  pose proof (Z.mod_pos_bound off grid_size HG) as Hm.
  assert (0 <= off < grid_size * grid_size) by (unfold off; lia).
  split; [done|]. split.
  - split; [apply Z.div_pos; lia|]. apply Z.div_lt_upper_bound; lia.
  - unfold off in *. lia.
Qed.

Lemma iteration_counter_write
    (n_particles grid_size : Z) (radius : float) (transform : Z -> float)
    (ii iter : Z) (m : memory) (j : nat) :
  Wr (Counter j) ∈ accesses (Simulation_iteration n_particles grid_size radius
                               transform ii iter) m ->
  exists idx : Z,
    hit grid_size radius ii (moved n_particles transform ii iter m) = Some idx
    /\ j = Z.to_nat idx.
Proof.
  rewrite iteration_trace. unfold iteration_accesses. intros H.
  apply elem_of_app in H as [H|H].
  - repeat (apply elem_of_cons in H as [H|H]; [discriminate|]).
    by apply elem_of_nil in H.
  - destruct (hit _ _ _ _) as [idx|]; [|by apply elem_of_nil in H].
    exists idx. split; [done|].
    apply elem_of_cons in H as [H|H]; [discriminate|].
    apply elem_of_cons in H as [H|H]; [congruence|].
    by apply elem_of_nil in H.
Qed.

(** C10. Every write to the map is in bounds. In an iteration that
    writes a counter the grid test has passed, the two indices computed
    from the position are in [0, G), and the position written is
    [ii * G * G + iY * G + iX]; all the counters a thread writes lie in the
    slice of its particle, so below [P * G * G]; and a thread whose index
    is not below [P] makes no access and changes nothing. *)
Theorem accumulator_writes_in_bounds
    (n_particles nIterations grid_size : Z) (radius : float)
    (transform : Z -> float) (blockDim blockIdx threadIdx : Z) (m : memory) :
  0 < grid_size -> grid_size * grid_size <= INT_MAX ->
  n_particles * (grid_size * grid_size) <= SIZE_MAX ->
  let ii := thread_index blockDim blockIdx threadIdx in
  let run := Simulation n_particles nIterations grid_size radius transform
               blockDim blockIdx threadIdx in
  (n_particles <= ii -> accesses run m = [] /\ exec run m = m) /\
  (forall j : nat, Wr (Counter j) ∈ accesses run m ->
     ii < n_particles /\
     0 <= Z.of_nat j < n_particles * (grid_size * grid_size) /\
     exists iY iX : Z,
       0 <= iX < grid_size /\ 0 <= iY < grid_size /\
       Z.of_nat j = ii * (grid_size * grid_size) + iY * grid_size + iX) /\
  (forall (iter : Z) (m0 : memory) (j : nat),
     ii < n_particles ->
     Wr (Counter j) ∈ accesses (Simulation_iteration n_particles grid_size
                                  radius transform ii iter) m0 ->
     let m' := exec (Simulation_iteration n_particles grid_size radius
                       transform ii iter) m0 in
     let x := d_particleX m' !!! Z.to_nat ii in
     let y := d_particleY m' !!! Z.to_nat ii in
     let iX := F32.to_int (F32.floor x) in
     let iY := F32.to_int (F32.floor y) in
     in_grid grid_size x y = true /\
     0 <= iX < grid_size /\ 0 <= iY < grid_size /\
     j = Z.to_nat (map_index grid_size ii iY iX) /\
     map_index grid_size ii iY iX
     = ii * (grid_size * grid_size) + iY * grid_size + iX).
Proof.
  intros HG HG2 HM. cbv zeta.
  pose proof (thread_index_nonneg blockDim blockIdx threadIdx) as H0.
  set (ii := thread_index blockDim blockIdx threadIdx) in *.
  split; [|split].
  - intros Hge. unfold Simulation. fold ii.
    destruct (Z.leb_spec n_particles ii); [done|lia].
  - intros j Hj. unfold Simulation in Hj. fold ii in Hj.
    destruct (Z.leb_spec n_particles ii) as [|Hlt];
      [by apply elem_of_nil in Hj|].
    split; [done|].
    pose proof (loop_footprint n_particles grid_size radius transform HG HG2 HM
                  (Z.to_nat nIterations) ii 0 m ltac:(lia)) as Hf.
    rewrite Forall_forall in Hf. specialize (Hf _ Hj). simpl in Hf.
    destruct (slice_cell grid_size ii j HG Hf) as (iY & iX & HX & HY & E).
    split; [|by exists iY, iX]. nia.
  - intros iter m0 j Hlt Hj.
    destruct (iteration_counter_write _ _ _ _ _ _ _ _ Hj) as (idx & Hhit & ->).
    rewrite iteration_exec.
    destruct (iteration_particles n_particles grid_size radius transform ii iter m0)
      as [-> ->].
    set (m1 := moved n_particles transform ii iter m0) in *.
    destruct (hit_spec n_particles grid_size radius HG HG2 HM ii m1 idx
                ltac:(lia) Hhit) as (RX & RY & _ & HX & HY & E).
    assert (HG3 : grid_size <= INT_MAX) by nia.
    destruct (floor_index grid_size _ ltac:(lia) RX) as [FX _].
    destruct (floor_index grid_size _ ltac:(lia) RY) as [FY _].
    rewrite FX, FY.
    assert (Eg : in_grid grid_size (d_particleX m1 !!! Z.to_nat ii)
                   (d_particleY m1 !!! Z.to_nat ii) = true).
    { apply in_grid_iff; [|done]. unfold INT_MAX in *. nia. }
    split; [done|]. split; [done|]. split; [done|].
    rewrite (map_index_eq n_particles grid_size HG HG2 HM) by lia.
    split; [|done]. by rewrite E.
Qed.

Lemma accumulator_writes_in_bounds_witness :
  let m := Memory [F32.of_Z 10] [F32.of_Z 10] [F32.of_Z 50] [F32.of_Z 60]
             (replicate 441 0) in
  accesses (Simulation 1 2 21 (F32.div (F32.of_Z 1) (F32.of_Z 2)) displacement
              256 3 7) m = [] /\
  (forall j : nat,
     Wr (Counter j) ∈ accesses (Simulation 1 2 21
                                  (F32.div (F32.of_Z 1) (F32.of_Z 2))
                                  displacement 256 0 0) m ->
     0 <= Z.of_nat j < 1 * (21 * 21)).
Proof.
  cbv zeta. split.
  - pose proof (accumulator_writes_in_bounds 1 2 21
                  (F32.div (F32.of_Z 1) (F32.of_Z 2)) displacement 256 3 7
                  (Memory [F32.of_Z 10] [F32.of_Z 10] [F32.of_Z 50]
                     [F32.of_Z 60] (replicate 441 0))) as H.
    cbv zeta in H.
    destruct H as (H & _);
      [lia | unfold INT_MAX; lia | unfold SIZE_MAX; lia |].
    apply H. vm_compute. intros E. discriminate E.
  - pose proof (accumulator_writes_in_bounds 1 2 21
                  (F32.div (F32.of_Z 1) (F32.of_Z 2)) displacement 256 0 0
                  (Memory [F32.of_Z 10] [F32.of_Z 10] [F32.of_Z 50]
                     [F32.of_Z 60] (replicate 441 0))) as H.
    cbv zeta in H.
    destruct H as (_ & H & _);
      [lia | unfold INT_MAX; lia | unfold SIZE_MAX; lia |].
    intros j Hj. exact (proj1 (proj2 (H j Hj))).
Defined.

(** C7. The thread of particle [p] writes its own position and counters
    of its own slice of the map, and nothing else: the two tables are never
    written and stay as they are, and the position and the counters of
    every other particle are unchanged. *)
Theorem write_isolation
    (n_particles nIterations grid_size : Z) (radius : float)
    (transform : Z -> float) (blockDim blockIdx threadIdx : Z) (m : memory) :
  0 < grid_size -> grid_size * grid_size <= INT_MAX ->
  n_particles * (grid_size * grid_size) <= SIZE_MAX ->
  let p := thread_index blockDim blockIdx threadIdx in
  let run := Simulation n_particles nIterations grid_size radius transform
               blockDim blockIdx threadIdx in
  let m' := exec run m in
  (forall a : access, a ∈ accesses run m ->
     match a with
     | Rd _ => True
     | Wr (Float ParticleX j) | Wr (Float ParticleY j) => j = Z.to_nat p
     | Wr (Float RandomX _) | Wr (Float RandomY _) => False
     | Wr (Counter j) => in_slice grid_size p j
     end) /\
  d_randomX m' = d_randomX m /\ d_randomY m' = d_randomY m /\
  (forall q : nat, q <> Z.to_nat p ->
     d_particleX m' !! q = d_particleX m !! q /\
     d_particleY m' !! q = d_particleY m !! q) /\
  (forall (q : Z) (j : nat), q <> p -> in_slice grid_size q j ->
     d_map m' !! j = d_map m !! j).
Proof.
  intros HG HG2 HM. cbv zeta.
  pose proof (thread_index_nonneg blockDim blockIdx threadIdx) as H0.
  set (p := thread_index blockDim blockIdx threadIdx) in *.
  unfold Simulation. fold p.
  destruct (Z.leb_spec n_particles p) as [|Hlt].
  { split; [intros a Ha; by apply elem_of_nil in Ha|]. done. }
  pose proof (loop_footprint n_particles grid_size radius transform HG HG2 HM
                (Z.to_nat nIterations) p 0 m ltac:(lia)) as Hf.
  pose proof (loop_frame n_particles grid_size radius transform HG HG2 HM
                (Z.to_nat nIterations) p 0 m ltac:(lia))
    as (F1 & F2 & _ & _ & _ & F6 & F7).
  split; [|split; [done|split; [done|split; [done|]]]].
  - intros a Ha. rewrite Forall_forall in Hf. specialize (Hf a Ha).
    destruct a as [[[]|]|[[]|]]; done.
  - intros q j Hq Hj. apply F7. intros Hp.
    by apply (slices_disjoint grid_size HG q p j).
Qed.

Lemma write_isolation_witness :
  let m := Memory [F32.of_Z 10; F32.of_Z 10] [F32.of_Z 10; F32.of_Z 10]
             [F32.of_Z 50; F32.of_Z 50] [F32.of_Z 60; F32.of_Z 60]
             (replicate 882 0) in
  let m' := exec (Simulation 2 1 21 (F32.div (F32.of_Z 1) (F32.of_Z 2))
                    displacement 256 0 1) m in
  d_randomX m' = d_randomX m /\ d_particleX m' !! 0%nat = Some (F32.of_Z 10).
Proof.
  cbv zeta.
  pose proof (write_isolation 2 1 21 (F32.div (F32.of_Z 1) (F32.of_Z 2))
                displacement 256 0 1
                (Memory [F32.of_Z 10; F32.of_Z 10] [F32.of_Z 10; F32.of_Z 10]
                   [F32.of_Z 50; F32.of_Z 50] [F32.of_Z 60; F32.of_Z 60]
                   (replicate 882 0))) as H.
  cbv zeta in H.
  destruct H as (_ & HR & _ & HP & _);
    [lia | unfold INT_MAX; lia | unfold SIZE_MAX; lia |].
  split; [exact HR|].
  assert (Hq : 0%nat <> Z.to_nat (thread_index 256 0 1))
    by (vm_compute; intros E; discriminate E).
  rewrite (proj1 (HP 0%nat Hq)). reflexivity.
Defined.

(** ** A stationary particle *)

(** C9. A particle that starts at integer coordinates [(ax, ay)] inside
    the grid and whose displacements are all zero, with a radius that is not
    negative: after [n] iterations the counter of its cell holds [n] and
    the other counters of its slice are still 0. For [main]'s set-up with
    one particle, one iteration and displacements forced to zero, the grid
    that comes out has a 1 in row 10, column 10 and 0 everywhere else. *)
Theorem stationary_particle
    (n_particles grid_size : Z) (radius : float) (transform : Z -> float)
    (n : nat) (ii : Z) (m : memory) (ax ay : Z) :
  0 < grid_size -> grid_size * grid_size <= INT_MAX ->
  n_particles * (grid_size * grid_size) <= SIZE_MAX ->
  0 <= ii < n_particles ->
  (Z.to_nat ii < length (d_particleX m))%nat ->
  (Z.to_nat ii < length (d_particleY m))%nat ->
  0 <= ax < grid_size -> 0 <= ay < grid_size ->
  at_integer ax (d_particleX m !!! Z.to_nat ii) ->
  at_integer ay (d_particleY m !!! Z.to_nat ii) ->
  (forall iter : Z, 0 <= iter < Z.of_nat n ->
     let k := table_index n_particles ii iter in
     is_zero (transform (F32.to_size_t (d_randomX m !!! k))) = true /\
     is_zero (transform (F32.to_size_t (d_randomY m !!! k))) = true) ->
  F32.geb radius (F32.of_Z 0) = true ->
  Z.of_nat n <= UINT_MAX ->
  (forall j : nat, in_slice grid_size ii j -> d_map m !! j = Some 0) ->
  let m' := exec (Simulation_loop n_particles grid_size radius transform
                    n ii 0) m in
  let c := Z.to_nat (ii * (grid_size * grid_size) + ay * grid_size + ax) in
  (d_map m' !! c = Some (Z.of_nat n) /\
   (forall j : nat, in_slice grid_size ii j -> j <> c ->
      d_map m' !! j = Some 0)) /\
  (forall rand_after_srand : Z -> nat -> Z,
     h_grid (simulate rand_after_srand (fun _ => F32.zero) 21 1
               (F32.div (F32.of_Z 1) (F32.of_Z 2)) (F32.of_Z 10) (F32.of_Z 10) 1)
     = <[10%nat := <[10%nat := 1]> (replicate 21 0)]>
         (replicate 21 (replicate 21 0))).
Proof.
  intros HG HG2 HM Hii LX LY Hax Hay AX AY HZ Hr Hn H0. cbv zeta.
  split; [|intros rand; vm_compute; reflexivity].
  assert (Hnn : is_nonneg radius = true).
  { apply geb_zero_iff in Hr. by destruct radius as [|[]| |[]]. }
  assert (Hc : in_slice grid_size ii
                 (Z.to_nat (ii * (grid_size * grid_size) + ay * grid_size + ax))).
  { unfold in_slice. rewrite Z2Nat.id by nia. nia. }
  destruct (stationary_loop n_particles grid_size radius transform HG HG2 HM
              n ii m ax ay) as (_ & _ & E); try done.
  { unfold UINT_MAX, SIZE_MAX in *. lia. }
  { by apply H0. }
  cbv zeta in E. rewrite E. split.
  - apply list_lookup_insert_eq, lookup_lt_is_Some. rewrite (H0 _ Hc). eauto.
  - intros j Hj Hne. rewrite list_lookup_insert_ne by done. by apply H0.
Qed.

Lemma stationary_particle_witness :
  let m := Memory [F32.of_Z 10] [F32.of_Z 10]
             [F32.of_Z 7; F32.of_Z 8; F32.of_Z 9]
             [F32.of_Z 1; F32.of_Z 2; F32.of_Z 3] (replicate 441 0) in
  d_map (exec (Simulation_loop 1 21 (F32.div (F32.of_Z 1) (F32.of_Z 2))
                 (fun _ => F32.zero) 3 0 0) m) !! 220%nat = Some 3.
Proof.
  cbv zeta.
  pose proof (stationary_particle 1 21 (F32.div (F32.of_Z 1) (F32.of_Z 2))
                (fun _ => F32.zero) 3 0
                (Memory [F32.of_Z 10] [F32.of_Z 10]
                   [F32.of_Z 7; F32.of_Z 8; F32.of_Z 9]
                   [F32.of_Z 1; F32.of_Z 2; F32.of_Z 3] (replicate 441 0))
                10 10) as H.
  cbv zeta in H. destruct H as ((H & _) & _).
  - lia.
  - unfold INT_MAX. lia.
  - unfold SIZE_MAX. lia.
  - lia.
  - simpl. lia.
  - simpl. lia.
  - lia.
  - lia.
  - repeat split.
  - repeat split.
  - intros iter _. split; reflexivity.
  - vm_compute. reflexivity.
  - unfold UINT_MAX. lia.
  - intros j [_ Hj]. apply lookup_replicate_2. lia.
  - exact H.
Defined.

(** ** The reduction *)

Lemma seqZ_particles (n_particles : Z) :
  Forall (fun i => 0 <= i < n_particles) (seqZ 0 n_particles).
Proof. apply Forall_forall. intros i Hi. apply elem_of_seqZ in Hi. lia. Qed.

(** A cell of the grid after the outer loop has run over the particles
    of [order]. *)
Lemma reduce_in_cell
    (n_particles grid_size : Z) (map : list Z) (grid : list (list Z))
    (order : list Z) (y x : nat) :
  0 < grid_size <= INT_MAX ->
  n_particles * (grid_size * grid_size) <= SIZE_MAX ->
  Forall (fun c => 0 <= c) map ->
  square grid_size grid -> int_grid grid ->
  Forall (fun i => 0 <= i < n_particles) order ->
  Z.of_nat y < grid_size -> Z.of_nat x < grid_size ->
  square grid_size (reduce_in grid_size order map grid) /\
  int_grid (reduce_in grid_size order map grid) /\
  cell (reduce_in grid_size order map grid) y x
  = to_int (cell grid y x + sumZ (tally grid_size map y x <$> order)).
Proof.
  intros [HG HGi] HM Hmap Hsq Hint Ho Hy Hx.
  rewrite reduce_in_guard by done.
  pose proof (particles_cell n_particles grid_size map HG HGi HM order grid
                y x Hsq Hint Ho Hy Hx) as H.
  cbv zeta in H. exact H.
Qed.

(** C4. The reduction of a map of counters into a square grid of [int]
    cells: running the outer loop over the particles in any other order
    gives the same grid; dropping the [> 0] test gives the same grid; and
    every cell ends as its old value plus the sum over the particles of
    their counters for that cell, reduced to an [int], which is that sum
    itself when it fits an [int]. *)
Theorem reduction_order_independent
    (n_particles grid_size : Z) (map : list Z) (grid : list (list Z)) :
  0 < grid_size <= INT_MAX ->
  n_particles * (grid_size * grid_size) <= SIZE_MAX ->
  Forall (fun c => 0 <= c) map ->
  square grid_size grid -> int_grid grid ->
  (forall order : list Z, order ≡ₚ seqZ 0 n_particles ->
     reduce_in grid_size order map grid = reduce n_particles grid_size map grid) /\
  reduce_all n_particles grid_size map grid
  = reduce n_particles grid_size map grid /\
  (forall y x : nat, Z.of_nat y < grid_size -> Z.of_nat x < grid_size ->
     let total := sumZ (tally grid_size map y x <$> seqZ 0 n_particles) in
     cell (reduce n_particles grid_size map grid) y x
     = to_int (cell grid y x + total) /\
     (is_int (cell grid y x + total) ->
      cell (reduce n_particles grid_size map grid) y x = cell grid y x + total)).
Proof.
  intros [HG HGi] HM Hmap Hsq Hint.
  pose proof (seqZ_particles n_particles) as Hseq.
  assert (Hcell : forall order y x,
    Forall (fun i => 0 <= i < n_particles) order ->
    Z.of_nat y < grid_size -> Z.of_nat x < grid_size ->
    square grid_size (reduce_in grid_size order map grid) /\
    cell (reduce_in grid_size order map grid) y x
    = to_int (cell grid y x + sumZ (tally grid_size map y x <$> order))).
  { intros order y x Ho Hy Hx. rewrite reduce_in_guard by done.
    pose proof (particles_cell n_particles grid_size map HG HGi HM order grid
                  y x Hsq Hint Ho Hy Hx) as H.
    cbv zeta in H. tauto. }
  split; [|split].
  - intros order Hp.
    assert (Ho : Forall (fun i => 0 <= i < n_particles) order)
      by (by rewrite Hp).
    unfold reduce.
    apply (grid_ext grid_size).
    + apply (Hcell order O O Ho); lia.
    + apply (Hcell _ O O Hseq); lia.
    + intros y x Hy Hx.
      rewrite (proj2 (Hcell order y x Ho Hy Hx)).
      rewrite (proj2 (Hcell _ y x Hseq Hy Hx)).
      do 2 f_equal. apply sumZ_permutation. by rewrite Hp.
  - unfold reduce, reduce_all. symmetry. by apply reduce_in_guard.
  - intros y x Hy Hx. cbv zeta.
    pose proof (proj2 (Hcell _ y x Hseq Hy Hx)) as E. fold (reduce n_particles grid_size map grid) in E.
    split; [exact E|]. intros Hi. rewrite E. by apply to_int_small.
Qed.

Lemma reduction_order_independent_witness :
  reduce_in 2 [1; 0] [0; 3; 0; 1; 2; 0; 0; 5] [[0; 0]; [0; 0]]
  = reduce 2 2 [0; 3; 0; 1; 2; 0; 0; 5] [[0; 0]; [0; 0]].
Proof.
  pose proof (reduction_order_independent 2 2 [0; 3; 0; 1; 2; 0; 0; 5]
                [[0; 0]; [0; 0]]) as H.
  destruct H as (H & _).
  - unfold INT_MAX. lia.
  - unfold SIZE_MAX. lia.
  - repeat constructor; lia.
  - split; [reflexivity|]. repeat constructor.
  - repeat constructor; unfold INT_MIN, INT_MAX; lia.
  - apply H. apply perm_swap.
Defined.

(** ** Determinism *)

Lemma map_fits (n_particles grid_size : Z) :
  0 <= n_particles -> n_particles + 255 < 2 ^ 32 ->
  0 < grid_size -> grid_size * grid_size <= INT_MAX ->
  n_particles * (grid_size * grid_size) <= SIZE_MAX.
Proof. unfold INT_MAX, SIZE_MAX. intros. nia. Qed.

(** Whatever the fair schedule, the launch leaves the device memory that
    the threads run one after the other leave. *)
Lemma scheduled_launch
    (n_particles nIterations grid_size : Z) (radius : float)
    (transform : Z -> float) (s : list nat) (dev : memory) :
  0 < grid_size -> grid_size * grid_size <= INT_MAX ->
  0 <= n_particles -> n_particles + 255 < 2 ^ 32 -> 0 <= nIterations ->
  schedule n_particles s -> fair n_particles nIterations s ->
  fst (c_state (run_schedule n_particles nIterations grid_size radius
                  transform s (initial n_particles dev)))
  = exec (Simulation_launch n_particles nIterations grid_size radius transform)
      dev.
Proof.
  intros HG HG2 HP HT HI Hs Hf.
  pose proof (map_fits n_particles grid_size HP HT HG HG2) as HM.
  apply (completed_unique n_particles nIterations grid_size radius transform
           HG dev).
  - apply scheduled_finished; try done.
    + apply scheduled_run; try done. by apply scheduled_initial.
    + by apply fair_finished.
  - by apply launch_completed.
Qed.

(** C6. The run is a function of the values [rand] returns after
    [srand(17)] and of the arguments: the tables of displacements are the
    same, and whatever fair schedules [s1] and [s2] the threads of the
    kernel run under, the map and the grid that come out are those of the
    launch with the threads run one after the other. *)
Theorem schedule_independent
    (rand_after_srand : Z -> nat -> Z) (transform : Z -> float)
    (s1 s2 : list nat)
    (particleX particleY : list float) (grid : list (list Z))
    (grid_size n_particles nIterations : Z) (radius : float) (map : list Z) :
  0 < grid_size -> grid_size * grid_size <= INT_MAX ->
  0 <= n_particles -> n_particles + 255 < 2 ^ 32 -> 0 <= nIterations ->
  schedule n_particles s1 -> fair n_particles nIterations s1 ->
  schedule n_particles s2 -> fair n_particles nIterations s2 ->
  let h := motion_device rand_after_srand transform particleX particleY grid
             grid_size n_particles nIterations radius map in
  let h1 := motion_device_scheduled rand_after_srand transform s1
              particleX particleY grid grid_size n_particles nIterations
              radius map in
  let h2 := motion_device_scheduled rand_after_srand transform s2
              particleX particleY grid grid_size n_particles nIterations
              radius map in
  (h_randomX h1 = h_randomX h2 /\ h_randomY h1 = h_randomY h2 /\
   h_map h1 = h_map h2 /\ h_grid h1 = h_grid h2) /\
  (h_randomX h1 = h_randomX h /\ h_randomY h1 = h_randomY h /\
   h_map h1 = h_map h /\ h_grid h1 = h_grid h).
Proof.
  intros HG HG2 HP HT HI Hs1 Hf1 Hs2 Hf2.
  assert (H : forall s, schedule n_particles s -> fair n_particles nIterations s ->
    let h := motion_device rand_after_srand transform particleX particleY grid
               grid_size n_particles nIterations radius map in
    let h' := motion_device_scheduled rand_after_srand transform s
                particleX particleY grid grid_size n_particles nIterations
                radius map in
    h_randomX h' = h_randomX h /\ h_randomY h' = h_randomY h /\
    h_map h' = h_map h /\ h_grid h' = h_grid h).
  { intros s Hs Hf. cbv zeta.
    unfold motion_device_scheduled, motion_device, motion_device_exec.
    destruct (fill_random _ _ _) as [rx ry].
    set (dev := Memory _ _ _ _ _).
    pose proof (scheduled_launch n_particles nIterations grid_size radius
                  transform s dev HG HG2 HP HT HI Hs Hf) as E.
    unfold exec in E.
    destruct (c_state _) as [d1 t1]. destruct (snd _) as [d2 t2].
    simpl in E. subst d2. simpl. done. }
  cbv zeta. destruct (H s1 Hs1 Hf1) as (A1 & A2 & A3 & A4).
  destruct (H s2 Hs2 Hf2) as (B1 & B2 & B3 & B4).
  split; [|done]. repeat split; congruence.
Qed.

Lemma schedule_independent_witness :
  let rand := fun (_ : Z) (k : nat) => Z.of_nat k * 37 + 50 in
  let run := fun s =>
    motion_device_scheduled rand displacement s
      [F32.of_Z 1; F32.of_Z 1] [F32.of_Z 1; F32.of_Z 1]
      [[0; 0; 0]; [0; 0; 0]; [0; 0; 0]] 3 2 2
      (F32.div (F32.of_Z 1) (F32.of_Z 2)) (replicate 18 0) in
  h_grid (run [0; 1; 0; 1]%nat) = h_grid (run [1; 1; 0; 0]%nat).
Proof.
  cbv zeta.
  pose proof (schedule_independent
                (fun (_ : Z) (k : nat) => Z.of_nat k * 37 + 50)
                displacement [0; 1; 0; 1]%nat [1; 1; 0; 0]%nat
                [F32.of_Z 1; F32.of_Z 1] [F32.of_Z 1; F32.of_Z 1]
                [[0; 0; 0]; [0; 0; 0]; [0; 0; 0]] 3 2 2
                (F32.div (F32.of_Z 1) (F32.of_Z 2)) (replicate 18 0)) as H.
  cbv zeta in H. destruct H as ((_ & _ & _ & H) & _).
  - lia.
  - unfold INT_MAX. lia.
  - lia.
  - lia.
  - lia.
  - repeat constructor; vm_compute; lia.
  - intros [|[|k]] Hk; simpl; lia.
  - repeat constructor; vm_compute; lia.
  - intros [|[|k]] Hk; simpl; lia.
  - exact H.
Defined.

(** ** Conservation bounds *)

Lemma sumZ_app (l1 l2 : list Z) : sumZ (l1 ++ l2) = sumZ l1 + sumZ l2.
Proof. unfold sumZ. induction l1 as [|a l1 IH]; simpl; lia. Qed.

Lemma sumZ_seqZ (f : Z -> Z) (n : nat) :
  sumZ (f <$> seqZ 0 (Z.of_nat n)) = Zsum (fun i => f (Z.of_nat i)) n.
Proof.
  induction n as [|n IH]; [done|].
  rewrite seqZ_S, fmap_app, sumZ_app, IH, Z.add_0_l.
  change (Zsum (fun i => f (Z.of_nat i)) (S n))
    with (Zsum (fun i => f (Z.of_nat i)) n + f (Z.of_nat n)).
  change (sumZ (f <$> [Z.of_nat n])) with (f (Z.of_nat n) + 0). lia.
Qed.

Lemma tally_counter (grid_size : Z) (map : list Z) (y x : nat) (i : Z) :
  0 < grid_size -> 0 <= i ->
  tally grid_size map y x i
  = counter grid_size map i (y * Z.to_nat grid_size + x)%nat.
Proof.
  intros HG Hi. unfold tally, counter. f_equal. nia.
Qed.

Lemma zero_slice (grid_size : Z) (n : nat) (p : Z) :
  0 < grid_size -> 0 <= p ->
  (p + 1) * (grid_size * grid_size) <= Z.of_nat n ->
  slice_total grid_size (replicate n 0) p = 0.
Proof.
  intros HG Hp Hn. unfold slice_total.
  etrans; [|apply (Zsum_zero (Z.to_nat (grid_size * grid_size)))].
  apply Zsum_ext. intros j Hj. unfold counter.
  apply lookup_total_replicate_2. nia.
Qed.

(** What the completed launch has counted for particle [p], starting
    from a map of zeros. *)
Lemma completed_counts
    (n_particles nIterations grid_size : Z) (radius : float)
    (transform : Z -> float) (dev0 dev' : memory) (p : nat) :
  0 < grid_size -> grid_size * grid_size <= INT_MAX ->
  n_particles * (grid_size * grid_size) <= SIZE_MAX ->
  0 <= nIterations ->
  completed n_particles nIterations grid_size radius transform dev0 dev' ->
  d_map dev0
  = replicate (Z.to_nat (n_particles * (grid_size * grid_size))) 0 ->
  Z.of_nat p < n_particles ->
  (forall j : nat, (j < Z.to_nat (grid_size * grid_size))%nat ->
     0 <= counter grid_size (d_map dev') (Z.of_nat p) j) /\
  slice_total grid_size (d_map dev') (Z.of_nat p) <= nIterations.
Proof.
  intros HG HG2 HM HI (_ & _ & _ & _ & _ & HA & _) H0 Hp.
  destruct (HA p Hp) as (_ & _ & A). unfold solo in A.
  set (ms := exec _ dev0) in A.
  assert (Hz : Forall (fun c => 0 <= c) (d_map dev0)).
  { rewrite H0. apply Forall_forall. intros c Hc.
    apply elem_of_replicate in Hc. lia. }
  destruct (loop_count n_particles grid_size radius transform HG HG2 HM
              (Z.to_nat nIterations) (Z.of_nat p) 0 dev0 ltac:(lia) Hz)
    as [Hpos Hsum].
  fold ms in Hpos, Hsum.
  rewrite H0, zero_slice in Hsum by nia.
  assert (E : forall j : nat, (j < Z.to_nat (grid_size * grid_size))%nat ->
            counter grid_size (d_map dev') (Z.of_nat p) j
            = counter grid_size (d_map ms) (Z.of_nat p) j).
  { intros j Hj. unfold counter. apply lookup_total_agree, A.
    unfold in_slice. nia. }
  split.
  - intros j Hj. rewrite E by done. unfold counter.
    by apply lookup_total_nonneg.
  - unfold slice_total. rewrite (Zsum_ext _ _ _ E).
    unfold slice_total in Hsum. lia.
Qed.

Lemma completed_nonneg
    (n_particles nIterations grid_size : Z) (radius : float)
    (transform : Z -> float) (dev0 dev' : memory) :
  0 < grid_size -> grid_size * grid_size <= INT_MAX ->
  n_particles * (grid_size * grid_size) <= SIZE_MAX ->
  0 <= n_particles ->
  completed n_particles nIterations grid_size radius transform dev0 dev' ->
  d_map dev0
  = replicate (Z.to_nat (n_particles * (grid_size * grid_size))) 0 ->
  Forall (fun c => 0 <= c) (d_map dev').
Proof.
  intros HG HG2 HM HP (_ & _ & _ & _ & HL & HA & _) H0.
  assert (Hz : Forall (fun c => 0 <= c) (d_map dev0)).
  { rewrite H0. apply Forall_forall. intros c Hc.
    apply elem_of_replicate in Hc. lia. }
  apply Forall_lookup. intros j c Hj.
  assert (Hlt : Z.of_nat j < n_particles * (grid_size * grid_size)).
  { apply lookup_lt_Some in Hj. rewrite HL, H0, length_replicate in Hj. nia. }
  destruct (slice_of n_particles grid_size HG j Hlt) as (p & Hp & Hs).
  destruct (HA p Hp) as (_ & _ & A). rewrite (A j Hs) in Hj.
  unfold solo in Hj.
  destruct (loop_count n_particles grid_size radius transform HG HG2 HM
              (Z.to_nat nIterations) (Z.of_nat p) 0 dev0 ltac:(lia) Hz)
    as [Hpos _].
  by apply (Forall_lookup_1 _ _ _ _ Hpos Hj).
Qed.

Lemma simulate_unfold
    (rand_after_srand : Z -> nat -> Z) (transform : Z -> float)
    (grid_size n_particles : Z) (radius startX startY : float)
    (nIterations : Z) :
  0 < grid_size -> grid_size * grid_size <= INT_MAX ->
  0 <= n_particles -> n_particles + 255 < 2 ^ 32 ->
  0 <= nIterations <= UINT_MAX ->
  let h := simulate rand_after_srand transform grid_size n_particles radius
             startX startY nIterations in
  exists dev0 dev' : memory,
    d_map dev0
    = replicate (Z.to_nat (n_particles * (grid_size * grid_size))) 0 /\
    completed n_particles nIterations grid_size radius transform dev0 dev' /\
    h_map h = d_map dev' /\
    h_grid h = reduce n_particles grid_size (d_map dev') (initial_grid grid_size).
Proof.
  intros HG HG2 HP HT HI. cbv zeta.
  pose proof (map_fits n_particles grid_size HP HT HG HG2) as HM.
  unfold simulate, motion_device, motion_device_exec.
  assert (Eu : to_uint nIterations = nIterations)
    by (unfold to_uint, UINT_MAX in *; apply Z.mod_small; lia).
  assert (Ei : to_int grid_size = grid_size)
    by (apply to_int_small; unfold INT_MIN, INT_MAX in *; nia).
  assert (Es : to_size_t grid_size = grid_size)
    by (apply to_size_t_small; unfold SIZE_MAX, INT_MAX in *; nia).
  rewrite Eu, Ei, Es.
  assert (En : to_size_t (to_size_t (n_particles * grid_size) * grid_size)
               = n_particles * (grid_size * grid_size)).
  { assert (0 <= n_particles * grid_size
            <= n_particles * (grid_size * grid_size)) by nia.
    rewrite (to_size_t_small (n_particles * grid_size)) by lia.
    rewrite to_size_t_small by nia. ring. }
  rewrite En, initial_map_eq by lia.
  destruct (fill_random _ _ _) as [rx ry].
  set (zeros := replicate (Z.to_nat (n_particles * (grid_size * grid_size))) 0).
  assert (Hlen : length zeros = Z.to_nat (n_particles * (grid_size * grid_size)))
    by apply length_replicate.
  rewrite (take_ge zeros), (drop_ge zeros) by lia.
  set (dev0 := Memory _ _ _ _ _).
  pose proof (launch_completed n_particles nIterations grid_size radius
                transform HG HG2 HM HP HT (proj1 HI) dev0) as Hc.
  unfold exec in Hc.
  destruct (snd _) as [dev' tr]. simpl in Hc. simpl.
  exists dev0, dev'. rewrite app_nil_r. done.
Qed.

(** C5. After [simulate], with [P * I] within the range of [int]: every
    counter of every particle is between 0 and the iteration count [I];
    every cell of the grid is between 0 and [P * I]; and the cells of the
    grid add up to at most [P * I]. *)
Theorem conservation_bounds
    (rand_after_srand : Z -> nat -> Z) (transform : Z -> float)
    (grid_size n_particles : Z) (radius startX startY : float)
    (nIterations : Z) :
  0 < grid_size -> grid_size * grid_size <= INT_MAX ->
  0 <= n_particles -> n_particles + 255 < 2 ^ 32 ->
  0 <= nIterations <= UINT_MAX ->
  n_particles * nIterations <= INT_MAX ->
  let h := simulate rand_after_srand transform grid_size n_particles radius
             startX startY nIterations in
  let G := Z.to_nat grid_size in
  (forall (p : Z) (j : nat), 0 <= p < n_particles -> (j < G * G)%nat ->
     0 <= counter grid_size (h_map h) p j <= nIterations) /\
  (forall y x : nat, (y < G)%nat -> (x < G)%nat ->
     0 <= cell (h_grid h) y x <= n_particles * nIterations) /\
  Zsum (fun y => Zsum (fun x => cell (h_grid h) y x) G) G
  <= n_particles * nIterations.
Proof.
  intros HG HG2 HP HT HI HPI.
  pose proof (map_fits n_particles grid_size HP HT HG HG2) as HM.
  pose proof (simulate_unfold rand_after_srand transform grid_size n_particles
                radius startX startY nIterations HG HG2 HP HT HI) as Hu.
  cbv zeta in Hu. destruct Hu as (dev0 & dev' & H0 & Hc & E1 & E2).
  cbv zeta. rewrite E1, E2. clear E1 E2. set (G := Z.to_nat grid_size).
  assert (EG : Z.to_nat (grid_size * grid_size) = (G * G)%nat) by (unfold G; nia).
  (* the counters of one particle *)
  assert (Hcount : forall p : nat, Z.of_nat p < n_particles ->
    (forall j : nat, (j < G * G)%nat ->
       0 <= counter grid_size (d_map dev') (Z.of_nat p) j <= nIterations) /\
    Zsum (counter grid_size (d_map dev') (Z.of_nat p)) (G * G) <= nIterations).
  { intros p Hp.
    destruct (completed_counts n_particles nIterations grid_size radius
                transform dev0 dev' p HG HG2 HM (proj1 HI) Hc H0 Hp)
      as [Hpos Hsum].
    unfold slice_total in Hsum. rewrite EG in Hpos, Hsum.
    split; [|done]. intros j Hj. split; [by apply Hpos|].
    etrans; [|exact Hsum]. by apply Zsum_term_le. }
  (* the cells of the grid *)
  pose proof (completed_nonneg n_particles nIterations grid_size radius
                transform dev0 dev' HG HG2 HM HP Hc H0) as Hnn.
  assert (Hsq : square grid_size (initial_grid grid_size)).
  { unfold square, initial_grid. rewrite length_replicate. split; [done|].
    apply Forall_forall. intros row Hrow. apply elem_of_replicate in Hrow as [-> _].
    by rewrite length_replicate. }
  assert (Hint : int_grid (initial_grid grid_size)).
  { unfold int_grid, initial_grid. apply Forall_forall. intros row Hrow.
    apply elem_of_replicate in Hrow as [-> _].
    apply Forall_forall. intros c Hc'. apply elem_of_replicate in Hc' as [-> _].
    unfold is_int, INT_MIN, INT_MAX. lia. }
  assert (Hcell : forall y x : nat, (y < G)%nat -> (x < G)%nat ->
    cell (reduce n_particles grid_size (d_map dev') (initial_grid grid_size)) y x
    = Zsum (fun i => counter grid_size (d_map dev') (Z.of_nat i) (y * G + x)%nat)
        (Z.to_nat n_particles)).
  { intros y x Hy Hx.
    destruct (reduce_in_cell n_particles grid_size (d_map dev')
                (initial_grid grid_size) (seqZ 0 n_particles) y x
                ltac:(nia) HM Hnn Hsq Hint (seqZ_particles n_particles)
                ltac:(unfold G in *; lia) ltac:(unfold G in *; lia))
      as (_ & _ & Hr).
    fold (reduce n_particles grid_size (d_map dev') (initial_grid grid_size))
      in Hr.
    rewrite initial_grid_cell in Hr by (unfold G in *; lia).
    rewrite Z.add_0_l in Hr.
    assert (Es : sumZ (tally grid_size (d_map dev') y x <$> seqZ 0 n_particles)
                 = Zsum (fun i => counter grid_size (d_map dev') (Z.of_nat i)
                                    (y * G + x)%nat) (Z.to_nat n_particles)).
    { rewrite <- (Z2Nat.id n_particles) at 1 by done. rewrite sumZ_seqZ.
      apply Zsum_ext. intros i _. apply tally_counter; lia. }
    rewrite Es in Hr. rewrite Hr. apply to_int_small.
    assert (0 <= Zsum (fun i => counter grid_size (d_map dev') (Z.of_nat i)
                                  (y * G + x)%nat) (Z.to_nat n_particles)
            <= Z.of_nat (Z.to_nat n_particles) * nIterations).
    { split.
      - apply Zsum_nonneg. intros i Hi. apply (Hcount i ltac:(lia)). nia.
      - rewrite <- Zsum_const. apply Zsum_le. intros i Hi.
        apply (Hcount i ltac:(lia)). nia. }
    unfold is_int, INT_MIN. lia. }
  split; [|split].
  - intros p j Hp Hj. rewrite <- (Z2Nat.id p) by lia.
    apply (Hcount (Z.to_nat p)); [lia|done].
  - intros y x Hy Hx. rewrite Hcell by done. split.
    + apply Zsum_nonneg. intros i Hi. apply (Hcount i ltac:(lia)). nia.
    + replace (n_particles * nIterations)
        with (Z.of_nat (Z.to_nat n_particles) * nIterations) by lia.
      rewrite <- Zsum_const. apply Zsum_le. intros i Hi.
      apply (Hcount i ltac:(lia)). nia.
  - rewrite (Zsum_ext _ (fun y => Zsum (fun x =>
               Zsum (fun i => counter grid_size (d_map dev') (Z.of_nat i)
                                (y * G + x)%nat) (Z.to_nat n_particles)) G)).
    2: { intros y Hy. apply Zsum_ext. intros x Hx. by apply Hcell. }
    rewrite (Zsum_ext _ (fun y => Zsum (fun i => Zsum (fun x =>
               counter grid_size (d_map dev') (Z.of_nat i) (y * G + x)%nat) G)
               (Z.to_nat n_particles))).
    2: { intros y Hy. apply Zsum_exchange. }
    rewrite Zsum_exchange.
    replace (n_particles * nIterations)
      with (Z.of_nat (Z.to_nat n_particles) * nIterations) by lia.
    rewrite <- Zsum_const. apply Zsum_le. intros i Hi.
    rewrite (Zsum_rows (counter grid_size (d_map dev') (Z.of_nat i)) G G).
    apply (Hcount i). lia.
Qed.

Lemma conservation_bounds_witness :
  let h := simulate (fun (_ : Z) (k : nat) => Z.of_nat k * 7919 + 13)
             displacement 21 20 (F32.div (F32.of_Z 1) (F32.of_Z 2))
             (F32.of_Z 10) (F32.of_Z 10) 3 in
  0 <= cell (h_grid h) 10 10 <= 20 * 3.
Proof.
  cbv zeta.
  pose proof (conservation_bounds
                (fun (_ : Z) (k : nat) => Z.of_nat k * 7919 + 13)
                displacement 21 20 (F32.div (F32.of_Z 1) (F32.of_Z 2))
                (F32.of_Z 10) (F32.of_Z 10) 3) as H.
  cbv zeta in H. destruct H as (_ & H & _).
  - lia.
  - unfold INT_MAX. lia.
  - lia.
  - lia.
  - unfold UINT_MAX. lia.
  - unfold INT_MAX. lia.
  - apply (H 10%nat 10%nat); lia.
Defined.
(** * Further properties *)

(** ** The map is the histogram of the walks *)

Section Walk.

Variables (n_particles grid_size : Z) (radius : float).
Variable transform : Z -> float.

Hypothesis grid_positive : 0 < grid_size.
Hypothesis grid_fits_int : grid_size * grid_size <= INT_MAX.
Hypothesis map_fits_size_t : n_particles * (grid_size * grid_size) <= SIZE_MAX.

#[local] Abbreviation loop :=
  (Simulation_loop n_particles grid_size radius transform).
#[local] Abbreviation position' := (position n_particles transform).
#[local] Abbreviation visits' :=
  (visits n_particles grid_size radius transform).

Lemma visits_range (rx ry : list float) (ii : Z) (start : float * float)
    (cy cx : Z) (n : nat) :
  0 <= visits' rx ry ii start cy cx n <= Z.of_nat n.
Proof.
  induction n as [|n IH]; [simpl; lia|].
  change (visits' rx ry ii start cy cx (S n))
    with (visits' rx ry ii start cy cx n
          + (if counted grid_size radius
                  (position' rx ry ii start (S n)) cy cx then 1 else 0)).
  destruct (counted _ _ _ _ _); lia.
Qed.

(** The coordinates of particle [ii] after [n] iterations of its thread. *)
Lemma loop_position (n : nat) (ii : Z) (m : memory) :
  0 <= ii < n_particles ->
  (Z.to_nat ii < length (d_particleX m))%nat ->
  (Z.to_nat ii < length (d_particleY m))%nat ->
  let m' := exec (loop n ii 0) m in
  (d_particleX m' !!! Z.to_nat ii, d_particleY m' !!! Z.to_nat ii)
  = position' (d_randomX m) (d_randomY m) ii
      (d_particleX m !!! Z.to_nat ii, d_particleY m !!! Z.to_nat ii) n.
Proof.
  intros Hii HX HY. cbv zeta. induction n as [|n IH].
  - simpl. by rewrite exec_ret.
  - rewrite loop_exec_snoc, Z.add_0_l.
    set (mn := exec (loop n ii 0) m) in *.
    destruct (loop_frame n_particles grid_size radius transform grid_positive
                grid_fits_int map_fits_size_t n ii 0 m Hii)
      as (_ & _ & LX & LY & _).
    fold mn in LX, LY.
    destruct (loop_randoms n_particles grid_size radius transform n ii 0 m)
      as [RX RY].
    fold mn in RX, RY.
    destruct (iteration_particles n_particles grid_size radius transform ii
                (Z.of_nat n) mn) as [-> ->].
    unfold moved. cbn [d_particleX d_particleY].
    rewrite !list_lookup_total_insert_eq by lia.
    rewrite RX, RY.
    change (position' (d_randomX m) (d_randomY m) ii
              (d_particleX m !!! Z.to_nat ii, d_particleY m !!! Z.to_nat ii)
              (S n))
      with (let p := position' (d_randomX m) (d_randomY m) ii
                       (d_particleX m !!! Z.to_nat ii,
                        d_particleY m !!! Z.to_nat ii) n in
            let t := table_index n_particles ii (Z.of_nat n) in
            (F32.add p.1 (transform (F32.to_size_t (d_randomX m !!! t))),
             F32.add p.2 (transform (F32.to_size_t (d_randomY m !!! t))))).
    cbv zeta. by rewrite <- IH.
Qed.

(** What an iteration does to the counter of the cell [(cy, cx)]. *)
Lemma iteration_visit (ii iter : Z) (m : memory) (cy cx : Z) :
  0 <= ii < n_particles -> 0 <= cy < grid_size -> 0 <= cx < grid_size ->
  let c := Z.to_nat (ii * (grid_size * grid_size) + cy * grid_size + cx) in
  (c < length (d_map m))%nat ->
  let m' := iteration_memory n_particles grid_size radius transform ii iter m in
  d_map m' !!! c
  = if counted grid_size radius
         (d_particleX m' !!! Z.to_nat ii, d_particleY m' !!! Z.to_nat ii) cy cx
    then to_size_t (d_map m !!! c + 1) else d_map m !!! c.
Proof.
  intros Hii Hcy Hcx c Hc m'. subst m'.
  rewrite iteration_map.
  destruct (iteration_particles n_particles grid_size radius transform ii
              iter m) as [-> ->].
  set (m1 := moved n_particles transform ii iter m).
  unfold counted. cbn [fst snd].
  destruct (hit grid_size radius ii m1) as [idx|] eqn:Hh.
  - pose proof (hit_spec n_particles grid_size radius grid_positive
                  grid_fits_int map_fits_size_t ii m1 idx Hii Hh) as Hs.
    cbv zeta in Hs. destruct Hs as (Rx & Ry & Hcell & Fx & Fy & ->).
    assert (Hg : in_grid grid_size (d_particleX m1 !!! Z.to_nat ii)
                   (d_particleY m1 !!! Z.to_nat ii) = true).
    { apply in_grid_iff; [|done].
      pose proof (grid_small grid_size grid_positive grid_fits_int). lia. }
    rewrite Hg, Hcell. cbn [andb].
    destruct (Z.eqb_spec (Qfloor (F32.to_Q (d_particleX m1 !!! Z.to_nat ii))) cx)
      as [Ex|Ex];
    destruct (Z.eqb_spec (Qfloor (F32.to_Q (d_particleY m1 !!! Z.to_nat ii))) cy)
      as [Ey|Ey]; cbn [andb].
    + rewrite Ex, Ey. fold c. by rewrite list_lookup_total_insert_eq.
    + rewrite list_lookup_total_insert_ne; [done|]. unfold c. nia.
    + rewrite list_lookup_total_insert_ne; [done|]. unfold c. nia.
    + rewrite list_lookup_total_insert_ne; [done|]. unfold c. nia.
  - unfold hit in Hh. cbv zeta in Hh.
    destruct (in_grid _ _ _ && in_cell _ _ _); [discriminate Hh|done].
Qed.

(** The counter of a cell after [n] iterations. *)
Lemma loop_visits (n : nat) (ii : Z) (m : memory) (cy cx : Z) :
  0 <= ii < n_particles ->
  (Z.to_nat ii < length (d_particleX m))%nat ->
  (Z.to_nat ii < length (d_particleY m))%nat ->
  0 <= cy < grid_size -> 0 <= cx < grid_size ->
  let c := Z.to_nat (ii * (grid_size * grid_size) + cy * grid_size + cx) in
  (c < length (d_map m))%nat ->
  0 <= d_map m !!! c -> d_map m !!! c + Z.of_nat n <= SIZE_MAX ->
  d_map (exec (loop n ii 0) m) !!! c
  = d_map m !!! c
    + visits' (d_randomX m) (d_randomY m) ii
        (d_particleX m !!! Z.to_nat ii, d_particleY m !!! Z.to_nat ii) cy cx n.
Proof.
  intros Hii HX HY Hcy Hcx c Hc H0. induction n as [|n IH]; intros Hn.
  - simpl. rewrite exec_ret. lia.
  - pose proof (loop_position (S n) ii m Hii HX HY) as HP. cbv zeta in HP.
    rewrite loop_exec_snoc, Z.add_0_l in HP |- *.
    set (mn := exec (loop n ii 0) m) in *.
    destruct (loop_frame n_particles grid_size radius transform grid_positive
                grid_fits_int map_fits_size_t n ii 0 m Hii)
      as (_ & _ & _ & _ & LM & _).
    fold mn in LM.
    pose proof (iteration_visit ii (Z.of_nat n) mn cy cx Hii Hcy Hcx) as Hv.
    cbv zeta in Hv. fold c in Hv. rewrite Hv by lia. rewrite HP.
    change (visits' (d_randomX m) (d_randomY m) ii
              (d_particleX m !!! Z.to_nat ii, d_particleY m !!! Z.to_nat ii)
              cy cx (S n))
      with (visits' (d_randomX m) (d_randomY m) ii
              (d_particleX m !!! Z.to_nat ii, d_particleY m !!! Z.to_nat ii)
              cy cx n
            + (if counted grid_size radius
                    (position' (d_randomX m) (d_randomY m) ii
                       (d_particleX m !!! Z.to_nat ii,
                        d_particleY m !!! Z.to_nat ii) (S n)) cy cx
               then 1 else 0)).
    rewrite IH by lia.
    pose proof (visits_range (d_randomX m) (d_randomY m) ii
                  (d_particleX m !!! Z.to_nat ii, d_particleY m !!! Z.to_nat ii)
                  cy cx n) as Hr.
    repeat match goal with
           | |- context [if ?b then _ else _] => destruct b
           end;
      rewrite ?to_size_t_small by lia; lia.
Qed.

End Walk.

(** X1. The thread of particle [ii], run for [I] iterations from a memory
    [m], leaves the particle where the walk through its table entries ends,
    and has added to the counter of every cell the number of iterations
    after which the particle was counted for that cell (as long as the
    counter does not pass the largest [size_t]). *)
Theorem thread_histogram
    (n_particles nIterations grid_size : Z) (radius : float)
    (transform : Z -> float) (blockDim blockIdx threadIdx : Z) (m : memory) :
  0 < grid_size -> grid_size * grid_size <= INT_MAX ->
  n_particles * (grid_size * grid_size) <= SIZE_MAX ->
  let ii := thread_index blockDim blockIdx threadIdx in
  ii < n_particles ->
  (Z.to_nat ii < length (d_particleX m))%nat ->
  (Z.to_nat ii < length (d_particleY m))%nat ->
  let m' := exec (Simulation n_particles nIterations grid_size radius transform
                    blockDim blockIdx threadIdx) m in
  let start := (d_particleX m !!! Z.to_nat ii, d_particleY m !!! Z.to_nat ii) in
  let n := Z.to_nat nIterations in
  (d_particleX m' !!! Z.to_nat ii, d_particleY m' !!! Z.to_nat ii)
  = position n_particles transform (d_randomX m) (d_randomY m) ii start n /\
  (forall cy cx : Z, 0 <= cy < grid_size -> 0 <= cx < grid_size ->
     let c := Z.to_nat (ii * (grid_size * grid_size) + cy * grid_size + cx) in
     (c < length (d_map m))%nat ->
     0 <= d_map m !!! c -> d_map m !!! c + Z.of_nat n <= SIZE_MAX ->
     d_map m' !!! c
     = d_map m !!! c
       + visits n_particles grid_size radius transform
           (d_randomX m) (d_randomY m) ii start cy cx n).
Proof.
  intros HG HG2 HM ii Hlt HX HY. cbv zeta.
  pose proof (thread_index_nonneg blockDim blockIdx threadIdx) as H0.
  fold ii in H0. unfold Simulation. fold ii.
  destruct (Z.leb_spec n_particles ii) as [Hge|_]; [lia|].
  split.
  - by apply (loop_position n_particles grid_size radius transform HG HG2 HM).
  - intros cy cx Hcy Hcx Hc Hz Hn.
    by apply (loop_visits n_particles grid_size radius transform HG HG2 HM).
Qed.

Lemma thread_histogram_witness :
  let m := Memory [F32.of_Z 10] [F32.of_Z 10]
             [F32.of_Z 50; F32.of_Z 99] [F32.of_Z 60; F32.of_Z 0]
             (replicate 441 0) in
  let half := F32.div (F32.of_Z 1) (F32.of_Z 2) in
  d_map (exec (Simulation 1 2 21 half displacement 256 0 0) m) !!! 220%nat
  = 0 + visits 1 21 half displacement (d_randomX m) (d_randomY m) 0
          (F32.of_Z 10, F32.of_Z 10) 10 10 2.
Proof.
  cbv zeta.
  pose proof (thread_histogram 1 2 21 (F32.div (F32.of_Z 1) (F32.of_Z 2))
                displacement 256 0 0
                (Memory [F32.of_Z 10] [F32.of_Z 10]
                   [F32.of_Z 50; F32.of_Z 99] [F32.of_Z 60; F32.of_Z 0]
                   (replicate 441 0))) as H.
  cbv zeta in H. destruct H as (_ & H).
  - lia.
  - unfold INT_MAX. lia.
  - unfold SIZE_MAX. lia.
  - vm_compute. reflexivity.
  - vm_compute. lia.
  - vm_compute. lia.
  - apply (H 10 10); [lia | lia | vm_compute; lia | vm_compute; intros E; discriminate E | vm_compute; intros E; discriminate E].
Defined.

(** The device memory that [simulate] hands to the kernel, and what it
    does with the memory that comes back. *)
Lemma simulate_device
    (rand_after_srand : Z -> nat -> Z) (transform : Z -> float)
    (grid_size n_particles : Z) (radius startX startY : float)
    (nIterations : Z) :
  0 < grid_size -> grid_size * grid_size <= INT_MAX ->
  0 <= n_particles -> n_particles + 255 < 2 ^ 32 ->
  0 <= nIterations <= UINT_MAX ->
  let h := simulate rand_after_srand transform grid_size n_particles radius
             startX startY nIterations in
  let dev0 :=
    Memory (replicate (Z.to_nat n_particles) startX)
           (replicate (Z.to_nat n_particles) startY)
           (h_randomX h) (h_randomY h)
           (replicate (Z.to_nat (n_particles * (grid_size * grid_size))) 0) in
  exists dev' : memory,
    completed n_particles nIterations grid_size radius transform dev0 dev' /\
    h_map h = d_map dev' /\
    h_grid h = reduce n_particles grid_size (d_map dev') (initial_grid grid_size).
Proof.
  intros HG HG2 HP HT HI. cbv zeta.
  pose proof (map_fits n_particles grid_size HP HT HG HG2) as HM.
  unfold simulate, motion_device, motion_device_exec.
  assert (Eu : to_uint nIterations = nIterations)
    by (unfold to_uint, UINT_MAX in *; apply Z.mod_small; lia).
  assert (Ei : to_int grid_size = grid_size)
    by (apply to_int_small; unfold INT_MIN, INT_MAX in *; nia).
  assert (Es : to_size_t grid_size = grid_size)
    by (apply to_size_t_small; unfold SIZE_MAX, INT_MAX in *; nia).
  rewrite Eu, Ei, Es.
  assert (En : to_size_t (to_size_t (n_particles * grid_size) * grid_size)
               = n_particles * (grid_size * grid_size)).
  { assert (0 <= n_particles * grid_size
            <= n_particles * (grid_size * grid_size)) by nia.
    rewrite (to_size_t_small (n_particles * grid_size)) by lia.
    rewrite to_size_t_small by nia. ring. }
  rewrite En, initial_map_eq by lia.
  destruct (fill_random _ _ _) as [rx ry].
  set (zeros := replicate (Z.to_nat (n_particles * (grid_size * grid_size))) 0).
  assert (Hlen : length zeros = Z.to_nat (n_particles * (grid_size * grid_size)))
    by apply length_replicate.
  rewrite (take_ge zeros), (drop_ge zeros) by lia.
  unfold initial_particles.
  rewrite !take_ge by (rewrite length_replicate; lia).
  set (dev0 := Memory (replicate (Z.to_nat n_particles) startX)
                 (replicate (Z.to_nat n_particles) startY) rx ry zeros).
  pose proof (launch_completed n_particles nIterations grid_size radius
                transform HG HG2 HM HP HT (proj1 HI) dev0) as Hc.
  unfold exec in Hc.
  destruct (snd (Simulation_launch _ _ _ _ _ (dev0, []))) as [dev' tr].
  cbn [fst snd] in Hc. cbn [h_randomX h_randomY h_map h_grid].
  exists dev'. rewrite app_nil_r. done.
Qed.

(** The counters and the cells that [simulate] produces. *)
Lemma simulate_counts
    (rand_after_srand : Z -> nat -> Z) (transform : Z -> float)
    (grid_size n_particles : Z) (radius startX startY : float)
    (nIterations : Z) :
  0 < grid_size -> grid_size * grid_size <= INT_MAX ->
  0 <= n_particles -> n_particles + 255 < 2 ^ 32 ->
  0 <= nIterations <= UINT_MAX ->
  n_particles * nIterations <= INT_MAX ->
  let h := simulate rand_after_srand transform grid_size n_particles radius
             startX startY nIterations in
  let walk := fun (p : Z) (y x : Z) =>
    visits n_particles grid_size radius transform (h_randomX h) (h_randomY h)
      p (startX, startY) y x (Z.to_nat nIterations) in
  (forall p y x : Z,
     0 <= p < n_particles -> 0 <= y < grid_size -> 0 <= x < grid_size ->
     h_map h !!! Z.to_nat (p * (grid_size * grid_size) + y * grid_size + x)
     = walk p y x) /\
  (forall y x : nat, Z.of_nat y < grid_size -> Z.of_nat x < grid_size ->
     cell (h_grid h) y x
     = Zsum (fun p => walk (Z.of_nat p) (Z.of_nat y) (Z.of_nat x))
         (Z.to_nat n_particles)).
Proof.
  intros HG HG2 HP HT HI HPI.
  pose proof (map_fits n_particles grid_size HP HT HG HG2) as HM.
  pose proof (simulate_device rand_after_srand transform grid_size n_particles
                radius startX startY nIterations HG HG2 HP HT HI) as Hu.
  cbv zeta in Hu. destruct Hu as (dev' & Hc & E1 & E2).
  cbv zeta. rewrite E1, E2. clear E1 E2.
  set (h := simulate _ _ _ _ _ _ _ _) in *.
  set (dev0 := Memory _ _ _ _ _) in Hc.
  set (walk := fun p y x : Z =>
    visits n_particles grid_size radius transform (h_randomX h) (h_randomY h)
      p (startX, startY) y x (Z.to_nat nIterations)).
  assert (Hcount : forall p y x : Z,
    0 <= p < n_particles -> 0 <= y < grid_size -> 0 <= x < grid_size ->
    d_map dev' !!! Z.to_nat (p * (grid_size * grid_size) + y * grid_size + x)
    = walk p y x).
  { intros p y x Hp Hy Hx.
    destruct Hc as (_ & _ & _ & _ & _ & HA & _).
    destruct (HA (Z.to_nat p) ltac:(lia)) as (_ & _ & A).
    rewrite Z2Nat.id in A by lia.
    assert (Hs : in_slice grid_size p
                   (Z.to_nat (p * (grid_size * grid_size) + y * grid_size + x)))
      by (unfold in_slice; nia).
    rewrite (lookup_total_agree _ _ _ (A _ Hs)).
    unfold solo. rewrite Z2Nat.id by lia.
    pose proof (loop_visits n_particles grid_size radius transform HG HG2 HM
                  (Z.to_nat nIterations) p dev0 y x Hp) as Hv.
    cbv zeta in Hv. rewrite Hv.
    - unfold dev0 at 1 2 3 4 5. cbn [d_map d_particleX d_particleY d_randomX d_randomY].
      rewrite !lookup_total_replicate_2 by nia. by rewrite Z.add_0_l.
    - unfold dev0. cbn [d_particleX]. rewrite length_replicate. lia.
    - unfold dev0. cbn [d_particleY]. rewrite length_replicate. lia.
    - done.
    - done.
    - unfold dev0. cbn [d_map]. rewrite length_replicate. nia.
    - unfold dev0. cbn [d_map]. rewrite lookup_total_replicate_2 by nia. lia.
    - unfold dev0. cbn [d_map]. rewrite lookup_total_replicate_2 by nia.
      unfold SIZE_MAX, UINT_MAX in *. lia. }
  split; [exact Hcount|].
  intros y x Hy Hx.
  pose proof (completed_nonneg n_particles nIterations grid_size radius
                transform dev0 dev' HG HG2 HM HP Hc eq_refl) as Hnn.
  assert (Hsq : square grid_size (initial_grid grid_size)).
  { unfold square, initial_grid. rewrite length_replicate. split; [done|].
    apply Forall_forall. intros row Hrow. apply elem_of_replicate in Hrow as [-> _].
    by rewrite length_replicate. }
  assert (Hint : int_grid (initial_grid grid_size)).
  { unfold int_grid, initial_grid. apply Forall_forall. intros row Hrow.
    apply elem_of_replicate in Hrow as [-> _].
    apply Forall_forall. intros c Hc'. apply elem_of_replicate in Hc' as [-> _].
    unfold is_int, INT_MIN, INT_MAX. lia. }
  destruct (reduce_in_cell n_particles grid_size (d_map dev')
              (initial_grid grid_size) (seqZ 0 n_particles) y x
              ltac:(nia) HM Hnn Hsq Hint (seqZ_particles n_particles) Hy Hx)
    as (_ & _ & Hr).
  fold (reduce n_particles grid_size (d_map dev') (initial_grid grid_size)) in Hr.
  rewrite initial_grid_cell, Z.add_0_l in Hr by lia.
  assert (Es : sumZ (tally grid_size (d_map dev') y x <$> seqZ 0 n_particles)
               = Zsum (fun p => walk (Z.of_nat p) (Z.of_nat y) (Z.of_nat x))
                   (Z.to_nat n_particles)).
  { rewrite <- (Z2Nat.id n_particles) at 1 by done. rewrite sumZ_seqZ.
    apply Zsum_ext. intros i Hi. unfold tally. apply Hcount; lia. }
  rewrite Hr, Es. apply to_int_small.
  assert (0 <= Zsum (fun p => walk (Z.of_nat p) (Z.of_nat y) (Z.of_nat x))
                 (Z.to_nat n_particles)
          <= Z.of_nat (Z.to_nat n_particles) * nIterations).
  { split.
    - apply Zsum_nonneg. intros i Hi. apply visits_range.
    - rewrite <- Zsum_const. apply Zsum_le. intros i Hi.
      pose proof (visits_range n_particles grid_size radius transform
                    (h_randomX h) (h_randomY h) (Z.of_nat i) (startX, startY)
                    (Z.of_nat y) (Z.of_nat x) (Z.to_nat nIterations)).
      unfold walk. lia. }
  rewrite Z2Nat.id in H by lia. unfold walk in H. unfold INT_MIN. lia.
Qed.

Lemma initial_grid_square (grid_size : Z) :
  square grid_size (initial_grid grid_size) /\ int_grid (initial_grid grid_size).
Proof.
  split.
  - unfold square, initial_grid. rewrite length_replicate. split; [done|].
    apply Forall_forall. intros row Hrow.
    apply elem_of_replicate in Hrow as [-> _]. by rewrite length_replicate.
  - unfold int_grid, initial_grid. apply Forall_forall. intros row Hrow.
    apply elem_of_replicate in Hrow as [-> _].
    apply Forall_forall. intros c Hc'. apply elem_of_replicate in Hc' as [-> _].
    unfold is_int, INT_MIN, INT_MAX. lia.
Qed.

(** The grid that [simulate] produces has the shape of the grid that
    [main] set up. *)
Lemma simulate_square
    (rand_after_srand : Z -> nat -> Z) (transform : Z -> float)
    (grid_size n_particles : Z) (radius startX startY : float)
    (nIterations : Z) :
  0 < grid_size -> grid_size * grid_size <= INT_MAX ->
  0 <= n_particles -> n_particles + 255 < 2 ^ 32 ->
  0 <= nIterations <= UINT_MAX ->
  square grid_size
    (h_grid (simulate rand_after_srand transform grid_size n_particles radius
               startX startY nIterations)).
Proof.
  intros HG HG2 HP HT HI.
  pose proof (map_fits n_particles grid_size HP HT HG HG2) as HM.
  pose proof (simulate_device rand_after_srand transform grid_size n_particles
                radius startX startY nIterations HG HG2 HP HT HI) as Hu.
  cbv zeta in Hu. destruct Hu as (dev' & Hc & _ & ->).
  pose proof (completed_nonneg n_particles nIterations grid_size radius
                transform _ dev' HG HG2 HM HP Hc eq_refl) as Hnn.
  destruct (initial_grid_square grid_size) as [Hsq Hint].
  destruct (reduce_in_cell n_particles grid_size (d_map dev')
              (initial_grid grid_size) (seqZ 0 n_particles) O O
              ltac:(nia) HM Hnn Hsq Hint (seqZ_particles n_particles)
              ltac:(lia) ltac:(lia)) as (H & _).
  exact H.
Qed.

(** X2. The grid that [simulate] produces is the histogram of the walks:
    the counter of particle [p] for a cell is the number of iterations
    after which [p] was counted for that cell, and the cell of the grid is
    the sum of these numbers over the particles; the grid has [G] rows of
    [G] cells. The walks start at [(startX, startY)] and read the tables
    that [motion_device] filled. *)
Theorem simulate_histogram
    (rand_after_srand : Z -> nat -> Z) (transform : Z -> float)
    (grid_size n_particles : Z) (radius startX startY : float)
    (nIterations : Z) :
  0 < grid_size -> grid_size * grid_size <= INT_MAX ->
  0 <= n_particles -> n_particles + 255 < 2 ^ 32 ->
  0 <= nIterations <= UINT_MAX ->
  n_particles * nIterations <= INT_MAX ->
  let h := simulate rand_after_srand transform grid_size n_particles radius
             startX startY nIterations in
  let walk := fun (p : Z) (y x : Z) =>
    visits n_particles grid_size radius transform (h_randomX h) (h_randomY h)
      p (startX, startY) y x (Z.to_nat nIterations) in
  (forall p y x : Z,
     0 <= p < n_particles -> 0 <= y < grid_size -> 0 <= x < grid_size ->
     h_map h !!! Z.to_nat (p * (grid_size * grid_size) + y * grid_size + x)
     = walk p y x) /\
  (forall y x : nat, Z.of_nat y < grid_size -> Z.of_nat x < grid_size ->
     cell (h_grid h) y x
     = Zsum (fun p => walk (Z.of_nat p) (Z.of_nat y) (Z.of_nat x))
         (Z.to_nat n_particles)) /\
  square grid_size (h_grid h).
Proof.
  intros HG HG2 HP HT HI HPI.
  pose proof (simulate_counts rand_after_srand transform grid_size n_particles
                radius startX startY nIterations HG HG2 HP HT HI HPI) as H.
  cbv zeta in H. destruct H as [H1 H2]. cbv zeta.
  split; [exact H1|]. split; [exact H2|].
  by apply simulate_square.
Qed.

Lemma simulate_histogram_witness :
  let rand := fun (_ : Z) (k : nat) => Z.of_nat k * 7919 + 13 in
  let half := F32.div (F32.of_Z 1) (F32.of_Z 2) in
  let h := simulate rand displacement 21 20 half (F32.of_Z 10) (F32.of_Z 10) 3 in
  cell (h_grid h) 10 10
  = Zsum (fun p => visits 20 21 half displacement (h_randomX h) (h_randomY h)
                     (Z.of_nat p) (F32.of_Z 10, F32.of_Z 10) 10 10 3) 20.
Proof.
  cbv zeta.
  pose proof (simulate_histogram
                (fun (_ : Z) (k : nat) => Z.of_nat k * 7919 + 13)
                displacement 21 20 (F32.div (F32.of_Z 1) (F32.of_Z 2))
                (F32.of_Z 10) (F32.of_Z 10) 3) as H.
  cbv zeta in H. destruct H as (_ & H & _).
  - lia.
  - unfold INT_MAX. lia.
  - lia.
  - lia.
  - unfold UINT_MAX. lia.
  - unfold INT_MAX. lia.
  - apply (H 10%nat 10%nat); lia.
Defined.

(** ** Memory safety and freedom from races *)

Lemma table_index_eq (n_particles ii iter : Z) :
  0 <= ii < n_particles -> 0 <= iter ->
  (iter + 1) * n_particles <= SIZE_MAX + 1 ->
  Z.of_nat (table_index n_particles ii iter) = iter * n_particles + ii.
Proof.
  intros Hii Hiter Hfit. unfold table_index.
  rewrite (to_size_t_small (iter * n_particles)) by nia.
  rewrite to_size_t_small by nia. nia.
Qed.

Lemma iteration_in_bounds
    (n_particles nIterations grid_size : Z) (radius : float)
    (transform : Z -> float) (ii iter : Z) (m : memory) :
  0 < grid_size -> grid_size * grid_size <= INT_MAX ->
  n_particles * (grid_size * grid_size) <= SIZE_MAX ->
  n_particles * nIterations <= SIZE_MAX ->
  0 <= ii < n_particles -> 0 <= iter < nIterations ->
  Forall (in_bounds n_particles nIterations grid_size)
    (iteration_accesses n_particles grid_size radius transform ii iter m).
Proof.
  intros HG HG2 HM HI Hii Hiter.
  assert (Ht : Z.of_nat (table_index n_particles ii iter)
               < n_particles * nIterations).
  { rewrite table_index_eq by (try done; try lia; nia). nia. }
  unfold iteration_accesses. apply Forall_app. split.
  - repeat (apply Forall_cons; split; [unfold in_bounds; cbn; lia|]).
    apply Forall_nil_2.
  - destruct (hit _ _ _ _) as [idx|] eqn:Hh; [|apply Forall_nil_2].
    destruct (hit_in_slice n_particles grid_size radius HG HG2 HM ii _ idx
                Hii Hh) as [_ Hs].
    pose proof (slice_below n_particles grid_size HG ii _ Hii Hs).
    repeat (apply Forall_cons; split; [unfold in_bounds; cbn; lia|]).
    apply Forall_nil_2.
Qed.

Lemma loop_in_bounds
    (n_particles nIterations grid_size : Z) (radius : float)
    (transform : Z -> float) (n : nat) (ii iter : Z) (m : memory) :
  0 < grid_size -> grid_size * grid_size <= INT_MAX ->
  n_particles * (grid_size * grid_size) <= SIZE_MAX ->
  n_particles * nIterations <= SIZE_MAX ->
  0 <= ii < n_particles -> 0 <= iter -> iter + Z.of_nat n <= nIterations ->
  Forall (in_bounds n_particles nIterations grid_size)
    (accesses (Simulation_loop n_particles grid_size radius transform n ii iter)
       m).
Proof.
  intros HG HG2 HM HI Hii. revert iter m.
  induction n as [|n IH]; intros iter m Hiter Hn.
  - apply Forall_nil_2.
  - rewrite loop_trace_S. apply Forall_app. split.
    + apply iteration_in_bounds; try done; lia.
    + apply IH; lia.
Qed.

Lemma thread_in_bounds
    (n_particles nIterations grid_size : Z) (radius : float)
    (transform : Z -> float) (blockDim blockIdx threadIdx : Z) (m : memory) :
  0 < grid_size -> grid_size * grid_size <= INT_MAX ->
  n_particles * (grid_size * grid_size) <= SIZE_MAX ->
  0 <= nIterations -> n_particles * nIterations <= SIZE_MAX ->
  Forall (in_bounds n_particles nIterations grid_size)
    (accesses (Simulation n_particles nIterations grid_size radius transform
                 blockDim blockIdx threadIdx) m).
Proof.
  intros HG HG2 HM H0 HI. unfold Simulation.
  pose proof (thread_index_nonneg blockDim blockIdx threadIdx).
  destruct (Z.leb_spec n_particles (thread_index blockDim blockIdx threadIdx)).
  - apply Forall_nil_2.
  - apply loop_in_bounds; try done; lia.
Qed.

Lemma threads_in_bounds
    (n_particles nIterations grid_size : Z) (radius : float)
    (transform : Z -> float) (l : list nat) (m : memory) :
  0 < grid_size -> grid_size * grid_size <= INT_MAX ->
  n_particles * (grid_size * grid_size) <= SIZE_MAX ->
  0 <= nIterations -> n_particles * nIterations <= SIZE_MAX ->
  Forall (in_bounds n_particles nIterations grid_size)
    (accesses
       (foldr (fun k rest =>
                 thread n_particles nIterations grid_size radius transform k;;
                 rest) (mret tt) l) m).
Proof.
  intros HG HG2 HM H0 HI. revert m.
  induction l as [|k l IH]; intros m.
  - apply Forall_nil_2.
  - cbn [foldr]. rewrite accesses_bind.
    + apply Forall_app. split; [|apply IH].
      by apply thread_in_bounds.
    + apply thread_appends.
    + intros _. apply threads_appends.
Qed.

(** X3. Every access of the kernel is inside the extents that
    [motion_device] gives the device buffers: the table entries read are
    below [P * I], the coordinates read and written below [P] and the
    counters below [P * G * G]. This holds for one thread, whatever its
    block and thread numbers, and for the launch as a whole. *)
Theorem kernel_accesses_in_bounds
    (n_particles nIterations grid_size : Z) (radius : float)
    (transform : Z -> float) (m : memory) :
  0 < grid_size -> grid_size * grid_size <= INT_MAX ->
  n_particles * (grid_size * grid_size) <= SIZE_MAX ->
  0 <= nIterations -> n_particles * nIterations <= SIZE_MAX ->
  (forall (blockDim blockIdx threadIdx : Z) (a : access),
     a ∈ accesses (Simulation n_particles nIterations grid_size radius
                     transform blockDim blockIdx threadIdx) m ->
     in_bounds n_particles nIterations grid_size a) /\
  (forall a : access,
     a ∈ accesses (Simulation_launch n_particles nIterations grid_size radius
                     transform) m ->
     in_bounds n_particles nIterations grid_size a).
Proof.
  intros HG HG2 HM H0 HI. split.
  - intros bd bi ti a. apply Forall_forall. by apply thread_in_bounds.
  - intros a. apply Forall_forall. unfold Simulation_launch.
    by apply threads_in_bounds.
Qed.

Lemma kernel_accesses_in_bounds_witness :
  let m := Memory [F32.of_Z 10; F32.of_Z 10] [F32.of_Z 10; F32.of_Z 10]
             (replicate 6 (F32.of_Z 50)) (replicate 6 (F32.of_Z 60))
             (replicate 882 0) in
  Forall (in_bounds 2 3 21)
    (accesses (Simulation_launch 2 3 21 (F32.div (F32.of_Z 1) (F32.of_Z 2))
                 displacement) m).
Proof.
  cbv zeta. apply Forall_forall.
  pose proof (kernel_accesses_in_bounds 2 3 21
                (F32.div (F32.of_Z 1) (F32.of_Z 2)) displacement
                (Memory [F32.of_Z 10; F32.of_Z 10] [F32.of_Z 10; F32.of_Z 10]
                   (replicate 6 (F32.of_Z 50)) (replicate 6 (F32.of_Z 60))
                   (replicate 882 0))) as H.
  destruct H as (_ & H).
  - lia.
  - unfold INT_MAX. lia.
  - unfold SIZE_MAX. lia.
  - lia.
  - unfold SIZE_MAX. lia.
  - exact H.
Defined.

Lemma footprint_conflict (grid_size p q : Z) (a b : access) :
  0 < grid_size -> 0 <= p -> 0 <= q -> p <> q ->
  footprint grid_size p a -> footprint grid_size q b -> ~ conflict a b.
Proof.
  intros HG Hp Hq Hne Ha Hb [Ht Hw].
  destruct a as [[[] i|i]|[[] i|i]], b as [[[] j|j]|[[] j|j]];
    cbn in Ht, Hw, Ha, Hb; try discriminate Ht; try done;
    try (destruct Hw as [Hw|Hw]; discriminate Hw);
    try (injection Ht as <-; subst i; lia);
    try (injection Ht as <-; by apply (slices_disjoint grid_size HG p q i)).
Qed.

(** X4. The launch has no data race: two different threads of the launch
    never make conflicting accesses (two accesses to the same place of
    which one is a write), whatever memory each of them runs from. So the
    kernel needs no atomic increment and no barrier. *)
Theorem launch_race_free
    (n_particles nIterations grid_size : Z) (radius : float)
    (transform : Z -> float) (k1 k2 : nat) (m1 m2 : memory) (a b : access) :
  0 < grid_size -> grid_size * grid_size <= INT_MAX ->
  n_particles * (grid_size * grid_size) <= SIZE_MAX ->
  0 <= n_particles -> n_particles + 255 < 2 ^ 32 ->
  (k1 < n_threads n_particles)%nat -> (k2 < n_threads n_particles)%nat ->
  k1 <> k2 ->
  a ∈ accesses (thread n_particles nIterations grid_size radius transform k1)
        m1 ->
  b ∈ accesses (thread n_particles nIterations grid_size radius transform k2)
        m2 ->
  ~ conflict a b.
Proof.
  intros HG HG2 HM HP HT Hk1 Hk2 Hne Ha Hb.
  rewrite thread_run in Ha, Hb by done.
  destruct (Z.leb_spec n_particles (Z.of_nat k1)) as [|H1];
    [by apply elem_of_nil in Ha|].
  destruct (Z.leb_spec n_particles (Z.of_nat k2)) as [|H2];
    [by apply elem_of_nil in Hb|].
  apply (footprint_conflict grid_size (Z.of_nat k1) (Z.of_nat k2));
    [done | lia | lia | lia | |].
  - eapply Forall_forall; [|exact Ha].
    apply loop_footprint; try done; lia.
  - eapply Forall_forall; [|exact Hb].
    apply loop_footprint; try done; lia.
Qed.

Lemma launch_race_free_witness :
  let m := Memory [F32.of_Z 10; F32.of_Z 10] [F32.of_Z 10; F32.of_Z 10]
             [F32.of_Z 50; F32.of_Z 50] [F32.of_Z 60; F32.of_Z 60]
             (replicate 882 0) in
  let run := fun k =>
    accesses (thread 2 1 21 (F32.div (F32.of_Z 1) (F32.of_Z 2)) displacement k)
      m in
  Wr (Counter 220) ∈ run 0%nat /\ Rd (Counter 661) ∈ run 1%nat /\
  ~ conflict (Wr (Counter 220)) (Rd (Counter 661)).
Proof.
  cbv zeta.
  assert (H0 : Wr (Counter 220)
               ∈ accesses (thread 2 1 21 (F32.div (F32.of_Z 1) (F32.of_Z 2))
                             displacement 0)
                   (Memory [F32.of_Z 10; F32.of_Z 10]
                      [F32.of_Z 10; F32.of_Z 10] [F32.of_Z 50; F32.of_Z 50]
                      [F32.of_Z 60; F32.of_Z 60] (replicate 882 0))).
  { apply list_elem_of_In. vm_compute.
    repeat (first [left; reflexivity | right]). }
  assert (H1 : Rd (Counter 661)
               ∈ accesses (thread 2 1 21 (F32.div (F32.of_Z 1) (F32.of_Z 2))
                             displacement 1)
                   (Memory [F32.of_Z 10; F32.of_Z 10]
                      [F32.of_Z 10; F32.of_Z 10] [F32.of_Z 50; F32.of_Z 50]
                      [F32.of_Z 60; F32.of_Z 60] (replicate 882 0))).
  { apply list_elem_of_In. vm_compute.
    repeat (first [left; reflexivity | right]). }
  split; [exact H0|]. split; [exact H1|].
  refine (launch_race_free 2 1 21 (F32.div (F32.of_Z 1) (F32.of_Z 2))
            displacement 0 1 _ _ _ _ _ _ _ _ _ _ _ _ H0 H1).
  - lia.
  - unfold INT_MAX. lia.
  - unfold SIZE_MAX. lia.
  - lia.
  - lia.
  - vm_compute. lia.
  - vm_compute. lia.
  - intros E. discriminate E.
Defined.

(** ** The tables of random values *)

Lemma fill_random_lookup (rand : nat -> Z) (n calls : nat) :
  length (fill_random rand n calls).1 = n /\
  length (fill_random rand n calls).2 = n /\
  (forall i : nat, (i < n)%nat ->
     (fill_random rand n calls).1 !! i
     = Some (F32.of_Z (draw (rand (calls + 2 * i)%nat))) /\
     (fill_random rand n calls).2 !! i
     = Some (F32.of_Z (draw (rand (calls + 2 * i + 1)%nat)))).
Proof.
  revert calls. induction n as [|n IH]; intros calls.
  - simpl. split; [done|]. split; [done|]. intros i Hi. lia.
  - cbn [fill_random]. specialize (IH (S (S calls))).
    destruct (fill_random rand n (S (S calls))) as [xs ys].
    cbn [fst snd length] in *. destruct IH as (LX & LY & IH).
    split; [lia|]. split; [lia|]. intros [|i] Hi.
    + replace (calls + 2 * 0)%nat with calls by lia.
      replace (calls + 1)%nat with (S calls) by lia.
      split; reflexivity.
    + destruct (IH i ltac:(lia)) as [EX EY].
      replace (calls + 2 * S i)%nat with (S (S calls) + 2 * i)%nat by lia.
      split; [exact EX | exact EY].
Qed.

Lemma motion_device_tables
    (rand_after_srand : Z -> nat -> Z)
    (exec : memory -> memory * list access)
    (particleX particleY : list float) (grid : list (list Z))
    (grid_size n_particles nIterations : Z) (radius : float) (map : list Z) :
  let h := motion_device_exec rand_after_srand exec particleX particleY grid
             grid_size n_particles nIterations radius map in
  let t := fill_random (rand_after_srand 17)
             (Z.to_nat (to_size_t (n_particles * nIterations))) 0 in
  h_randomX h = t.1 /\ h_randomY h = t.2.
Proof.
  cbv zeta. unfold motion_device_exec.
  destruct (fill_random _ _ _) as [rx ry].
  destruct (exec _) as [dev' tr]. done.
Qed.

Lemma draw_read_back (r : Z) : F32.to_size_t (F32.of_Z (draw r)) = draw r.
Proof.
  pose proof (displacement_table (draw r) (draw_range r)) as Hok.
  unfold displacement_ok in Hok.
  repeat (apply andb_true_iff in Hok as [Hok _]).
  by apply Z.eqb_eq in Hok.
Qed.

(** X5. The two tables that [motion_device] fills hold [P * I] entries
    each, and the calls of [rand()] after [srand(17)] are consumed in
    turns: entry [t] of [randomX] comes from call number [2 t] and entry
    [t] of [randomY] from call number [2 t + 1]. Iteration [iter] of
    particle [ii] reads the entries [t = iter * P + ii], and what the kernel
    recovers from them are these two draws, [rand() % 100]. *)
Theorem random_tables_layout
    (rand_after_srand : Z -> nat -> Z) (transform : Z -> float)
    (particleX particleY : list float) (grid : list (list Z))
    (grid_size n_particles nIterations : Z) (radius : float) (map : list Z) :
  0 <= n_particles -> 0 <= nIterations ->
  n_particles * nIterations <= SIZE_MAX ->
  let h := motion_device rand_after_srand transform particleX particleY grid
             grid_size n_particles nIterations radius map in
  let rand := rand_after_srand 17 in
  Z.of_nat (length (h_randomX h)) = n_particles * nIterations /\
  Z.of_nat (length (h_randomY h)) = n_particles * nIterations /\
  (forall ii iter : Z, 0 <= ii < n_particles -> 0 <= iter < nIterations ->
     let t := table_index n_particles ii iter in
     Z.of_nat t = iter * n_particles + ii /\
     h_randomX h !! t = Some (F32.of_Z (draw (rand (2 * t)%nat))) /\
     h_randomY h !! t = Some (F32.of_Z (draw (rand (2 * t + 1)%nat))) /\
     F32.to_size_t (h_randomX h !!! t) = draw (rand (2 * t)%nat) /\
     F32.to_size_t (h_randomY h !!! t) = draw (rand (2 * t + 1)%nat)).
Proof.
  intros HP HI HPI. cbv zeta. unfold motion_device.
  destruct (motion_device_tables rand_after_srand
              (fun dev => snd (Simulation_launch n_particles nIterations
                                 grid_size radius transform (dev, [])))
              particleX particleY grid grid_size n_particles nIterations
              radius map) as [-> ->].
  rewrite to_size_t_small by nia.
  destruct (fill_random_lookup (rand_after_srand 17)
              (Z.to_nat (n_particles * nIterations)) 0) as (LX & LY & HL).
  split; [rewrite LX; nia|]. split; [rewrite LY; nia|].
  intros ii iter Hii Hiter.
  assert (Et : Z.of_nat (table_index n_particles ii iter)
               = iter * n_particles + ii)
    by (apply table_index_eq; try done; try lia; nia).
  destruct (HL (table_index n_particles ii iter) ltac:(nia)) as [EX EY].
  cbn [Nat.add] in EX, EY.
  split; [done|]. split; [done|]. split; [done|].
  rewrite (list_lookup_total_correct _ _ _ EX).
  rewrite (list_lookup_total_correct _ _ _ EY).
  split; apply draw_read_back.
Qed.

Lemma random_tables_layout_witness :
  let rand := fun (_ : Z) (k : nat) => Z.of_nat k * 7919 + 13 in
  let h := motion_device rand displacement [F32.of_Z 1; F32.of_Z 1]
             [F32.of_Z 1; F32.of_Z 1] [[0; 0; 0]; [0; 0; 0]; [0; 0; 0]]
             3 2 2 (F32.div (F32.of_Z 1) (F32.of_Z 2)) (replicate 18 0) in
  F32.to_size_t (h_randomY h !!! 3%nat) = draw (rand 17 7%nat).
Proof.
  cbv zeta.
  pose proof (random_tables_layout
                (fun (_ : Z) (k : nat) => Z.of_nat k * 7919 + 13) displacement
                [F32.of_Z 1; F32.of_Z 1] [F32.of_Z 1; F32.of_Z 1]
                [[0; 0; 0]; [0; 0; 0]; [0; 0; 0]] 3 2 2
                (F32.div (F32.of_Z 1) (F32.of_Z 2)) (replicate 18 0)) as H.
  cbv zeta in H. destruct H as (_ & _ & H).
  - lia.
  - lia.
  - unfold SIZE_MAX. lia.
  - destruct (H 1 1) as (_ & _ & _ & _ & E); [lia | lia |]. exact E.
Defined.

(** ** The geometry of the launch *)

(** X6. The launch has [ceil(P / 256)] blocks of 256 threads: at least
    [P] threads and fewer than [P + 256]; thread number [k] of the launch
    computes the index [k]; so every particle has exactly one thread, and
    the threads from [P] on return at once. *)
Theorem one_thread_per_particle
    (n_particles nIterations grid_size : Z) (radius : float)
    (transform : Z -> float) :
  0 <= n_particles -> n_particles + 255 < 2 ^ 32 ->
  Z.of_nat (n_threads n_particles) = (n_particles + 255) / 256 * 256 /\
  n_particles <= Z.of_nat (n_threads n_particles) < n_particles + 256 /\
  (forall p : Z, 0 <= p < n_particles ->
     exists k : nat,
       (k < n_threads n_particles)%nat /\
       thread_index blockDim (Z.of_nat k / blockDim) (Z.of_nat k mod blockDim)
       = p /\
       forall k' : nat,
         (k' < n_threads n_particles)%nat ->
         thread_index blockDim (Z.of_nat k' / blockDim)
           (Z.of_nat k' mod blockDim) = p ->
         k' = k) /\
  (forall (k : nat) (m : memory),
     (k < n_threads n_particles)%nat -> n_particles <= Z.of_nat k ->
     let run := thread n_particles nIterations grid_size radius transform k in
     exec run m = m /\ accesses run m = []).
Proof.
  intros HP HT.
  pose proof (n_threads_cover n_particles HP HT) as Hc.
  split; [by apply n_threads_eq|]. split; [done|]. split.
  - intros p Hp. exists (Z.to_nat p). split; [lia|]. split.
    + rewrite (thread_index_launch n_particles) by (try done; lia). lia.
    + intros k' Hk' E.
      rewrite (thread_index_launch n_particles) in E by done. lia.
  - intros k m Hk Hge. cbv zeta.
    rewrite (thread_run n_particles nIterations grid_size radius transform
               HP HT k Hk).
    destruct (Z.leb_spec n_particles (Z.of_nat k)); [done|lia].
Qed.

Lemma one_thread_per_particle_witness :
  Z.of_nat (n_threads 20) = 256 /\
  thread_index blockDim (Z.of_nat 19 / blockDim) (Z.of_nat 19 mod blockDim)
  = 19.
Proof.
  pose proof (one_thread_per_particle 20 50 21
                (F32.div (F32.of_Z 1) (F32.of_Z 2)) displacement) as H.
  destruct H as (E & _ & H & _).
  - lia.
  - lia.
  - split; [rewrite E; reflexivity|].
    destruct (H 19) as (k & Hk & Ek & Hu); [lia|].
    reflexivity.
Defined.

(** ** The sign and the order of the displacements *)




(** ** What a schedule has done so far *)

(** X8. At the end of any schedule, fair or not: the thread of particle
    [k] has run as many iterations as the schedule has picked it, up to
    [I]; the particle is where that many steps of its walk bring it; and
    every one of its counters has gone up by the number of those steps
    after which the particle was counted for the cell. The other threads
    have no influence on any of this. *)
Theorem schedule_prefix_histogram
    (n_particles nIterations grid_size : Z) (radius : float)
    (transform : Z -> float) (s : list nat) (m0 : memory) (k : nat) :
  0 < grid_size -> grid_size * grid_size <= INT_MAX ->
  0 <= n_particles -> n_particles + 255 < 2 ^ 32 -> 0 <= nIterations ->
  schedule n_particles s -> Z.of_nat k < n_particles ->
  (k < length (d_particleX m0))%nat -> (k < length (d_particleY m0))%nat ->
  let c := run_schedule n_particles nIterations grid_size radius transform s
             (initial n_particles m0) in
  let m := fst (c_state c) in
  let n := Z.to_nat (Z.min nIterations (Z.of_nat (count_occ Nat.eq_dec s k))) in
  let start := (d_particleX m0 !!! k, d_particleY m0 !!! k) in
  c_iter c !!! k = Z.of_nat n /\
  (d_particleX m !!! k, d_particleY m !!! k)
  = position n_particles transform (d_randomX m0) (d_randomY m0) (Z.of_nat k)
      start n /\
  (forall cy cx : Z, 0 <= cy < grid_size -> 0 <= cx < grid_size ->
     let j := Z.to_nat (Z.of_nat k * (grid_size * grid_size)
                        + cy * grid_size + cx) in
     (j < length (d_map m0))%nat ->
     0 <= d_map m0 !!! j -> d_map m0 !!! j + Z.of_nat n <= SIZE_MAX ->
     d_map m !!! j
     = d_map m0 !!! j
       + visits n_particles grid_size radius transform
           (d_randomX m0) (d_randomY m0) (Z.of_nat k) start cy cx n).
Proof.
  intros HG HG2 HP HT HI Hs Hk HX HY.
  pose proof (map_fits n_particles grid_size HP HT HG HG2) as HM.
  pose proof (n_threads_cover n_particles HP HT) as Hcover.
  cbv zeta.
  set (c := run_schedule n_particles nIterations grid_size radius transform s
              (initial n_particles m0)).
  set (n := Z.to_nat (Z.min nIterations (Z.of_nat (count_occ Nat.eq_dec s k)))).
  assert (Hiter : c_iter c !!! k = Z.of_nat n).
  { unfold c.
    rewrite (run_iter n_particles nIterations grid_size radius transform
               HP HT s k (initial n_particles m0) Hs).
    - unfold initial. cbn [c_iter].
      rewrite lookup_total_replicate_2 by lia. unfold n. lia.
    - unfold initial. cbn [c_iter]. apply length_replicate.
    - lia.
    - done.
    - unfold initial. cbn [c_iter].
      rewrite lookup_total_replicate_2 by lia. done. }
  pose proof (scheduled_run n_particles nIterations grid_size radius transform
                HG HG2 HM HP HT HI m0 s (initial n_particles m0) Hs
                (scheduled_initial n_particles nIterations grid_size radius
                   transform HG HG2 HM HP HT HI m0)) as Hinv.
  fold c in Hinv.
  destruct Hinv as (_ & _ & _ & _ & _ & _ & HA & _).
  destruct (HA k Hk) as (n' & En' & _ & AX & AY & AM).
  assert (n' = n) as -> by lia.
  unfold solo in AX, AY, AM.
  split; [done|]. split.
  - rewrite Nat2Z.id in AX, AY.
    rewrite (lookup_total_agree _ _ _ AX), (lookup_total_agree _ _ _ AY).
    pose proof (loop_position n_particles grid_size radius transform HG HG2 HM
                  n (Z.of_nat k) m0 ltac:(lia)) as HP'.
    cbv zeta in HP'. rewrite Nat2Z.id in HP'. by apply HP'.
  - intros cy cx Hcy Hcx Hj H0 Hn.
    assert (Hsl : in_slice grid_size (Z.of_nat k)
                    (Z.to_nat (Z.of_nat k * (grid_size * grid_size)
                               + cy * grid_size + cx)))
      by (unfold in_slice; nia).
    rewrite (lookup_total_agree _ _ _ (AM _ Hsl)).
    pose proof (loop_visits n_particles grid_size radius transform HG HG2 HM
                  n (Z.of_nat k) m0 cy cx ltac:(lia)) as HV.
    cbv zeta in HV. rewrite Nat2Z.id in HV. by apply HV.
Qed.

Lemma schedule_prefix_histogram_witness :
  let m0 := Memory [F32.of_Z 10; F32.of_Z 10] [F32.of_Z 10; F32.of_Z 10]
              (replicate 6 (F32.of_Z 50)) (replicate 6 (F32.of_Z 60))
              (replicate 882 0) in
  let half := F32.div (F32.of_Z 1) (F32.of_Z 2) in
  c_iter (run_schedule 2 3 21 half displacement [1; 0; 1]%nat (initial 2 m0))
    !!! 1%nat = 2.
Proof.
  cbv zeta.
  pose proof (schedule_prefix_histogram 2 3 21
                (F32.div (F32.of_Z 1) (F32.of_Z 2)) displacement [1; 0; 1]%nat
                (Memory [F32.of_Z 10; F32.of_Z 10] [F32.of_Z 10; F32.of_Z 10]
                   (replicate 6 (F32.of_Z 50)) (replicate 6 (F32.of_Z 60))
                   (replicate 882 0)) 1%nat) as H.
  cbv zeta in H. destruct H as (H & _).
  - lia.
  - unfold INT_MAX. lia.
  - lia.
  - lia.
  - lia.
  - unfold schedule. repeat (apply Forall_cons; split; [vm_compute; lia|]).
    apply Forall_nil_2.
  - lia.
  - cbn [d_particleX length]. lia.
  - cbn [d_particleY length]. lia.
  - exact H.
Defined.

(** ** The printed grid *)

Lemma digit_plain (d : Z) : 0 <= d < 10 -> digit d <> "010"%char.
Proof.
  intros Hd.
  assert (H : forallb (fun d => negb (Ascii.eqb (digit d) "010"%char))
                (seqZ 0 10) = true) by (vm_compute; reflexivity).
  rewrite forallb_forall in H.
  specialize (H d ltac:(apply list_elem_of_In, elem_of_seqZ; lia)).
  apply negb_true_iff in H. intros E. rewrite E in H. discriminate H.
Qed.

Lemma digits_small (fuel : nat) (n : Z) (acc : list ascii) :
  n < 10 -> digits (S fuel) n acc = digit (n mod 10) :: acc.
Proof. intros Hn. cbn [digits]. destruct (Z.ltb_spec n 10); [done|lia]. Qed.

Lemma digits_large (fuel : nat) (n : Z) (acc : list ascii) :
  10 <= n ->
  digits (S fuel) n acc = digits fuel (n / 10) (digit (n mod 10) :: acc).
Proof. intros Hn. cbn [digits]. destruct (Z.ltb_spec n 10); [lia|done]. Qed.

Lemma digits_longer (fuel : nat) (n : Z) (acc : list ascii) :
  (length acc <= length (digits fuel n acc))%nat.
Proof.
  revert n acc. induction fuel as [|fuel IH]; intros n acc; [done|].
  cbn [digits]. destruct (n <? 10).
  - cbn [length]. lia.
  - etrans; [|apply IH]. cbn [length]. lia.
Qed.

Lemma digits_longer_S (fuel : nat) (n : Z) (acc : list ascii) :
  (S (length acc) <= length (digits (S fuel) n acc))%nat.
Proof.
  cbn [digits]. destruct (n <? 10); [done|].
  etrans; [|apply digits_longer]. done.
Qed.

Lemma digits_plain (fuel : nat) (n : Z) (acc : list ascii) :
  "010"%char ∉ acc -> "010"%char ∉ digits fuel n acc.
Proof.
  revert n acc. induction fuel as [|fuel IH]; intros n acc Hacc; [done|].
  assert (Hd : "010"%char ∉ digit (n mod 10) :: acc).
  { apply not_elem_of_cons. split; [|done].
    intros E. symmetry in E. revert E. apply digit_plain.
    apply Z.mod_pos_bound. lia. }
  cbn [digits]. destruct (n <? 10); [done|]. by apply IH.
Qed.

(** The number of characters of a value: up to three exactly from -99 to
    999. *)
Lemma show_int_length (v : Z) :
  (length (show_int v) <= 3)%nat <-> -99 <= v <= 999.
Proof.
  unfold show_int. destruct (Z.ltb_spec v 0) as [Hneg|Hpos].
  - destruct (Z.lt_ge_cases (- v) 10) as [H1|H1].
    { rewrite digits_small by done. cbn [length]. lia. }
    rewrite digits_large by done.
    destruct (Z.lt_ge_cases (- v) 100) as [H2|H2].
    { rewrite digits_small by (apply Z.div_lt_upper_bound; lia).
      cbn [length]. lia. }
    rewrite digits_large by (apply Z.div_le_lower_bound; lia).
    pose proof (digits_longer_S 7 (- v / 10 / 10)
                  [digit ((- v / 10) mod 10); digit (- v mod 10)]) as HL.
    cbn [length] in *. lia.
  - destruct (Z.lt_ge_cases v 10) as [H1|H1].
    { rewrite digits_small by done. cbn [length]. lia. }
    rewrite digits_large by done.
    destruct (Z.lt_ge_cases v 100) as [H2|H2].
    { rewrite digits_small by (apply Z.div_lt_upper_bound; lia).
      cbn [length]. lia. }
    rewrite digits_large by (apply Z.div_le_lower_bound; lia).
    destruct (Z.lt_ge_cases v 1000) as [H3|H3].
    { rewrite digits_small
        by (apply Z.div_lt_upper_bound; [lia|];
            apply Z.div_lt_upper_bound; lia).
      cbn [length]. lia. }
    rewrite digits_large
      by (apply Z.div_le_lower_bound; [lia|];
          apply Z.div_le_lower_bound; lia).
    pose proof (digits_longer_S 6 (v / 10 / 10 / 10)
                  [digit ((v / 10 / 10) mod 10); digit ((v / 10) mod 10);
                   digit (v mod 10)]) as HL.
    cbn [length] in *. lia.
Qed.

Lemma show_int_plain (v : Z) : "010"%char ∉ show_int v.
Proof.
  unfold show_int. destruct (v <? 0).
  - apply not_elem_of_cons. split; [intros E; discriminate E|].
    apply digits_plain, not_elem_of_nil.
  - apply digits_plain, not_elem_of_nil.
Qed.

Lemma setw_length (w : nat) (s : list ascii) :
  length (setw w s) = Nat.max w (length s).
Proof. unfold setw. rewrite length_app, length_replicate. lia. Qed.

Lemma setw_plain (w : nat) (s : list ascii) :
  "010"%char ∉ s -> "010"%char ∉ setw w s.
Proof.
  intros Hs. unfold setw. apply not_elem_of_app. split; [|done].
  intros H. apply elem_of_replicate in H as [E _]. discriminate E.
Qed.

(** The fields of a row, from column [a] on. *)
Lemma print_fields (row : list Z) (n : nat) (a : Z) :
  0 <= a ->
  (forall j : nat, a <= Z.of_nat j < a + Z.of_nat n -> -99 <= row !!! j <= 999) ->
  exists r : list ascii,
    foldr (fun j rest =>
             setw 3 (show_int (row !!! Z.to_nat j)) ++ " "%char :: rest)
          endl (seqZ a (Z.of_nat n))
    = r ++ endl /\
    length r = (4 * n)%nat /\ "010"%char ∉ r.
Proof.
  revert a. induction n as [|n IH]; intros a Ha Hrow.
  - exists []. split; [done|]. split; [done|]. apply not_elem_of_nil.
  - rewrite (seqZ_cons a) by lia. cbn [foldr].
    replace (Z.pred (Z.of_nat (S n))) with (Z.of_nat n) by lia.
    destruct (IH (Z.succ a) ltac:(lia)) as (r & -> & Hlen & Hplain).
    { intros j Hj. apply Hrow. lia. }
    exists (setw 3 (show_int (row !!! Z.to_nat a)) ++ " "%char :: r).
    split; [by rewrite <- app_assoc|]. split.
    + rewrite length_app, setw_length. cbn [length].
      pose proof (proj2 (show_int_length (row !!! Z.to_nat a))
                    (Hrow (Z.to_nat a) ltac:(lia))).
      lia.
    + apply not_elem_of_app. split.
      * apply setw_plain, show_int_plain.
      * apply not_elem_of_cons. split; [intros E; discriminate E|done].
Qed.

(** The lines that [print_matrix] writes. *)
Lemma print_matrix_rows (matrix : list (list Z)) (size_X size_Y : Z) :
  0 <= size_X -> 0 <= size_Y ->
  (forall i j : nat, Z.of_nat i < size_X -> Z.of_nat j < size_Y ->
     -99 <= cell matrix i j <= 999) ->
  exists rows : list (list ascii),
    print_matrix matrix size_X size_Y
    = endl ++ concat ((fun r => r ++ endl) <$> rows) /\
    Z.of_nat (length rows) = size_X /\
    Forall (fun r => Z.of_nat (length r) = 4 * size_Y /\ "010"%char ∉ r) rows.
Proof.
  intros HX HY Hcells. unfold print_matrix.
  assert (Hrows : forall (n : nat) (a : Z),
    0 <= a -> a + Z.of_nat n <= size_X ->
    exists rows : list (list ascii),
      foldr (fun i rest => print_row (matrix !!! Z.to_nat i) size_Y ++ rest)
            [] (seqZ a (Z.of_nat n))
      = concat ((fun r => r ++ endl) <$> rows) /\
      length rows = n /\
      Forall (fun r => Z.of_nat (length r) = 4 * size_Y /\ "010"%char ∉ r)
             rows).
  { induction n as [|n IH]; intros a Ha Hn.
    - exists []. split; [done|]. split; [done|]. apply Forall_nil_2.
    - rewrite (seqZ_cons a) by lia. cbn [foldr].
      replace (Z.pred (Z.of_nat (S n))) with (Z.of_nat n) by lia.
      destruct (IH (Z.succ a) ltac:(lia) ltac:(lia))
        as (rows & -> & Hlen & Hall).
      destruct (print_fields (matrix !!! Z.to_nat a) (Z.to_nat size_Y) 0
                  ltac:(lia)) as (r & Er & Hr & Hplain).
      { intros j Hj. apply (Hcells (Z.to_nat a) j); lia. }
      rewrite Z2Nat.id in Er by done.
      exists (r :: rows). unfold print_row. rewrite Er.
      split; [done|]. split; [cbn [length]; lia|].
      apply Forall_cons. split; [|done]. split; [lia|done]. }
  destruct (Hrows (Z.to_nat size_X) 0 ltac:(lia) ltac:(lia))
    as (rows & E & Hlen & Hall).
  rewrite Z2Nat.id in E by done.
  exists rows. rewrite E. split; [done|]. split; [lia|done].
Qed.

(** X9. [print_matrix] writes an empty line and then one line for each
    of the [size_X] rows. When the values printed lie between -99 and 999
    every line has [4 * size_Y] characters before its end, a field of
    three and a space for each value, so that the columns line up. A value
    takes three characters or fewer only in that range: from 1000 on, and
    from -100 down, the field is wider and the line longer. *)
Theorem print_matrix_aligned
    (matrix : list (list Z)) (size_X size_Y : Z) :
  0 <= size_X -> 0 <= size_Y ->
  (forall i j : nat, Z.of_nat i < size_X -> Z.of_nat j < size_Y ->
     -99 <= cell matrix i j <= 999) ->
  (exists rows : list (list ascii),
     print_matrix matrix size_X size_Y
     = endl ++ concat ((fun r => r ++ endl) <$> rows) /\
     Z.of_nat (length rows) = size_X /\
     Forall (fun r => Z.of_nat (length r) = 4 * size_Y /\ "010"%char ∉ r) rows)
  /\
  (forall v : Z,
     length (setw 3 (show_int v) ++ [" "%char]) = 4%nat <-> -99 <= v <= 999).
Proof.
  intros HX HY Hcells. split.
  - by apply print_matrix_rows.
  - intros v. rewrite length_app, setw_length. cbn [length].
    pose proof (show_int_length v). lia.
Qed.

Lemma print_matrix_aligned_witness :
  exists rows : list (list ascii),
    print_matrix [[0; 12]; [999; -7]] 2 2
    = endl ++ concat ((fun r => r ++ endl) <$> rows) /\
    Z.of_nat (length rows) = 2 /\
    Forall (fun r => Z.of_nat (length r) = 4 * 2 /\ "010"%char ∉ r) rows.
Proof.
  destruct (print_matrix_aligned [[0; 12]; [999; -7]] 2 2) as [H _].
  - lia.
  - lia.
  - intros [|[|i]] [|[|j]] Hi Hj; vm_compute; try (split; discriminate); lia.
  - exact H.
Defined.

(** ** The total of the grid *)

Lemma Zsum_indicator (a : Z) (n : nat) :
  Zsum (fun j => if a =? Z.of_nat j then 1 else 0) n
  = if (0 <=? a) && (a <? Z.of_nat n) then 1 else 0.
Proof.
  induction n as [|n IH].
  - cbn [Zsum]. change (Z.of_nat 0) with 0.
    destruct (Z.leb_spec 0 a), (Z.ltb_spec a 0); simpl; lia.
  - change (Zsum (fun j => if a =? Z.of_nat j then 1 else 0) (S n))
      with (Zsum (fun j => if a =? Z.of_nat j then 1 else 0) n
            + (if a =? Z.of_nat n then 1 else 0)).
    rewrite IH.
    destruct (Z.leb_spec 0 a), (Z.ltb_spec a (Z.of_nat n)),
             (Z.ltb_spec a (Z.of_nat (S n))), (Z.eqb_spec a (Z.of_nat n));
      simpl; lia.
Qed.

(** A position that passes the two tests is counted for exactly one cell
    of the grid, and a position that does not for none. *)
Lemma counted_total (grid_size : Z) (radius : float) (p : float * float) :
  0 < grid_size -> grid_size * grid_size <= INT_MAX ->
  Zsum (fun y =>
          Zsum (fun x =>
                  if counted grid_size radius p (Z.of_nat y) (Z.of_nat x)
                  then 1 else 0) (Z.to_nat grid_size)) (Z.to_nat grid_size)
  = if passes grid_size radius p then 1 else 0.
Proof.
  intros HG HG2.
  pose proof (grid_small grid_size HG HG2) as Hsmall.
  unfold counted, passes.
  destruct (in_grid grid_size p.1 p.2) eqn:Hg; cbn [andb].
  2: { etrans; [|apply (Zsum_zero (Z.to_nat grid_size))].
       apply Zsum_ext. intros y _. apply Zsum_zero. }
  destruct (in_cell radius p.1 p.2); cbn [andb].
  2: { etrans; [|apply (Zsum_zero (Z.to_nat grid_size))].
       apply Zsum_ext. intros y _. apply Zsum_zero. }
  apply in_grid_iff in Hg as [Rx Ry]; [|lia].
  destruct (floor_index grid_size p.1 ltac:(unfold INT_MAX in *; nia) Rx)
    as [_ Fx].
  destruct (floor_index grid_size p.2 ltac:(unfold INT_MAX in *; nia) Ry)
    as [_ Fy].
  rewrite (Zsum_ext _ (fun y => if Qfloor (F32.to_Q p.2) =? Z.of_nat y
                                then 1 else 0)).
  - rewrite Zsum_indicator.
    destruct (Z.leb_spec 0 (Qfloor (F32.to_Q p.2))),
             (Z.ltb_spec (Qfloor (F32.to_Q p.2)) (Z.of_nat (Z.to_nat grid_size)));
      simpl; lia.
  - intros y _.
    destruct (Z.eqb_spec (Qfloor (F32.to_Q p.2)) (Z.of_nat y)) as [Ey|Ey].
    + rewrite (Zsum_ext _ (fun x => if Qfloor (F32.to_Q p.1) =? Z.of_nat x
                                    then 1 else 0)).
      * rewrite Zsum_indicator.
        destruct (Z.leb_spec 0 (Qfloor (F32.to_Q p.1))),
                 (Z.ltb_spec (Qfloor (F32.to_Q p.1))
                    (Z.of_nat (Z.to_nat grid_size)));
          simpl; lia.
      * intros x _. by rewrite andb_true_r.
    + etrans; [|apply (Zsum_zero (Z.to_nat grid_size))].
      apply Zsum_ext. intros x _. by rewrite andb_false_r.
Qed.

Lemma visits_total
    (n_particles grid_size : Z) (radius : float) (transform : Z -> float)
    (rx ry : list float) (ii : Z) (start : float * float) (n : nat) :
  0 < grid_size -> grid_size * grid_size <= INT_MAX ->
  Zsum (fun y =>
          Zsum (fun x =>
                  visits n_particles grid_size radius transform rx ry ii start
                    (Z.of_nat y) (Z.of_nat x) n)
               (Z.to_nat grid_size)) (Z.to_nat grid_size)
  = passed n_particles grid_size radius transform rx ry ii start n.
Proof.
  intros HG HG2. induction n as [|n IH].
  - cbn [visits passed].
    etrans; [|apply (Zsum_zero (Z.to_nat grid_size))].
    apply Zsum_ext. intros y _. apply Zsum_zero.
  - cbn [visits passed]. rewrite <- IH, <- (counted_total grid_size radius) by done.
    rewrite <- Zsum_add. apply Zsum_ext. intros y _.
    by rewrite <- Zsum_add.
Qed.

(** X10. The cells of the grid that [simulate] produces add up to the
    number of pairs of a particle and an iteration after which the
    particle passed the grid test and the occupancy test: every such
    iteration is counted once, in one cell, and no other is counted. *)
Theorem grid_total_counts_passes
    (rand_after_srand : Z -> nat -> Z) (transform : Z -> float)
    (grid_size n_particles : Z) (radius startX startY : float)
    (nIterations : Z) :
  0 < grid_size -> grid_size * grid_size <= INT_MAX ->
  0 <= n_particles -> n_particles + 255 < 2 ^ 32 ->
  0 <= nIterations <= UINT_MAX ->
  n_particles * nIterations <= INT_MAX ->
  let h := simulate rand_after_srand transform grid_size n_particles radius
             startX startY nIterations in
  let G := Z.to_nat grid_size in
  Zsum (fun y => Zsum (fun x => cell (h_grid h) y x) G) G
  = Zsum (fun p =>
            passed n_particles grid_size radius transform
              (h_randomX h) (h_randomY h) (Z.of_nat p) (startX, startY)
              (Z.to_nat nIterations))
      (Z.to_nat n_particles).
Proof.
  intros HG HG2 HP HT HI HPI.
  pose proof (simulate_counts rand_after_srand transform grid_size n_particles
                radius startX startY nIterations HG HG2 HP HT HI HPI) as H.
  cbv zeta in H. destruct H as [_ Hcell]. cbv zeta.
  set (h := simulate _ _ _ _ _ _ _ _) in *.
  set (G := Z.to_nat grid_size).
  set (f := fun (p y x : nat) =>
    visits n_particles grid_size radius transform (h_randomX h) (h_randomY h)
      (Z.of_nat p) (startX, startY) (Z.of_nat y) (Z.of_nat x)
      (Z.to_nat nIterations)).
  rewrite (Zsum_ext _ (fun y => Zsum (fun p => Zsum (fun x => f p y x) G)
                                  (Z.to_nat n_particles))).
  2: { intros y Hy.
       rewrite (Zsum_ext _ (fun x => Zsum (fun p => f p y x)
                                       (Z.to_nat n_particles))).
       - apply Zsum_exchange.
       - intros x Hx. apply Hcell; unfold G in *; lia. }
  rewrite Zsum_exchange. apply Zsum_ext. intros p _.
  by apply visits_total.
Qed.

Lemma grid_total_counts_passes_witness :
  let rand := fun (_ : Z) (k : nat) => Z.of_nat k * 7919 + 13 in
  let half := F32.div (F32.of_Z 1) (F32.of_Z 2) in
  let h := simulate rand displacement 21 20 half (F32.of_Z 10) (F32.of_Z 10) 3 in
  Zsum (fun y => Zsum (fun x => cell (h_grid h) y x) 21) 21
  = Zsum (fun p => passed 20 21 half displacement (h_randomX h) (h_randomY h)
                     (Z.of_nat p) (F32.of_Z 10, F32.of_Z 10) 3) 20.
Proof.
  cbv zeta.
  apply (grid_total_counts_passes
           (fun (_ : Z) (k : nat) => Z.of_nat k * 7919 + 13)
           displacement 21 20 (F32.div (F32.of_Z 1) (F32.of_Z 2))
           (F32.of_Z 10) (F32.of_Z 10) 3).
  - lia.
  - unfold INT_MAX. lia.
  - lia.
  - lia.
  - unfold UINT_MAX. lia.
  - unfold INT_MAX. lia.
Defined.

(** ** The offsets of the occupancy test *)

Lemma digits2_pos_lt (p : positive) : Zpos p < 2 ^ Zpos (digits2_pos p).
Proof.
  induction p as [p IH|p IH|]; cbn [digits2_pos].
  - rewrite Pos2Z.inj_succ, Z.pow_succ_r by lia. lia.
  - rewrite Pos2Z.inj_succ, Z.pow_succ_r by lia. lia.
  - reflexivity.
Qed.

(** A mantissa of at most 24 bits at an exponent of binary32 is not
    rounded. *)
Lemma binary_round_exact (s : bool) (r : positive) (e : Z) :
  Zpos r < 2 ^ 24 -> -149 <= e <= 104 ->
  exists (m' : positive) (e' : Z),
    binary_round 24 128 s r e = S754_finite s m' e' /\
    -149 <= e' <= e /\ Zpos m' = Zpos r * 2 ^ (e - e').
Proof.
  intros Hr He.
  pose proof (digits2_pos_bound r 24 ltac:(lia) Hr) as Hd.
  unfold binary_round.
  set (ez := fexp 24 128 (Zpos (digits2_pos r) + e)).
  assert (Hez : ez = Z.max (Zpos (digits2_pos r) + e - 24) (-149))
    by reflexivity.
  unfold shl_align.
  destruct (ez - e) as [|p|k] eqn:Ed; [|lia|].
  - unfold binary_round_aux, shr_fexp.
    change (Zdigits2 (Zpos r)) with (Zpos (digits2_pos r)).
    fold ez. rewrite Ed.
    cbn [shr shr_record_of_loc shr_m loc_of_shr_record round_nearest_even
         shr_r shr_s].
    change (Zdigits2 (Zpos r)) with (Zpos (digits2_pos r)).
    fold ez. rewrite Ed. cbn [shr shr_record_of_loc shr_m].
    destruct (Z.leb_spec e (128 - 24)); [|lia].
    exists r, e. split; [done|]. split; [lia|].
    rewrite Z.sub_diag. cbn. lia.
  - unfold binary_round_aux, shr_fexp.
    change (Zdigits2 (Zpos (Pos.iter xO r k)))
      with (Zpos (digits2_pos (Pos.iter xO r k))).
    rewrite digits2_pos_iter_xO.
    assert (E0 : fexp 24 128 (Zpos (digits2_pos r + k) + ez) - ez = 0).
    { unfold fexp, emin. rewrite Pos2Z.inj_add. lia. }
    rewrite E0.
    cbn [shr shr_record_of_loc shr_m loc_of_shr_record round_nearest_even
         shr_r shr_s].
    change (Zdigits2 (Zpos (Pos.iter xO r k)))
      with (Zpos (digits2_pos (Pos.iter xO r k))).
    rewrite digits2_pos_iter_xO, E0. cbn [shr shr_record_of_loc shr_m].
    destruct (Z.leb_spec ez (128 - 24)); [|lia].
    exists (Pos.iter xO r k), ez. split; [done|]. split; [lia|].
    rewrite Zpos_iter_xO. f_equal. f_equal. lia.
Qed.

(** The value of a float with a negative exponent. *)
Lemma to_Q_neg (s : bool) (m k : positive) :
  F32.to_Q (S754_finite s m (Zneg k)) = Qmake (cond_Zopp s (Zpos m)) (2 ^ k).
Proof. reflexivity. Qed.

Lemma valid_binary32 (s : bool) (m : positive) (e : Z) :
  valid_binary F32.prec F32.emax (S754_finite s m e) = true ->
  Zpos m < 2 ^ 24 /\ -149 <= e <= 104.
Proof.
  cbn [valid_binary]. unfold bounded, canonical_mantissa, fexp, emin,
    F32.prec, F32.emax.
  intros H. apply andb_true_iff in H as [H1 H2].
  apply Z.eqb_eq in H1. apply Z.leb_le in H2.
  pose proof (digits2_pos_lt m) as Hm.
  assert (Zpos (digits2_pos m) <= 24) by lia.
  split; [|lia].
  eapply Z.lt_le_trans; [exact Hm|]. apply Z.pow_le_mono_r; lia.
Qed.

(** The subtraction [x - trunc(x)] for [x] with fraction bits. *)
Lemma sub_trunc_neg (s : bool) (m k : positive) :
  Zpos m < 2 ^ 24 -> -149 <= Zneg k ->
  let x := S754_finite s m (Zneg k) in
  is_finite (F32.sub x (F32.trunc x)) = true /\
  (F32.to_Q (F32.sub x (F32.trunc x))
   == Qmake (cond_Zopp s (Zpos m mod 2 ^ Zpos k)) (2 ^ k))%Q.
Proof.
  intros Hm Hk x. subst x. cbn [F32.trunc].
  rewrite Zshiftr_pos_shiftl.
  assert (Hpow : 0 < 2 ^ Zpos k) by (apply Z.pow_pos_nonneg; lia).
  pose proof (Z.div_mod (Zpos m) (2 ^ Zpos k) ltac:(lia)) as Hdm.
  pose proof (Z.mod_pos_bound (Zpos m) (2 ^ Zpos k) Hpow) as Hmod.
  pose proof (Z.div_pos (Zpos m) (2 ^ Zpos k) ltac:(lia) Hpow) as Hdiv.
  destruct (Zpos m / 2 ^ Zpos k) as [|q|q] eqn:Eq; [| |lia].
  - (* below one in magnitude: the truncation is a zero *)
    unfold F32.sub. cbn [SFsub]. split; [done|].
    rewrite to_Q_neg. replace (Zpos m mod 2 ^ Zpos k) with (Zpos m) by lia.
    reflexivity.
  - unfold F32.sub. cbn [SFsub].
    rewrite Z.min_id. unfold shl_align. rewrite Z.sub_diag. cbn [fst].
    rewrite Pos_shiftl_Zpos.
    assert (ED : cond_Zopp s (Zpos m) - cond_Zopp s (Zpos q * 2 ^ Zpos k)
                 = cond_Zopp s (Zpos m mod 2 ^ Zpos k)).
    { destruct s; cbn [cond_Zopp]; lia. }
    rewrite ED.
    destruct (Zpos m mod 2 ^ Zpos k) as [|r|r] eqn:Er; [| |lia].
    + destruct s; cbn [cond_Zopp Z.opp binary_normalize]; split; done.
    + assert (Hr : Zpos r < 2 ^ 24) by lia.
      destruct (binary_round_exact s r (Zneg k) Hr ltac:(lia))
        as (m' & e' & E & He' & Hm').
      assert (Eb : binary_normalize F32.prec F32.emax (cond_Zopp s (Zpos r))
                     (Zneg k) false = S754_finite s m' e').
      { destruct s; cbn [cond_Zopp Z.opp binary_normalize]; exact E. }
      rewrite Eb. split; [done|].
      destruct e' as [|e'|k']; [lia|lia|].
      rewrite to_Q_neg. unfold Qeq. cbn [Qnum Qden].
      rewrite !Zpos_pow2.
      assert (Ek : 2 ^ Zpos k' = 2 ^ (Zneg k - Zneg k') * 2 ^ Zpos k).
      { rewrite <- Z.pow_add_r by lia. f_equal. lia. }
      rewrite Ek. destruct s; cbn [cond_Zopp]; nia.
Qed.

(** X11. The offset [dX = x - trunc(x)] of the occupancy test is computed
    without rounding: for every finite binary32 number [x] the float
    subtraction gives exactly the value of [x] minus its integer part, so
    for a coordinate that is not negative [dX] is the fractional part of
    [x], at least 0 and below 1. *)
Theorem offset_is_exact
    (x : float) :
  valid_binary F32.prec F32.emax x = true -> is_finite x = true ->
  let d := F32.sub x (F32.trunc x) in
  is_finite d = true /\
  (F32.to_Q d == F32.to_Q x - inject_Z (Qtrunc (F32.to_Q x)))%Q /\
  ((0 <= F32.to_Q x)%Q ->
   (F32.to_Q d == F32.to_Q x - inject_Z (Qfloor (F32.to_Q x)))%Q /\
   (0 <= F32.to_Q d)%Q /\ (F32.to_Q d < 1)%Q).
Proof.
  intros Hv Hf d.
  assert (H : is_finite d = true /\
              (F32.to_Q d == F32.to_Q x - F32.to_Q (F32.trunc x))%Q).
  { subst d. destruct x as [s| |  |s m [|e|k]]; try discriminate Hf.
    - destruct s; split; reflexivity.
    - cbn [F32.trunc]. rewrite sub_self_zero by done.
      split; [done|]. unfold Qeq. cbn. lia.
    - cbn [F32.trunc]. rewrite sub_self_zero by done.
      split; [done|]. unfold Qminus. rewrite Qplus_opp_r. reflexivity.
    - destruct (valid_binary32 s m (Zneg k) Hv) as [Hm He].
      pose proof (sub_trunc_neg s m k Hm ltac:(lia)) as Hs.
      cbv zeta in Hs. destruct Hs as [Hfin Hq].
      split; [done|]. rewrite Hq. clear Hq Hfin.
      cbn [F32.trunc]. rewrite Zshiftr_pos_shiftl.
      assert (Hpow : 0 < 2 ^ Zpos k) by (apply Z.pow_pos_nonneg; lia).
      pose proof (Z.div_mod (Zpos m) (2 ^ Zpos k) ltac:(lia)) as Hdm.
      pose proof (Z.mod_pos_bound (Zpos m) (2 ^ Zpos k) Hpow) as Hmod.
      pose proof (Z.div_pos (Zpos m) (2 ^ Zpos k) ltac:(lia) Hpow) as Hdiv.
      destruct (Zpos m / 2 ^ Zpos k) as [|q|q] eqn:Eq; [| |lia].
      + rewrite to_Q_neg.
        replace (Zpos m mod 2 ^ Zpos k) with (Zpos m) by lia.
        change (F32.to_Q (S754_zero s)) with 0%Q.
        unfold Qminus. rewrite Qplus_0_r. reflexivity.
      + rewrite !to_Q_neg. rewrite Pos_shiftl_Zpos.
        unfold Qeq, Qminus, Qplus, Qopp. cbn [Qnum Qden].
        rewrite Pos2Z.inj_mul, !Zpos_pow2.
        destruct s; cbn [cond_Zopp]; nia. }
  destruct H as [Hfin Hq]. split; [done|].
  pose proof (to_Q_trunc x) as Ht.
  split; [by rewrite Hq, Ht|].
  intros Hpos.
  assert (Efl : Qtrunc (F32.to_Q x) = Qfloor (F32.to_Q x)).
  { unfold Qtrunc, Qfloor. destruct (F32.to_Q x) as [n dn].
    unfold Qle in Hpos. cbn [Qnum Qden] in *.
    apply Z.quot_div_nonneg; lia. }
  rewrite Hq, Ht, Efl.
  split; [reflexivity|].
  pose proof (Qfloor_le (F32.to_Q x)) as H1.
  pose proof (Qlt_floor (F32.to_Q x)) as H2.
  assert (E : (F32.to_Q x - inject_Z (Qfloor (F32.to_Q x))
               + inject_Z (Qfloor (F32.to_Q x)) == F32.to_Q x)%Q) by ring.
  split.
  - apply (Qplus_le_l _ _ (inject_Z (Qfloor (F32.to_Q x)))).
    rewrite E, Qplus_0_l. exact H1.
  - apply (Qplus_lt_l _ _ (inject_Z (Qfloor (F32.to_Q x)))).
    rewrite E, Qplus_comm. rewrite inject_Z_plus in H2. exact H2.
Qed.

Lemma offset_is_exact_witness :
  let x := F32.add (F32.of_Z 10) (displacement 60) in
  (F32.to_Q (F32.sub x (F32.trunc x)) == F32.to_Q x - inject_Z 10)%Q.
Proof.
  cbv zeta.
  pose proof (offset_is_exact (F32.add (F32.of_Z 10) (displacement 60))) as H.
  cbv zeta in H. destruct H as (_ & _ & H).
  - vm_compute. reflexivity.
  - vm_compute. reflexivity.
  - destruct H as (H & _).
    + vm_compute. intros E. discriminate E.
    + rewrite H. vm_compute. reflexivity.
Defined.

(** ** The grid that [main] prints *)

(** X12. For an iteration count from 0 to 49 the grid that [main] prints
    is lined up: an empty line, then 21 lines of 84 characters each, since
    no cell can then exceed 20 * 49 = 980 and so none needs more than the
    field of three. *)
Theorem main_grid_aligned (rand_after_srand : Z -> nat -> Z) (arg : Z) :
  0 <= arg <= 49 ->
  exists rows : list (list ascii),
    main_grid_output rand_after_srand arg
    = endl ++ concat ((fun r => r ++ endl) <$> rows) /\
    length rows = 21%nat /\
    Forall (fun r => length r = 84%nat /\ "010"%char ∉ r) rows.
Proof.
  intros Harg. unfold main_grid_output. cbn [Z.leb Z.compare Pos.compare
    Pos.compare_cont]. unfold main.
  rewrite (to_size_t_small arg) by (unfold SIZE_MAX; lia).
  pose proof (simulate_counts rand_after_srand displacement 21 20
                (F32.div (F32.of_Z 1) (F32.of_Z 2)) (F32.of_Z 10) (F32.of_Z 10)
                arg ltac:(lia) ltac:(unfold INT_MAX; lia) ltac:(lia) ltac:(lia)
                ltac:(unfold UINT_MAX; lia) ltac:(unfold INT_MAX; lia)) as H.
  cbv zeta in H. destruct H as [_ Hcell].
  set (h := simulate _ _ _ _ _ _ _ _) in *.
  destruct (print_matrix_rows (h_grid h) 21 21 ltac:(lia) ltac:(lia))
    as (rows & E & Hlen & Hall).
  { intros i j Hi Hj. rewrite Hcell by lia.
    assert (0 <= Zsum (fun p : nat =>
                         visits 20 21 (F32.div (F32.of_Z 1) (F32.of_Z 2))
                           displacement (h_randomX h) (h_randomY h)
                           (Z.of_nat p) (F32.of_Z 10, F32.of_Z 10)
                           (Z.of_nat i) (Z.of_nat j) (Z.to_nat arg))
                 (Z.to_nat 20)
            <= Z.of_nat (Z.to_nat 20) * arg).
    { split.
      - apply Zsum_nonneg. intros p _. apply visits_range.
      - rewrite <- Zsum_const. apply Zsum_le. intros p _.
        pose proof (visits_range 20 21 (F32.div (F32.of_Z 1) (F32.of_Z 2))
                      displacement (h_randomX h) (h_randomY h) (Z.of_nat p)
                      (F32.of_Z 10, F32.of_Z 10) (Z.of_nat i) (Z.of_nat j)
                      (Z.to_nat arg)).
        lia. }
    lia. }
  exists rows. split; [exact E|]. split; [lia|].
  eapply Forall_impl; [exact Hall|]. intros r [Hr Hp]. split; [lia|done].
Qed.

Lemma main_grid_aligned_witness :
  exists rows : list (list ascii),
    main_grid_output (fun (_ : Z) (k : nat) => Z.of_nat k * 7919 + 13) 3
    = endl ++ concat ((fun r => r ++ endl) <$> rows) /\
    length rows = 21%nat /\
    Forall (fun r => length r = 84%nat /\ "010"%char ∉ r) rows.
Proof.
  apply (main_grid_aligned (fun (_ : Z) (k : nat) => Z.of_nat k * 7919 + 13) 3).
  lia.
Defined.

(** ** The contract of [motion_device] *)

(** The counters after a completed launch. *)
Lemma completed_visits
    (n_particles nIterations grid_size : Z) (radius : float)
    (transform : Z -> float) (dev0 dev' : memory) (p y x : Z) :
  0 < grid_size -> grid_size * grid_size <= INT_MAX ->
  n_particles * (grid_size * grid_size) <= SIZE_MAX ->
  completed n_particles nIterations grid_size radius transform dev0 dev' ->
  0 <= p < n_particles -> 0 <= y < grid_size -> 0 <= x < grid_size ->
  (Z.to_nat p < length (d_particleX dev0))%nat ->
  (Z.to_nat p < length (d_particleY dev0))%nat ->
  let c := Z.to_nat (p * (grid_size * grid_size) + y * grid_size + x) in
  (c < length (d_map dev0))%nat ->
  0 <= d_map dev0 !!! c ->
  d_map dev0 !!! c + Z.of_nat (Z.to_nat nIterations) <= SIZE_MAX ->
  d_map dev' !!! c
  = d_map dev0 !!! c
    + visits n_particles grid_size radius transform
        (d_randomX dev0) (d_randomY dev0) p
        (d_particleX dev0 !!! Z.to_nat p, d_particleY dev0 !!! Z.to_nat p)
        y x (Z.to_nat nIterations).
Proof.
  intros HG HG2 HM Hc Hp Hy Hx HX HY c Hlen H0 Hn.
  destruct Hc as (_ & _ & _ & _ & _ & HA & _).
  destruct (HA (Z.to_nat p) ltac:(lia)) as (_ & _ & A).
  rewrite Z2Nat.id in A by lia.
  assert (Hs : in_slice grid_size p c) by (unfold in_slice, c; nia).
  rewrite (lookup_total_agree _ _ _ (A _ Hs)).
  unfold solo. rewrite Z2Nat.id by lia.
  by apply (loop_visits n_particles grid_size radius transform HG HG2 HM).
Qed.

(** The device memory that [motion_device] hands to the kernel, for a map
    of [P * G * G] counters. *)
Lemma motion_device_device
    (rand_after_srand : Z -> nat -> Z) (transform : Z -> float)
    (particleX particleY : list float) (grid : list (list Z))
    (grid_size n_particles nIterations : Z) (radius : float) (map : list Z) :
  0 < grid_size -> grid_size * grid_size <= INT_MAX ->
  0 <= n_particles -> n_particles + 255 < 2 ^ 32 -> 0 <= nIterations ->
  Z.of_nat (length map) = n_particles * (grid_size * grid_size) ->
  let h := motion_device rand_after_srand transform particleX particleY grid
             grid_size n_particles nIterations radius map in
  let dev0 :=
    Memory (take (Z.to_nat n_particles) particleX)
           (take (Z.to_nat n_particles) particleY)
           (h_randomX h) (h_randomY h) map in
  exists dev' : memory,
    completed n_particles nIterations grid_size radius transform dev0 dev' /\
    h_map h = d_map dev' /\
    h_grid h = reduce n_particles grid_size (d_map dev') grid.
Proof.
  intros HG HG2 HP HT HI Hlen. cbv zeta.
  pose proof (map_fits n_particles grid_size HP HT HG HG2) as HM.
  unfold motion_device, motion_device_exec.
  assert (Es : to_size_t grid_size = grid_size)
    by (apply to_size_t_small; unfold SIZE_MAX, INT_MAX in *; nia).
  rewrite Es.
  assert (En : to_size_t (to_size_t (n_particles * grid_size) * grid_size)
               = n_particles * (grid_size * grid_size)).
  { assert (0 <= n_particles * grid_size
            <= n_particles * (grid_size * grid_size)) by nia.
    rewrite (to_size_t_small (n_particles * grid_size)) by lia.
    rewrite to_size_t_small by nia. ring. }
  rewrite En.
  destruct (fill_random _ _ _) as [rx ry].
  rewrite (take_ge map), (drop_ge map) by lia.
  set (dev0 := Memory (take (Z.to_nat n_particles) particleX)
                 (take (Z.to_nat n_particles) particleY) rx ry map).
  pose proof (launch_completed n_particles nIterations grid_size radius
                transform HG HG2 HM HP HT HI dev0) as Hc.
  unfold exec in Hc.
  destruct (snd (Simulation_launch _ _ _ _ _ (dev0, []))) as [dev' tr].
  cbn [fst snd] in Hc. cbn [h_randomX h_randomY h_map h_grid].
  exists dev'. rewrite app_nil_r. done.
Qed.

(** X13. The contract of [motion_device] for arrays of any content: the
    walk of particle [p] starts at [(particleX[p], particleY[p])]; every
    counter of the map goes up by the number of iterations after which its
    particle was counted for its cell; and every cell of the grid goes up
    by the sum over the particles of the whole final counters, that is, of
    what the map held before as well as of what the run has counted,
    reduced to an [int]. The map and the grid are added to, not reset. *)
Theorem motion_device_accumulates
    (rand_after_srand : Z -> nat -> Z) (transform : Z -> float)
    (particleX particleY : list float) (grid : list (list Z))
    (grid_size n_particles nIterations : Z) (radius : float) (map : list Z) :
  0 < grid_size -> grid_size * grid_size <= INT_MAX ->
  0 <= n_particles -> n_particles + 255 < 2 ^ 32 ->
  0 <= nIterations ->
  n_particles <= Z.of_nat (length particleX) ->
  n_particles <= Z.of_nat (length particleY) ->
  Z.of_nat (length map) = n_particles * (grid_size * grid_size) ->
  Forall (fun c => 0 <= c /\ c + nIterations <= SIZE_MAX) map ->
  square grid_size grid -> int_grid grid ->
  let h := motion_device rand_after_srand transform particleX particleY grid
             grid_size n_particles nIterations radius map in
  let index := fun p y x : Z =>
    Z.to_nat (p * (grid_size * grid_size) + y * grid_size + x) in
  let walk := fun p y x : Z =>
    visits n_particles grid_size radius transform (h_randomX h) (h_randomY h)
      p (particleX !!! Z.to_nat p, particleY !!! Z.to_nat p) y x
      (Z.to_nat nIterations) in
  (forall p y x : Z,
     0 <= p < n_particles -> 0 <= y < grid_size -> 0 <= x < grid_size ->
     h_map h !!! index p y x = map !!! index p y x + walk p y x) /\
  (forall y x : nat, Z.of_nat y < grid_size -> Z.of_nat x < grid_size ->
     cell (h_grid h) y x
     = to_int
         (cell grid y x
          + Zsum (fun p =>
                    map !!! index (Z.of_nat p) (Z.of_nat y) (Z.of_nat x)
                    + walk (Z.of_nat p) (Z.of_nat y) (Z.of_nat x))
              (Z.to_nat n_particles))).
Proof.
  intros HG HG2 HP HT HI HLX HLY Hlen Hmap Hsq Hint.
  pose proof (map_fits n_particles grid_size HP HT HG HG2) as HM.
  pose proof (motion_device_device rand_after_srand transform particleX
                particleY grid grid_size n_particles nIterations radius map
                HG HG2 HP HT HI Hlen) as Hu.
  cbv zeta in Hu. destruct Hu as (dev' & Hc & E1 & E2).
  cbv zeta. rewrite E1, E2. clear E1 E2.
  set (h := motion_device _ _ _ _ _ _ _ _ _ _) in *.
  set (dev0 := Memory _ _ _ _ _) in Hc.
  assert (Hcount : forall p y x : Z,
    0 <= p < n_particles -> 0 <= y < grid_size -> 0 <= x < grid_size ->
    d_map dev'
      !!! Z.to_nat (p * (grid_size * grid_size) + y * grid_size + x)
    = map !!! Z.to_nat (p * (grid_size * grid_size) + y * grid_size + x)
      + visits n_particles grid_size radius transform (h_randomX h)
          (h_randomY h) p (particleX !!! Z.to_nat p, particleY !!! Z.to_nat p)
          y x (Z.to_nat nIterations)).
  { intros p y x Hp Hy Hx.
    assert (Hidx : (Z.to_nat (p * (grid_size * grid_size) + y * grid_size + x)
                    < length map)%nat) by nia.
    pose proof (Forall_total _ _ _ Hmap Hidx) as [Hc0 Hc1].
    pose proof (completed_visits n_particles nIterations grid_size radius
                  transform dev0 dev' p y x HG HG2 HM Hc Hp Hy Hx) as Hv.
    cbv zeta in Hv. unfold dev0 in Hv.
    cbn [d_map d_particleX d_particleY d_randomX d_randomY] in Hv.
    rewrite !lookup_total_take_lt in Hv by lia.
    apply Hv.
    - rewrite length_take. lia.
    - rewrite length_take. lia.
    - done.
    - done.
    - lia. }
  split; [exact Hcount|].
  intros y x Hy Hx.
  assert (Hnn : Forall (fun c => 0 <= c) (d_map dev')).
  { destruct Hc as (_ & _ & _ & _ & HL & _).
    apply Forall_lookup. intros j c Hj.
    assert (Hlt : Z.of_nat j < n_particles * (grid_size * grid_size)).
    { apply lookup_lt_Some in Hj. rewrite HL in Hj.
      unfold dev0 in Hj. cbn [d_map] in Hj. lia. }
    destruct (slice_of n_particles grid_size HG j Hlt) as (p & Hp & Hs).
    destruct (slice_cell grid_size (Z.of_nat p) j HG Hs)
      as (iY & iX & HiX & HiY & Ej).
    apply list_lookup_total_correct in Hj.
    pose proof (Hcount (Z.of_nat p) iY iX ltac:(lia) HiY HiX) as Ec.
    rewrite <- Ej, Nat2Z.id in Ec. rewrite Hj in Ec. subst c.
    assert (Hidx : (j < length map)%nat) by lia.
    pose proof (Forall_total _ _ _ Hmap Hidx) as [Hc0 _].
    pose proof (visits_range n_particles grid_size radius transform
                  (h_randomX h) (h_randomY h) (Z.of_nat p)
                  (particleX !!! Z.to_nat (Z.of_nat p),
                   particleY !!! Z.to_nat (Z.of_nat p)) iY iX
                  (Z.to_nat nIterations)).
    lia. }
  destruct (reduce_in_cell n_particles grid_size (d_map dev') grid
              (seqZ 0 n_particles) y x ltac:(nia) HM Hnn Hsq Hint
              (seqZ_particles n_particles) Hy Hx) as (_ & _ & Hr).
  fold (reduce n_particles grid_size (d_map dev') grid) in Hr.
  rewrite Hr. do 2 f_equal.
  rewrite <- (Z2Nat.id n_particles) at 1 by done. rewrite sumZ_seqZ.
  apply Zsum_ext. intros i Hi. unfold tally. apply Hcount; lia.
Qed.

Lemma motion_device_accumulates_witness :
  let rand := fun (_ : Z) (k : nat) => Z.of_nat k * 37 + 50 in
  let half := F32.div (F32.of_Z 1) (F32.of_Z 2) in
  let map := [0; 0; 0; 0; 5; 0; 0; 0; 0; 0; 0; 0; 0; 2; 0; 0; 0; 0] in
  let h := motion_device rand displacement [F32.of_Z 1; F32.of_Z 1]
             [F32.of_Z 1; F32.of_Z 1] [[0; 0; 0]; [0; 7; 0]; [0; 0; 0]]
             3 2 2 half map in
  h_map h !!! 4%nat
  = 5 + visits 2 3 half displacement (h_randomX h) (h_randomY h) 0
          (F32.of_Z 1, F32.of_Z 1) 1 1 2.
Proof.
  cbv zeta.
  pose proof (motion_device_accumulates
                (fun (_ : Z) (k : nat) => Z.of_nat k * 37 + 50) displacement
                [F32.of_Z 1; F32.of_Z 1] [F32.of_Z 1; F32.of_Z 1]
                [[0; 0; 0]; [0; 7; 0]; [0; 0; 0]] 3 2 2
                (F32.div (F32.of_Z 1) (F32.of_Z 2))
                [0; 0; 0; 0; 5; 0; 0; 0; 0; 0; 0; 0; 0; 2; 0; 0; 0; 0]) as H.
  cbv zeta in H. destruct H as (H & _).
  - lia.
  - unfold INT_MAX. lia.
  - lia.
  - lia.
  - lia.
  - cbn [length]. lia.
  - cbn [length]. lia.
  - cbn [length]. lia.
  - repeat (apply Forall_cons; split; [unfold SIZE_MAX; lia|]).
    apply Forall_nil_2.
  - split; [reflexivity|]. repeat constructor.
  - repeat constructor; unfold INT_MIN, INT_MAX; lia.
  - apply (H 0 1 1); lia.
Defined.
